(** * eval: a shallow embedding of the expression engine (engine.go, parse.go)

    The Go code is translated function by function.  Machine integers are
    kept as [Z] with their wrap-around written out, slices as lists whose
    out-of-range accesses are run-time panics, Go maps as [gmap], and the
    two loops of [Expr.Eval] as fuel-indexed fixpoints. *)

From Stdlib Require Import ZArith Lia Bool List String Ascii.
From stdpp Require Import base list gmap strings sorting.
Import ListNotations.
Open Scope Z_scope.

(** ** Text *)

(** A rune is a Unicode code point.  A Go string that went through
    [[]rune(s)] and back through [string(A[i:j])] is determined by its
    code points, which is how token values and keys are kept here. *)
Definition rune := Z.
Definition gostring := list rune.

Definition rune_of_ascii (c : ascii) : rune := Z.of_N (N_of_ascii c).

(** The code points of an ASCII literal of the source. *)
Definition gs (s : string) : gostring :=
  List.map rune_of_ascii (list_ascii_of_string s).

(** ** Values, errors and outcomes *)

(** The dynamic types that the two files put into a [Value]
    ([interface{}]): nil, int64, string, bool, []int64, []string and the
    named string type [keyword]. *)
Inductive Value :=
| VNil
| VInt (n : Z)
| VStr (s : gostring)
| VBool (b : bool)
| VInts (l : list Z)
| VStrs (l : list gostring)
| VKeyword (k : gostring).

Inductive tokenType := noType | integer | str | ident | lParen | rParen | comment.

Global Instance tokenType_eq_dec : EqDecision tokenType.
Proof. solve_decision. Defined.

(** Errors are kept structured: each constructor is one [errors.New] or
    [fmt.Errorf] call site of the source. *)
Inductive error :=
| ErrNew (msg : string)
| ErrOccursAt (cause : error) (place : gostring)
| ErrTokenType (want got : tokenType)
| ErrParamsCount (name : gostring) (want got : Z)
| ErrNotSupported (name : gostring)
| ErrCondNonBool (v : Value)
| ErrInvalidResult (v : Value)
| ErrParseInt (s : gostring)
| ErrInvalidCompileFormat (s : gostring)
| ErrInvalidConfigValue (s : gostring)
| ErrUnsupportedConfig (s : gostring).

(** Run-time panics of the Go runtime that the code can raise. *)
Inductive panic :=
| IndexOutOfRange
| SliceBounds
| MakeLenOutOfRange
| TypeAssertion
| NilFunc.

(** What a call does: it returns its pair [(res, err)], panics, or the
    model ran out of fuel (the Go loop would still be running). *)
Inductive outcome :=
| Returns (res : Value) (err : option error)
| Panics (p : panic)
| OutOfFuel.

(** What a call into a selector or an operator does. *)
Inductive call_result :=
| Ret (res : Value) (err : option error)
| Raise (p : panic).

(** ** Fixed-width integers *)

Definition wrap16 (z : Z) : Z := (z + 32768) mod 65536 - 32768.

Definition is_int16 (z : Z) : Prop := -32768 <= z <= 32767.

(** Go's [s[i]] for a signed index. *)
Definition index {A} (l : list A) (i : Z) : option A :=
  if 0 <=? i then l !! Z.to_nat i else None.

(** Go's [s[i] = v], for an index already known to be in range. *)
Definition store {A} (l : list A) (i : Z) (v : A) : list A :=
  <[Z.to_nat i := v]> l.

Definition in_range {A} (l : list A) (i : Z) : bool :=
  (0 <=? i) && (i <? Z.of_nat (length l)).

(** ** engine.go: data *)

Definition SelectorKey := Z.

(** [context.Context] as far as a caller can observe it through [Err()]. *)
Record context_Context := { ctx_err : option error }.

(** [Ctx] embeds the [Selector] interface (its [Get] method) and carries
    the [context.Context]. *)
Record Ctx := {
  Get : SelectorKey -> gostring -> call_result;
  Ctx_ : context_Context
}.

Definition Operator := Ctx -> list Value -> call_result.

Definition nodeTypeMask : Z := 7.
Definition constant : Z := 1.
Definition selector : Z := 2.
Definition operator : Z := 3.
Definition fastOperator : Z := 4.
Definition cond : Z := 5.
Definition debug : Z := 7.

Definition scIfFalse : Z := 8.
Definition scIfTrue : Z := 16.

Module node.
Record t := mk {
  flag : Z;
  childCnt : Z;
  scIdx : Z;
  childIdx : Z;
  selKey : SelectorKey;
  value : Value;
  operator : option Operator
}.
Definition getNodeType (n : t) : Z := Z.land (flag n) nodeTypeMask.
End node.

(** Modelled from the spec: the declaration of [labNode] is missing from
    the source files; its fields are the ones [Expr.Eval] reads ([flag],
    [child], [scPos], [osTop], [selKey], [value], [operator]), which are the
    spec's kind and short-circuit flags, child_count, sc_target,
    os_top_at_entry, selector_key, value and operator of a program node. *)
Module labNode.
Record t := mk {
  flag : Z;
  child : Z;
  scPos : Z;
  osTop : Z;
  selKey : SelectorKey;
  value : Value;
  operator : option Operator
}.
End labNode.

(** The fields of [Expr] that evaluation reads. *)
Record Expr := {
  maxStackSize : Z;
  labNodes : list labNode.t
}.

(** ** engine.go: Expr.Eval *)

(** The loop variables of [Expr.Eval]. *)
Record frame := {
  f_i : Z;
  f_osTop : Z;
  f_os : list Value;
  f_prev : Z
}.

(** The operand stack allocated at entry; [make] with a negative length
    panics. *)
Definition make_os (m size : Z) : option (list Value) :=
  if m <=? 8 then Some (replicate 8 VNil)
  else if m <=? 16 then Some (replicate 16 VNil)
  else if size <? 0 then None
  else Some (replicate (Z.to_nat size) VNil).

(** A leaf read inline by a fast operator: its value, or the selector
    lookup when the leaf is a selector. *)
Definition read_leaf (ctx : Ctx) (child : labNode.t) : call_result :=
  let res := labNode.value child in
  if Z.land (labNode.flag child) nodeTypeMask =? selector then
    match res with
    | VStr name => Get ctx (labNode.selKey child) name
    | _ => Raise TypeAssertion
    end
  else Ret res None.

(** Calling a function value; a nil one panics. *)
Definition call_op (op : option Operator) (ctx : Ctx) (params : list Value)
  : call_result :=
  match op with
  | None => Raise NilFunc
  | Some f => f ctx params
  end.

(** [param = make([]Value, cCnt); copy(param, os[osTop+1:])]. *)
Definition copy_params (os : list Value) (from cCnt : Z) : option (list Value) :=
  if cCnt <? 0 then None
  else if negb ((0 <=? from) && (from <=? Z.of_nat (length os))) then None
  else
    let src := drop (Z.to_nat from) os in
    let n := Z.to_nat cCnt in
    Some (take n src ++ replicate (n - length src)%nat VNil).

(** What the [switch] of one iteration leaves behind: a result to push,
    nothing (the [default] branch, which only prints the stack through
    [printDebugExpr] and continues; the printed text is not part of the
    model), or the end of the evaluation. *)
Inductive dispatched :=
| Produced (res : Value) (i : Z) (osTop : Z)
| Skipped
| Finished (o : outcome).

Definition dispatch (nodes : list labNode.t) (ctx : Ctx) (curt : labNode.t)
    (i osTop : Z) (os : list Value) : dispatched :=
  let ty := Z.land (labNode.flag curt) nodeTypeMask in
  if ty =? fastOperator then
    let i := wrap16 (i + 1) in
    match index nodes i with
    | None => Finished (Panics IndexOutOfRange)
    | Some child =>
      match read_leaf ctx child with
      | Raise p => Finished (Panics p)
      | Ret res (Some err) => Finished (Returns res (Some err))
      | Ret p0 None =>
        let i := wrap16 (i + 1) in
        match index nodes i with
        | None => Finished (Panics IndexOutOfRange)
        | Some child =>
          match read_leaf ctx child with
          | Raise p => Finished (Panics p)
          | Ret res (Some err) => Finished (Returns res (Some err))
          | Ret p1 None =>
            match call_op (labNode.operator curt) ctx [p0; p1] with
            | Raise p => Finished (Panics p)
            | Ret res (Some err) => Finished (Returns res (Some err))
            | Ret res None => Produced res i osTop
            end
          end
        end
      end
    end
  else if ty =? selector then
    match labNode.value curt with
    | VStr name =>
      match Get ctx (labNode.selKey curt) name with
      | Raise p => Finished (Panics p)
      | Ret res (Some err) => Finished (Returns res (Some err))
      | Ret res None => Produced res i osTop
      end
    | _ => Finished (Panics TypeAssertion)
    end
  else if ty =? constant then Produced (labNode.value curt) i osTop
  else if ty =? operator then
    let cCnt := wrap16 (labNode.child curt) in
    let osTop := wrap16 (osTop - cCnt) in
    let param :=
      if cCnt =? 2 then
        match index os (wrap16 (osTop + 1)), index os (wrap16 (osTop + 2)) with
        | Some a, Some b => inr [a; b]
        | _, _ => inl IndexOutOfRange
        end
      else
        if cCnt <? 0 then inl MakeLenOutOfRange
        else match copy_params os (wrap16 (osTop + 1)) cCnt with
             | Some ps => inr ps
             | None => inl SliceBounds
             end in
    match param with
    | inl p => Finished (Panics p)
    | inr ps =>
      match call_op (labNode.operator curt) ctx ps with
      | Raise p => Finished (Panics p)
      | Ret _ (Some err) => Finished (Returns VNil (Some err))
      | Ret res None => Produced res i osTop
      end
    end
  else Skipped.

(** The loop condition of the short-circuit loop. *)
Definition sc_match (b : bool) (curt : labNode.t) : bool :=
  (negb b && (Z.land (labNode.flag curt) scIfFalse =? scIfFalse))
  || (b && (Z.land (labNode.flag curt) scIfTrue =? scIfTrue)).

Inductive sc_result :=
| SCReturn
| SCLand (i osTop : Z)
| SCPanic
| SCOutOfFuel.

(** The inner [for] loop of lines 182-190; [jumps] bounds the number of
    times its condition is tested. *)
Fixpoint sc_loop (jumps : nat) (nodes : list labNode.t) (b : bool)
    (i : Z) (curt : labNode.t) (osTop : Z) : sc_result :=
  match jumps with
  | O => SCOutOfFuel
  | S jumps =>
    if sc_match b curt then
      let i := labNode.scPos curt in
      if i =? -1 then SCReturn
      else match index nodes i with
           | None => SCPanic
           | Some curt => sc_loop jumps nodes b i curt (labNode.osTop curt)
           end
    else SCLand i osTop
  end.

Inductive iter_result :=
| Continue (st : frame)
| Stop (o : outcome).

(** [os[osTop+1], osTop = res, osTop+1] followed by the loop's [i++]. *)
Definition push (res : Value) (i osTop : Z) (os : list Value) (prev : Z)
  : iter_result :=
  let top := wrap16 (osTop + 1) in
  if in_range os top then
    Continue {| f_i := wrap16 (i + 1); f_osTop := top;
                f_os := store os top res; f_prev := prev |}
  else Stop (Panics IndexOutOfRange).

(** Lines 181-193: the short-circuit check and the push. *)
Definition after_step (jumps : nat) (nodes : list labNode.t)
    (curt : labNode.t) (res : Value) (i osTop : Z) (os : list Value)
    (prev : Z) : iter_result :=
  match res with
  | VBool b =>
    match sc_loop jumps nodes b i curt osTop with
    | SCReturn => Stop (Returns res None)
    | SCPanic => Stop (Panics IndexOutOfRange)
    | SCOutOfFuel => Stop OutOfFuel
    | SCLand i osTop => push res i osTop os prev
    end
  | _ => push res i osTop os prev
  end.

(** One pass through the body of the outer [for] loop. *)
Definition eval_iter (jumps : nat) (nodes : list labNode.t) (ctx : Ctx)
    (st : frame) : iter_result :=
  let i := f_i st in
  match index nodes i with
  | None => Stop (Panics IndexOutOfRange)
  | Some curt =>
    match dispatch nodes ctx curt i (f_osTop st) (f_os st) with
    | Finished o => Stop o
    | Skipped =>
      Continue {| f_i := wrap16 (i + 1); f_osTop := f_osTop st;
                  f_os := f_os st; f_prev := i |}
    | Produced res i osTop =>
      after_step jumps nodes curt res i osTop (f_os st) (f_prev st)
    end
  end.

(** [return os[0], nil] once the loop condition fails. *)
Definition eval_exit (os : list Value) : outcome :=
  match index os 0 with
  | Some v => Returns v None
  | None => Panics IndexOutOfRange
  end.

(** The outer loop up to the point where its condition fails; [steps]
    bounds the number of dispatched nodes.  [Continue st] is the frame at
    which [i < size] is false. *)
Fixpoint eval_run (steps jumps : nat) (nodes : list labNode.t) (size : Z)
    (ctx : Ctx) (st : frame) : iter_result :=
  if f_i st <? size then
    match steps with
    | O => Stop OutOfFuel
    | S steps =>
      match eval_iter jumps nodes ctx st with
      | Stop o => Stop o
      | Continue st => eval_run steps jumps nodes size ctx st
      end
    end
  else Continue st.

Definition eval_loop (steps jumps : nat) (nodes : list labNode.t) (size : Z)
    (ctx : Ctx) (st : frame) : outcome :=
  match eval_run steps jumps nodes size ctx st with
  | Continue st => eval_exit (f_os st)
  | Stop o => o
  end.

Definition eval_size (e : Expr) : Z := wrap16 (Z.of_nat (length (labNodes e))).

Definition eval_init (os : list Value) : frame :=
  {| f_i := 0; f_osTop := -1; f_os := os; f_prev := 0 |}.

(** [func (e *Expr) Eval(ctx *Ctx) (res Value, err error)]. *)
Definition Expr_Eval (steps jumps : nat) (e : Expr) (ctx : Ctx) : outcome :=
  let size := eval_size e in
  match make_os (maxStackSize e) size with
  | None => Panics MakeLenOutOfRange
  | Some os => eval_loop steps jumps (labNodes e) size ctx (eval_init os)
  end.

(** [func (e *Expr) EvalBool(ctx *Ctx) (bool, error)], with the returned
    bool as a [Value]. *)
Definition Expr_EvalBool (steps jumps : nat) (e : Expr) (ctx : Ctx) : outcome :=
  match Expr_Eval steps jumps e ctx with
  | Returns _ (Some err) => Returns (VBool false) (Some err)
  | Returns (VBool v) None => Returns (VBool v) None
  | Returns res None => Returns (VBool false) (Some (ErrInvalidResult res))
  | o => o
  end.

(** ** parse.go: tokens *)

Record token := { typ : tokenType; val : gostring; pos : Z }.

(** The zero value [token{}]. *)
Definition token_zero : token := {| typ := noType; val := []; pos := 0 |}.

Definition keywordIf : gostring := gs "if".
Definition keywordLet : gostring := gs "let".
Definition keywordAny : gostring := gs "any".
Definition keywordAll : gostring := gs "all".
Definition keywordMap : gostring := gs "map".
Definition keywordFilter : gostring := gs "filter".
Definition keywordReduce : gostring := gs "reduce".
Definition keywordCollect : gostring := gs "collect".

Definition keywords : list gostring :=
  [keywordIf; keywordLet; keywordAny; keywordAll; keywordMap; keywordFilter;
   keywordReduce; keywordCollect].

Local Set Warnings "-register-all".

(** The tree of [astNode]s; a nil pointer to one is [None] where it can
    occur. *)
Module astNode.
Inductive t := mk {
  node : node.t;
  children : list t;
  cost : Z;
  idx : Z;
  parentIdx : Z
}.
End astNode.

Definition Option := gostring.

(** Modelled from the spec: the declaration of [CompileConfig] is missing
    from the source files; the parser reads its constant map, selector map,
    operator map and the table of compile options. *)
Record CompileConfig := {
  ConstantMap : gmap gostring Value;
  SelectorMap : gmap gostring SelectorKey;
  OperatorMap : gmap gostring Operator;
  CompileOptions : gmap Option bool
}.

(** [idx] and the positions of tokens are Go [int]s; they never exceed the
    length of a slice by more than one, so their wrap-around is out of
    reach and they are kept as plain integers. *)
Record parser := {
  source : gostring;
  conf : CompileConfig;
  tokens : list token;
  idx : Z
}.

Definition newParser (cc : CompileConfig) (source : gostring) : parser :=
  {| source := source; conf := cc; tokens := []; idx := 0 |}.

(** What a parser function does: a value, an error, a panic, or the model
    ran out of fuel. *)
Inductive result (A : Type) :=
| Ok (a : A)
| Err (e : error)
| Panicked (p : panic)
| NoFuel.

Arguments Ok {A} a.
Arguments Err {A} e.
Arguments Panicked {A} p.
Arguments NoFuel {A}.

(** What is declared outside the two files: the predicates of the
    standard package [unicode], the registries of built-in operators and
    constants, the reserved selector key and the name of the option that
    admits unknown selectors. *)
Class Externals := {
  unicode_IsSpace : rune -> bool;
  unicode_IsNumber : rune -> bool;
  unicode_IsLetter : rune -> bool;
  builtinOperators : gmap gostring Operator;
  builtinConstants : gmap gostring Value;
  UndefinedSelKey : SelectorKey;
  AllowUnknownSelectors : Option
}.

(** ** strconv.ParseInt(s, 10, 64) *)

Definition digit_val (r : rune) : option Z :=
  if (48 <=? r) && (r <=? 57) then Some (r - 48) else None.

Fixpoint parse_digits (acc : Z) (s : gostring) : option Z :=
  match s with
  | [] => Some acc
  | r :: s =>
    match digit_val r with
    | Some d => parse_digits (acc * 10 + d) s
    | None => None
    end
  end.

Definition strconv_ParseInt (s : gostring) : option Z :=
  match s with
  | [] => None
  | r :: rest =>
    let '(neg, ds) :=
      if r =? 43 then (false, rest)
      else if r =? 45 then (true, rest)
      else (false, s) in
    match ds with
    | [] => None
    | _ =>
      match parse_digits 0 ds with
      | None => None
      | Some n =>
        if neg then (if n <=? 2 ^ 63 then Some (- n) else None)
        else (if n <=? 2 ^ 63 - 1 then Some n else None)
      end
    end
  end.

(** [strings.IndexRune]: the position of the first occurrence, or [-1]. *)
Fixpoint strings_IndexRune_from (s : gostring) (r : rune) (k : Z) : Z :=
  match s with
  | [] => -1
  | c :: s => if c =? r then k else strings_IndexRune_from s r (k + 1)
  end.

Definition strings_IndexRune (s : gostring) (r : rune) : Z :=
  strings_IndexRune_from s r 0.

(** [A[i:j]] for bounds already known to be in range. *)
Definition slice {A} (l : list A) (i j : Z) : list A :=
  take (Z.to_nat (j - i)) (drop (Z.to_nat i) l).

Definition slen {A} (l : list A) : Z := Z.of_nat (length l).

(** ** parse.go: error positions *)

(** [p.pos(i)]: up to thirty runes on either side of position [i], which
    is bracketed.  The rune slice is taken as filled to its capacity: the
    slice expressions panic when [i] is outside [0..len], the index
    expression when [i = len]. *)
Definition parser_pos (A : gostring) (i : Z) : panic + gostring :=
  if negb ((0 <=? i) && (i <=? slen A)) then inl SliceBounds
  else
    let l := i - 30 in
    let left := if l <? 0 then slice A 0 i else gs "..." ++ slice A l i in
    let r := i + 30 in
    let right :=
      if r >? slen A - 1 then
        (if i >=? slen A - 1 then [] else slice A (i + 1) (slen A))
      else slice A (i + 1) r ++ gs "..." in
    match index A i with
    | None => inl IndexOutOfRange
    | Some c => inr (gs " " ++ left ++ gs "[" ++ [c] ++ gs "]" ++ right)
    end.

(** [p.errWithPos(err, idx)]: the error wrapped with its position. *)
Definition errWithPos {T} (p : parser) (e : error) (i : Z) : result T :=
  match parser_pos (source p) i with
  | inl pn => Panicked pn
  | inr place => Err (ErrOccursAt e place)
  end.

Definition errWithToken {T} (p : parser) (e : error) (t : token) : result T :=
  errWithPos p e (pos t).

Definition invalidExprErr {T} (p : parser) (i : Z) : result T :=
  errWithPos p (ErrNew "invalid expression error") i.

Definition unknownTokenError {T} (p : parser) (t : token) : result T :=
  errWithToken p (ErrNew "unknown token error") t.

Definition tokenTypeError {T} (p : parser) (want : tokenType) (t : token)
  : result T :=
  errWithToken p (ErrTokenType want (typ t)) t.

Definition parenUnmatchedErr {T} (p : parser) (i : Z) : result T :=
  errWithPos p (ErrNew "parentheses unmatched error") i.

Definition paramsCountErr {T} (p : parser) (want got : Z) (t : token)
  : result T :=
  errWithToken p (ErrParamsCount (val t) want got) t.

(** ** parse.go: lex *)

Section Lexer.

Context `{Externals}.

(** A lexer returns the token and the position after it, or the position
    it was given when it does not apply; [None] is an index panic. *)
Definition lexer := list rune -> Z -> option (token * Z).

Definition token_stop (r : rune) : bool :=
  unicode_IsSpace r || (r =? 40) || (r =? 41) || (r =? 59).

Fixpoint scan_token (rest : list rune) : list rune :=
  match rest with
  | [] => []
  | r :: rest => if token_stop r then [] else r :: scan_token rest
  end.

Definition nextToken (A : list rune) (i : Z) : option (gostring * Z) :=
  if (0 <=? i) && (i <=? slen A) then
    let s := scan_token (drop (Z.to_nat i) A) in
    Some (s, i + slen s)
  else None.

Definition lexParen : lexer := fun A i =>
  match index A i with
  | None => None
  | Some r =>
    let idx := strings_IndexRune (gs "()[]") r in
    if negb (idx =? -1) then
      Some ({| typ := if Z.rem idx 2 =? 0 then lParen else rParen;
               val := [r]; pos := 0 |}, i + 1)
    else Some (token_zero, i)
  end.

Definition lexInteger : lexer := fun A i =>
  match nextToken A i with
  | None => None
  | Some (s, j) =>
    match strconv_ParseInt s with
    | Some _ => Some ({| typ := integer; val := s; pos := 0 |}, j)
    | None => Some (token_zero, i)
    end
  end.

(** The position of the first [q] in [rest], which starts at [j]. *)
Fixpoint find_rune (q : rune) (rest : list rune) (j : Z) : option Z :=
  match rest with
  | [] => None
  | r :: rest => if r =? q then Some j else find_rune q rest (j + 1)
  end.

Definition lexStr : lexer := fun A i =>
  match index A i with
  | None => None
  | Some r =>
    if negb (r =? 34) then Some (token_zero, i)
    else
      match find_rune 34 (drop (Z.to_nat (i + 1)) A) (i + 1) with
      | Some j => Some ({| typ := str; val := slice A (i + 1) j; pos := 0 |},
                        j + 1)
      | None => Some (token_zero, i)
      end
  end.

(** The [range] loop of [lexIdent]: [true] when it runs to its end or
    breaks, [false] when it returns the empty token. *)
Fixpoint ident_runes (s : gostring) (rest : list rune) (idx : Z) : bool :=
  match rest with
  | [] => true
  | r :: rest =>
    if unicode_IsNumber r && negb (idx =? 0) then ident_runes s rest (idx + 1)
    else if unicode_IsLetter r then ident_runes s rest (idx + 1)
    else if r =? 95 then ident_runes s rest (idx + 1)
    else match builtinOperators !! s with
         | Some _ => true
         | None => false
         end
  end.

Definition lexIdent : lexer := fun A i =>
  match nextToken A i with
  | None => None
  | Some (s, j) =>
    if ident_runes s s 0 then
      if negb (i =? j) then Some ({| typ := ident; val := s; pos := 0 |}, j)
      else Some (token_zero, i)
    else Some (token_zero, i)
  end.

(** The runes before the first newline. *)
Fixpoint scan_line (rest : list rune) : list rune :=
  match rest with
  | [] => []
  | r :: rest => if r =? 10 then [] else r :: scan_line rest
  end.

Definition lexComment : lexer := fun A i =>
  match index A i with
  | None => None
  | Some r =>
    if negb (r =? 59) then Some (token_zero, i)
    else
      let s := scan_line (drop (Z.to_nat i) A) in
      Some ({| typ := comment; val := s; pos := 0 |}, i + slen s + 1)
  end.

Definition lexers : list lexer :=
  [lexParen; lexInteger; lexStr; lexIdent; lexComment].

Inductive lex_try :=
| Found (t : token) (j : Z)
| NotFound
| LexPanic.

(** The inner loop of [lex]: the first lexer that moves the position. *)
Fixpoint run_lexers (ls : list lexer) (A : list rune) (i : Z) : lex_try :=
  match ls with
  | [] => NotFound
  | l :: ls =>
    match l A i with
    | None => LexPanic
    | Some (t, j) => if negb (i =? j) then Found t j else run_lexers ls A i
    end
  end.

Definition with_pos (t : token) (i : Z) : token :=
  {| typ := typ t; val := val t; pos := i |}.

(** The outer loop of [lex]; every pass consumes at least one rune, so a
    fuel of [len(A)] passes is enough. *)
Fixpoint lex_loop (fuel : nat) (p : parser) (A : list rune) (i : Z)
    (toks : list token) : result (list token) :=
  if i <? slen A then
    match fuel with
    | O => NoFuel
    | S fuel =>
      match index A i with
      | None => Panicked IndexOutOfRange
      | Some r =>
        if unicode_IsSpace r then lex_loop fuel p A (i + 1) toks
        else
          match run_lexers lexers A i with
          | Found t j => lex_loop fuel p A j (toks ++ [with_pos t i])
          | NotFound => errWithPos p (ErrNew "can not parse token") i
          | LexPanic => Panicked IndexOutOfRange
          end
      end
    end
  else Ok toks.

Definition with_tokens (p : parser) (toks : list token) : parser :=
  {| source := source p; conf := conf p; tokens := toks; idx := idx p |}.

(** [func (p *parser) lex() error]: the parser with its tokens set. *)
Definition lex (p : parser) : result parser :=
  match lex_loop (length (source p)) p (source p) 0 [] with
  | Ok toks => Ok (with_tokens p toks)
  | Err e => Err e
  | Panicked pn => Panicked pn
  | NoFuel => NoFuel
  end.

End Lexer.

(** ** parse.go: the parser *)

Section Parser.

Context `{Externals}.

Definition peek (p : parser) : option token := index (tokens p) (idx p).

Definition walk (p : parser) : parser :=
  {| source := source p; conf := conf p; tokens := tokens p;
     idx := idx p + 1 |}.

Definition next (p : parser) : option (token * parser) :=
  match peek p with
  | Some t => Some (t, walk p)
  | None => None
  end.

(** A missing key of a Go map reads as the zero value. *)
Definition allowUnknownSelectors (p : parser) : bool :=
  default false (CompileOptions (conf p) !! AllowUnknownSelectors).

Definition eat (p : parser) (expectTypes : list tokenType) : result parser :=
  match next p with
  | None => Panicked IndexOutOfRange
  | Some (t, p) =>
    match expectTypes with
    | [] => Ok p
    | want :: _ =>
      if existsb (fun e => bool_decide (typ t = e)) expectTypes then Ok p
      else tokenTypeError p want t
    end
  end.

Definition leaf_node (flag : Z) (v : Value) (key : SelectorKey) : astNode.t :=
  astNode.mk (node.mk flag 0 0 0 key v None) [] 0 0 0.

Definition valNode (v : Value) : astNode.t := leaf_node constant v 0.

(** The result of a parsing method: [(ast, err)] with the parser as the
    method leaves it; [None] is a nil [*astNode]. *)
Definition parsed := result (option astNode.t * parser).

Inductive list_scan :=
| ListClosed (j : Z) (strs : list gostring)
| ListOpen (strs : list gostring)
| ListBad (t : token).

(** The [for] loop of [parseList] over [T[j:]]. *)
Fixpoint scan_list (ty : tokenType) (rest : list token) (j : Z)
    (strs : list gostring) : list_scan :=
  match rest with
  | [] => ListOpen strs
  | t :: rest =>
    if bool_decide (typ t = rParen) then ListClosed j strs
    else if negb (bool_decide (typ t = ty)) then ListBad t
    else scan_list ty rest (j + 1) (strs ++ [val t])
  end.

Fixpoint parse_ints (strs : list gostring) : gostring + list Z :=
  match strs with
  | [] => inr []
  | s :: strs =>
    match strconv_ParseInt s with
    | None => inl s
    | Some v =>
      match parse_ints strs with
      | inl bad => inl bad
      | inr vs => inr (v :: vs)
      end
    end
  end.

Definition with_idx (p : parser) (i : Z) : parser :=
  {| source := source p; conf := conf p; tokens := tokens p; idx := i |}.

Definition parseList (p : parser) : parsed :=
  let i := idx p in
  let T := tokens p in
  match index T i with
  | None => Panicked IndexOutOfRange
  | Some t0 =>
    if negb (bool_decide (typ t0 = lParen)) then Ok (None, p)
    else
      match index T (i + 1) with
      | None => Panicked IndexOutOfRange
      | Some t1 =>
        let ty := typ t1 in
        if negb (bool_decide (ty = rParen)) && negb (bool_decide (ty = integer))
           && negb (bool_decide (ty = str))
        then Ok (None, p)
        else
          match scan_list ty (drop (Z.to_nat (i + 1)) T) (i + 1) [] with
          | ListBad t => tokenTypeError p ty t
          | scanned =>
            let '(i, strs) :=
              match scanned with
              | ListClosed j strs => (j, strs)
              | ListOpen strs => (i, strs)
              | ListBad _ => (i, [])
              end in
            if bool_decide (ty = integer) then
              match parse_ints strs with
              | inl bad => Err (ErrParseInt bad)
              | inr ints =>
                Ok (Some (leaf_node constant (VInts ints) 0), with_idx p (i + 1))
              end
            else
              Ok (Some (leaf_node constant (VStrs strs) 0), with_idx p (i + 1))
          end
      end
  end.

Definition parseInt (p : parser) : parsed :=
  match peek p with
  | None => Panicked IndexOutOfRange
  | Some t =>
    if negb (bool_decide (typ t = integer)) then Ok (None, p)
    else
      match strconv_ParseInt (val t) with
      | None => Err (ErrParseInt (val t))
      | Some v => Ok (Some (valNode (VInt v)), walk p)
      end
  end.

Definition parseStr (p : parser) : parsed :=
  match peek p with
  | None => Panicked IndexOutOfRange
  | Some t =>
    if negb (bool_decide (typ t = str)) then Ok (None, p)
    else Ok (Some (valNode (VStr (val t))), walk p)
  end.

Definition parseConst (p : parser) : parsed :=
  match peek p with
  | None => Panicked IndexOutOfRange
  | Some t =>
    if negb (bool_decide (typ t = ident)) then Ok (None, p)
    else
      match builtinConstants !! val t with
      | Some v => Ok (Some (valNode v), walk p)
      | None =>
        match ConstantMap (conf p) !! val t with
        | Some v => Ok (Some (valNode v), walk p)
        | None => Ok (None, p)
        end
      end
  end.

Definition parseSelector (p : parser) : parsed :=
  match peek p with
  | None => Panicked IndexOutOfRange
  | Some t =>
    if negb (bool_decide (typ t = ident)) then Ok (None, p)
    else
      let found :=
        match SelectorMap (conf p) !! val t with
        | Some key => Some key
        | None =>
          if allowUnknownSelectors p then Some UndefinedSelKey else None
        end in
      match found with
      | None => Ok (None, p)
      | Some key => Ok (Some (leaf_node selector (VStr (val t)) key), walk p)
      end
  end.

(** The loop of [parseSingleNode] over its list of methods. *)
Fixpoint first_node (fns : list (parser -> parsed)) (p : parser) : parsed :=
  match fns with
  | [] => Ok (None, p)
  | fn :: fns =>
    match fn p with
    | Ok (None, p) => first_node fns p
    | r => r
    end
  end.

Definition parseSingleNode (p : parser) : parsed :=
  first_node [parseInt; parseStr; parseConst; parseSelector; parseList] p.

Definition isKeyword (car : token) : bool :=
  existsb (fun kw => bool_decide (val car = kw)) keywords.

(** The operator of the [if] node: the negated condition. *)
Definition if_operator : Operator := fun _ params =>
  match params with
  | [] => Raise IndexOutOfRange
  | VBool b :: _ => Ret (VBool (negb b)) None
  | v :: _ => Ret VNil (Some (ErrCondNonBool v))
  end.

(** The operator of the closing [fi] node. *)
Definition fi_operator : Operator := fun _ _ => Ret (VBool true) None.

Definition fi_node : astNode.t :=
  astNode.mk (node.mk cond 0 0 0 0 (VStr (gs "fi")) (Some fi_operator))
    [] 0 0 0.

Definition buildKeywordNode (p : parser) (car : token)
    (children : list astNode.t) : result astNode.t :=
  if negb (bool_decide (val car = keywordIf)) then
    errWithToken p (ErrNotSupported (val car)) car
  else if negb (slen children =? 3) then
    paramsCountErr p 3 (slen children) car
  else
    Ok (astNode.mk
          (node.mk cond 0 0 0 0 (VKeyword keywordIf) (Some if_operator))
          (children ++ [fi_node]) 0 0 0).

Definition buildNode (p : parser) (car : token) (children : list astNode.t)
  : result astNode.t :=
  if isKeyword car then buildKeywordNode p car children
  else
    let found :=
      match builtinOperators !! val car with
      | Some op => Some op
      | None => OperatorMap (conf p) !! val car
      end in
    match found with
    | None => unknownTokenError p car
    | Some op =>
      Ok (astNode.mk (node.mk operator 0 0 0 0 (VStr (val car)) (Some op))
            children 0 0 0)
    end.

(** [parseExpression] and its loop over the children of a compound form;
    [fuel] bounds the depth of the calls. *)
Fixpoint parseExpression (fuel : nat) (p : parser)
  : result (astNode.t * parser) :=
  match fuel with
  | O => NoFuel
  | S fuel =>
    match parseSingleNode p with
    | Ok (Some ast, p) => Ok (ast, p)
    | Err e => Err e
    | Panicked pn => Panicked pn
    | NoFuel => NoFuel
    | Ok (None, p) =>
      match peek p with
      | None => Panicked IndexOutOfRange
      | Some t =>
        if bool_decide (typ t = ident) then unknownTokenError p t
        else
          match eat p [lParen] with
          | Err e => Err e
          | Panicked pn => Panicked pn
          | NoFuel => NoFuel
          | Ok p =>
            match next p with
            | None => Panicked IndexOutOfRange
            | Some (car, p) =>
              if negb (bool_decide (typ car = ident))
              then tokenTypeError p ident car
              else
                match parseChildren fuel p [] with
                | Err e => Err e
                | Panicked pn => Panicked pn
                | NoFuel => NoFuel
                | Ok (children, p) =>
                  let p := walk p in
                  match buildNode p car children with
                  | Ok ast => Ok (ast, p)
                  | Err e => Err e
                  | Panicked pn => Panicked pn
                  | NoFuel => NoFuel
                  end
                end
            end
          end
      end
    end
  end
with parseChildren (fuel : nat) (p : parser) (children : list astNode.t)
  : result (list astNode.t * parser) :=
  match fuel with
  | O => NoFuel
  | S fuel =>
    match peek p with
    | None => Panicked IndexOutOfRange
    | Some t =>
      if bool_decide (typ t = rParen) then Ok (children, p)
      else
        match parseExpression fuel p with
        | Err e => Err e
        | Panicked pn => Panicked pn
        | NoFuel => NoFuel
        | Ok (child, p) => parseChildren fuel p (children ++ [child])
        end
    end
  end.

(** The loop of [checkParentheses]: the token at which the count goes
    wrong, if any. *)
Fixpoint paren_scan (rest : list token) (i last parenCnt : Z)
  : option token :=
  match rest with
  | [] => None
  | t :: rest =>
    let parenCnt :=
      match typ t with
      | lParen => parenCnt + 1
      | rParen => parenCnt - 1
      | _ => parenCnt
      end in
    if (parenCnt <? 0) || ((parenCnt =? 0) && negb (i =? last))
    then Some t
    else paren_scan rest (i + 1) last parenCnt
  end.

Definition checkParentheses (p : parser) : result unit :=
  let last := slen (tokens p) - 1 in
  match index (tokens p) 0 with
  | None => Panicked IndexOutOfRange
  | Some first =>
    if negb (bool_decide (typ first = lParen)) then parenUnmatchedErr p 0
    else
      match index (tokens p) last with
      | None => Panicked IndexOutOfRange
      | Some final =>
        if negb (bool_decide (typ final = rParen)) then parenUnmatchedErr p 0
        else
          match paren_scan (tokens p) 0 last 0 with
          | Some t => parenUnmatchedErr p (pos t)
          | None => Ok tt
          end
      end
  end.

Definition not_comment (t : token) : bool :=
  negb (bool_decide (typ t = comment)).

Definition parseAstTree (fuel : nat) (p : parser)
  : result (astNode.t * parser) :=
  let toks := List.filter not_comment (tokens p) in
  let n := slen toks in
  let p := with_tokens p toks in
  match checkParentheses p with
  | Err e => Err e
  | Panicked pn => Panicked pn
  | NoFuel => NoFuel
  | Ok _ =>
    match parseExpression fuel p with
    | Ok (root, p) =>
      if negb (idx p =? n) then invalidExprErr p (idx p) else Ok (root, p)
    | r => r
    end
  end.

End Parser.

(** ** parse.go: parseConfig and parse *)

(** [strings.Split] for a separator of one rune. *)
Fixpoint split_rune (sep : rune) (s cur : gostring) : list gostring :=
  match s with
  | [] => [cur]
  | r :: s =>
    if r =? sep then cur :: split_rune sep s []
    else split_rune sep s (cur ++ [r])
  end.

Definition strings_Split (s : gostring) (sep : rune) : list gostring :=
  split_rune sep s [].

(** [strings.HasPrefix] and [strings.TrimPrefix] in one: the rest of [s]
    after [pre], when [s] starts with it. *)
Fixpoint strip_prefix (pre s : gostring) : option gostring :=
  match pre, s with
  | [], _ => Some s
  | _ :: _, [] => None
  | a :: pre, b :: s => if a =? b then strip_prefix pre s else None
  end.

(** [strconv.ParseBool]. *)
Definition strconv_ParseBool (s : gostring) : option bool :=
  if existsb (fun l => bool_decide (s = gs l))
       ["1"; "t"; "T"; "TRUE"; "true"; "True"]%string
  then Some true
  else if existsb (fun l => bool_decide (s = gs l))
            ["0"; "f"; "F"; "FALSE"; "false"; "False"]%string
  then Some false
  else None.

(** Modelled from the spec: the option names and the helpers that
    [parseConfig] uses are declared outside the two files.  The options are
    [optimize] (all optimizations), [reordering], [fast_evaluation] and
    [constant_folding]; [CopyCompileConfig] copies a configuration. *)
Class ConfigExternals := {
  Optimize : Option;
  Reordering : Option;
  FastEvaluation : Option;
  ConstantFolding : Option;
  AllOptimizations : list Option;
  CopyCompileConfig : CompileConfig -> CompileConfig
}.

Section Config.

Context `{Externals} `{ConfigExternals}.

Fixpoint trim_left (s : gostring) : gostring :=
  match s with
  | [] => []
  | r :: rest => if unicode_IsSpace r then trim_left rest else s
  end.

Definition strings_TrimSpace (s : gostring) : gostring :=
  rev (trim_left (rev (trim_left s))).

Definition set_option (cc : CompileConfig) (opt : Option) (enabled : bool)
  : CompileConfig :=
  {| ConstantMap := ConstantMap cc; SelectorMap := SelectorMap cc;
     OperatorMap := OperatorMap cc;
     CompileOptions := <[opt := enabled]> (CompileOptions cc) |}.

(** The loop over the fragments of one directive. *)
Fixpoint config_fragments (p : parser) (t : token) (frags : list gostring)
    (confCopy : CompileConfig) : result CompileConfig :=
  match frags with
  | [] => Ok confCopy
  | s :: frags =>
    match strings_Split s 58 with
    | [name; flag] =>
      let name := strings_TrimSpace name in
      let flag := strings_TrimSpace flag in
      match strconv_ParseBool flag with
      | None => errWithToken p (ErrInvalidConfigValue s) t
      | Some enabled =>
        if bool_decide (name = Optimize) then
          config_fragments p t frags
            (fold_left (fun cc opt => set_option cc opt enabled)
               AllOptimizations confCopy)
        else if bool_decide (name = Reordering)
                || bool_decide (name = FastEvaluation)
                || bool_decide (name = ConstantFolding) then
          config_fragments p t frags (set_option confCopy name enabled)
        else errWithToken p (ErrUnsupportedConfig s) t
      end
    | _ => errWithToken p (ErrInvalidCompileFormat s) t
    end
  end.

(** The loop over the leading comment tokens. *)
Fixpoint config_tokens (p : parser) (toks : list token)
    (confCopy : CompileConfig) : result CompileConfig :=
  match toks with
  | [] => Ok confCopy
  | t :: toks =>
    if negb (bool_decide (typ t = comment)) then Ok confCopy
    else
      let cmt := strings_TrimSpace (val t) in
      match strip_prefix (gs ";;;;") cmt with
      | None => config_tokens p toks confCopy
      | Some cmt =>
        match config_fragments p t (strings_Split cmt 44) confCopy with
        | Ok confCopy => config_tokens p toks confCopy
        | r => r
        end
      end
  end.

Definition parseConfig (p : parser) : result parser :=
  match config_tokens p (tokens p) (CopyCompileConfig (conf p)) with
  | Ok confCopy =>
    Ok {| source := source p; conf := confCopy; tokens := tokens p;
          idx := idx p |}
  | Err e => Err e
  | Panicked pn => Panicked pn
  | NoFuel => NoFuel
  end.

(** The method [parse]: the tree and the configuration, or an error. *)
Definition parse (fuel : nat) (p : parser)
  : result (astNode.t * CompileConfig) :=
  match lex p with
  | Err e => Err e
  | Panicked pn => Panicked pn
  | NoFuel => NoFuel
  | Ok p =>
    match parseConfig p with
    | Err e => Err e
    | Panicked pn => Panicked pn
    | NoFuel => NoFuel
    | Ok p =>
      match parseAstTree fuel p with
      | Ok (ast, p) => Ok (ast, conf p)
      | Err e => Err e
      | Panicked pn => Panicked pn
      | NoFuel => NoFuel
      end
    end
  end.

End Config.

(** ** engine.go: the package-level Eval *)

Section PackageEval.

(** [Compile], [NewCompileConfig], [RegisterSelKeys] and [NewCtxWithMap]
    are declared outside the two files and are parameters here; [Compile]
    is the specification's [compile(config, source) -> Program | error]. *)
Variable CompileOption : Type.
Variable RegisterSelKeys : gmap gostring Value -> CompileOption.
Variable NewCompileConfig : list CompileOption -> CompileConfig.
Variable Compile : CompileConfig -> gostring -> Expr + error.
Variable NewCtxWithMap : CompileConfig -> gmap gostring Value -> Ctx.

Definition Eval (steps jumps : nat) (expr : gostring)
    (vals : gmap gostring Value) (confs : list CompileConfig) : outcome :=
  if slen confs >? 1 then
    Returns VNil (Some (ErrNew "error: too many compile configurations"))
  else
    let conf :=
      if slen confs =? 1 then index confs 0
      else Some (NewCompileConfig [RegisterSelKeys vals]) in
    match conf with
    | None => Panics IndexOutOfRange
    | Some conf =>
      match Compile conf expr with
      | inr err => Returns VNil (Some err)
      | inl tree => Expr_Eval steps jumps tree (NewCtxWithMap conf vals)
      end
    end.

End PackageEval.

(** * Sample instances *)

(** The predicates of package [unicode] on the ASCII range (and the
    white space of Latin-1); outside that range the letter and number
    tables are not reproduced. *)
Definition ascii_IsSpace (r : rune) : bool :=
  existsb (Z.eqb r) [9; 10; 11; 12; 13; 32; 133; 160].

Definition ascii_IsNumber (r : rune) : bool := (48 <=? r) && (r <=? 57).

Definition ascii_IsLetter (r : rune) : bool :=
  ((65 <=? r) && (r <=? 90)) || ((97 <=? r) && (r <=? 122)).

Definition sample_lt : Operator := fun _ params =>
  match params with
  | [VInt a; VInt b] => Ret (VBool (a <? b)) None
  | _ => Ret VNil (Some (ErrNew "type mismatch"))
  end.

Definition sample_and : Operator := fun _ params =>
  Ret (VBool (forallb (fun v => match v with VBool true => true | _ => false end)
                params)) None.

Definition sample_externals : Externals := {|
  unicode_IsSpace := ascii_IsSpace;
  unicode_IsNumber := ascii_IsNumber;
  unicode_IsLetter := ascii_IsLetter;
  builtinOperators := {[ gs "<" := sample_lt; gs "and" := sample_and ]};
  builtinConstants := {[ gs "true" := VBool true; gs "false" := VBool false ]};
  UndefinedSelKey := -1;
  AllowUnknownSelectors := gs "allow_unknown_selectors"
|}.

Definition sample_config_externals : ConfigExternals := {|
  Optimize := gs "optimize";
  Reordering := gs "reordering";
  FastEvaluation := gs "fast_evaluation";
  ConstantFolding := gs "constant_folding";
  AllOptimizations :=
    [gs "reordering"; gs "fast_evaluation"; gs "constant_folding"];
  CopyCompileConfig := fun cc => cc
|}.

Definition sample_conf : CompileConfig := {|
  ConstantMap := {[ gs "limit" := VInt 18 ]};
  SelectorMap := {[ gs "age" := 1; gs "limit" := 2; gs "true" := 3 ]};
  OperatorMap := ∅;
  CompileOptions := ∅
|}.

Definition sample_ctx : Ctx := {|
  Get := fun key _ =>
    if key =? 1 then Ret (VInt 25) None
    else Ret VNil (Some (ErrNew "unknown selector"));
  Ctx_ := {| ctx_err := None |}
|}.

(** A context whose [context.Context] has been cancelled. *)
Definition cancelled : context_Context :=
  {| ctx_err := Some (ErrNew "context canceled") |}.

(** Two constants in a row: [1], [2]. *)
Definition two_constants : Expr := {|
  maxStackSize := 2;
  labNodes :=
    [labNode.mk constant 0 (-1) (-1) 0 (VInt 1) None;
     labNode.mk constant 0 (-1) 0 0 (VInt 2) None]
|}.

(** The program of [(< age 18)]. *)
Definition minor_program : Expr := {|
  maxStackSize := 2;
  labNodes :=
    [labNode.mk selector 0 (-1) (-1) 1 (VStr (gs "age")) None;
     labNode.mk constant 0 (-1) 0 0 (VInt 18) None;
     labNode.mk operator 2 (-1) 1 0 (VStr (gs "<")) (Some sample_lt)]
|}.

(** The program of [(and false true)]: the first operand short-circuits
    on false to the [and] node, which short-circuits on false to the
    end. *)
Definition and_first : labNode.t :=
  labNode.mk (constant + scIfFalse) 0 2 (-1) 0 (VBool false) None.

Definition and_last : labNode.t :=
  labNode.mk (operator + scIfFalse) 2 (-1) (-1) 0 (VStr (gs "and"))
    (Some sample_and).

Definition and_program : Expr := {|
  maxStackSize := 2;
  labNodes :=
    [and_first; labNode.mk constant 0 (-1) 0 0 (VBool true) None; and_last]
|}.

Definition ident_token (name : string) (at_ : Z) : token :=
  {| typ := ident; val := gs name; pos := at_ |}.

Definition paren_token (open : bool) (at_ : Z) : token :=
  {| typ := if open then lParen else rParen;
     val := if open then gs "(" else gs ")"; pos := at_ |}.

(** * Properties of the evaluator *)

Section EvalFacts.

Context (nodes : list labNode.t) (size : Z) (ctx : Ctx).

Lemma index_Some {A} (l : list A) (i : Z) (x : A) :
  index l i = Some x -> 0 <= i < Z.of_nat (length l) /\ l !! Z.to_nat i = Some x.
Proof.
  unfold index. destruct (Z.leb_spec 0 i) as [Hi|Hi]; [|discriminate].
  intros Hx. split; [|exact Hx].
  apply lookup_lt_Some in Hx. lia.
Qed.

Lemma wrap16_range (z : Z) : is_int16 (wrap16 z).
Proof.
  unfold is_int16, wrap16.
  pose proof (Z.mod_pos_bound (z + 32768) 65536 ltac:(lia)). lia.
Qed.

Lemma wrap16_id (z : Z) : is_int16 z -> wrap16 z = z.
Proof.
  unfold is_int16, wrap16. intros Hz.
  rewrite Z.mod_small by lia. lia.
Qed.

(** ** The short-circuit chain *)

(** Where following the short-circuit targets ends. *)
Inductive sc_end :=
| EndReturn
| EndAt (i osTop : Z).

(** The jump rule in the words of the specification: while the flag of
    the current node matches the boolean result, go to its [sc_target] and
    take that node's [os_top_at_entry]; the target [-1] ends evaluation. *)
Inductive sc_follow (b : bool) : Z -> labNode.t -> Z -> sc_end -> Prop :=
| sc_follow_stay i curt osTop :
    sc_match b curt = false ->
    sc_follow b i curt osTop (EndAt i osTop)
| sc_follow_exit i curt osTop :
    sc_match b curt = true ->
    labNode.scPos curt = -1 ->
    sc_follow b i curt osTop EndReturn
| sc_follow_jump i curt osTop tgt e :
    sc_match b curt = true ->
    labNode.scPos curt <> -1 ->
    index nodes (labNode.scPos curt) = Some tgt ->
    sc_follow b (labNode.scPos curt) tgt (labNode.osTop tgt) e ->
    sc_follow b i curt osTop e.

Definition sc_result_of (e : sc_end) : sc_result :=
  match e with
  | EndReturn => SCReturn
  | EndAt i osTop => SCLand i osTop
  end.

Lemma sc_loop_follow b i curt osTop e :
  sc_follow b i curt osTop e ->
  exists n, forall jumps, (n <= jumps)%nat ->
    sc_loop jumps nodes b i curt osTop = sc_result_of e.
Proof.
  induction 1 as [i curt osTop Hm|i curt osTop Hm Hs
                 |i curt osTop tgt e Hm Hs Ht _ [n IH]].
  - exists 1%nat. intros [|j] Hj; [lia|]. simpl. now rewrite Hm.
  - exists 1%nat. intros [|j] Hj; [lia|]. simpl. rewrite Hm, Hs. reflexivity.
  - exists (S n). intros [|j] Hj; [lia|]. simpl. rewrite Hm.
    destruct (Z.eqb_spec (labNode.scPos curt) (-1)) as [|_]; [contradiction|].
    rewrite Ht. apply IH. lia.
Qed.

(** Conversely, an inner loop that ends has followed the chain. *)
Lemma sc_loop_sound jumps b i curt osTop e :
  sc_loop jumps nodes b i curt osTop = sc_result_of e ->
  sc_follow b i curt osTop e.
Proof.
  revert i curt osTop.
  induction jumps as [|jumps IH]; intros i curt osTop; simpl.
  - destruct e; discriminate.
  - destruct (sc_match b curt) eqn:Hm.
    + destruct (Z.eqb_spec (labNode.scPos curt) (-1)) as [Hs|Hs].
      * destruct e; [|discriminate]. intros _. now apply sc_follow_exit.
      * destruct (index nodes (labNode.scPos curt)) as [tgt|] eqn:Ht;
          [|destruct e; discriminate].
        intros Hl. eapply sc_follow_jump; eauto.
    + destruct e as [|j t]; [discriminate|].
      intros [= <- <-]. now apply sc_follow_stay.
Qed.

Lemma sc_loop_jump jumps b i curt osTop tgt :
  sc_match b curt = true ->
  labNode.scPos curt <> -1 ->
  index nodes (labNode.scPos curt) = Some tgt ->
  sc_loop (S jumps) nodes b i curt osTop =
  sc_loop jumps nodes b (labNode.scPos curt) tgt (labNode.osTop tgt).
Proof.
  intros Hm Hs Ht. simpl. rewrite Hm.
  destruct (Z.eqb_spec (labNode.scPos curt) (-1)) as [|_]; [contradiction|].
  now rewrite Ht.
Qed.

Lemma eval_run_iter steps jumps st :
  f_i st < size ->
  eval_run (S steps) jumps nodes size ctx st =
  match eval_iter jumps nodes ctx st with
  | Stop o => Stop o
  | Continue st' => eval_run steps jumps nodes size ctx st'
  end.
Proof.
  intros Hi. simpl. destruct (Z.ltb_spec (f_i st) size); [reflexivity|lia].
Qed.

Lemma eval_loop_iter steps jumps st :
  f_i st < size ->
  eval_loop (S steps) jumps nodes size ctx st =
  match eval_iter jumps nodes ctx st with
  | Stop o => o
  | Continue st' => eval_loop steps jumps nodes size ctx st'
  end.
Proof.
  intros Hi. unfold eval_loop. rewrite eval_run_iter by assumption.
  destruct (eval_iter jumps nodes ctx st); reflexivity.
Qed.

(** What the evaluator does once the chain has been followed to its end. *)
Definition resume (steps jumps : nat) (res : Value) (os : list Value)
    (prev : Z) (e : sc_end) : outcome :=
  match e with
  | EndReturn => Returns res None
  | EndAt j t =>
    match push res j t os prev with
    | Continue st' => eval_loop steps jumps nodes size ctx st'
    | Stop o => o
    end
  end.

(** C1.  After a node has produced a boolean whose short-circuit flag is
    set, the evaluator takes the jump: with target [-1] it returns the
    result at once; otherwise the index becomes the node's target, the
    stack top becomes the target's entry depth and the same check is made
    again on the target node with the same result; a chain of such jumps
    is followed to its end before the result is pushed. *)
Theorem eval_follows_short_circuit (st : frame) (curt : labNode.t)
    (b : bool) (i osTop : Z) :
  f_i st < size ->
  index nodes (f_i st) = Some curt ->
  dispatch nodes ctx curt (f_i st) (f_osTop st) (f_os st)
    = Produced (VBool b) i osTop ->
  sc_match b curt = true ->
  (labNode.scPos curt = -1 ->
     forall steps jumps,
       eval_loop (S steps) (S jumps) nodes size ctx st
       = Returns (VBool b) None)
  /\ (forall tgt, labNode.scPos curt <> -1 ->
        index nodes (labNode.scPos curt) = Some tgt ->
        forall jumps,
          after_step (S jumps) nodes curt (VBool b) i osTop
            (f_os st) (f_prev st)
          = after_step jumps nodes tgt (VBool b) (labNode.scPos curt)
              (labNode.osTop tgt) (f_os st) (f_prev st))
  /\ (forall e, sc_follow b i curt osTop e ->
        exists n, forall steps jumps, (n <= jumps)%nat ->
          eval_loop (S steps) jumps nodes size ctx st
          = resume steps jumps (VBool b) (f_os st) (f_prev st) e).
Proof.
  intros Hi Hc Hd Hm. split; [|split].
  - intros Hs steps jumps. rewrite eval_loop_iter by assumption.
    unfold eval_iter. rewrite Hc, Hd. unfold after_step. simpl.
    rewrite Hm, Hs. reflexivity.
  - intros tgt Hs Ht jumps. unfold after_step.
    now rewrite (sc_loop_jump jumps b i curt osTop tgt).
  - intros e He. destruct (sc_loop_follow _ _ _ _ _ He) as [n Hn].
    exists n. intros steps jumps Hj.
    rewrite eval_loop_iter by assumption.
    unfold eval_iter. rewrite Hc, Hd. unfold after_step.
    rewrite (Hn jumps Hj). destruct e as [|j t]; simpl; [reflexivity|].
    destruct (push (VBool b) j t (f_os st) (f_prev st)); reflexivity.
Qed.

End EvalFacts.

(** ** Running off the end *)

Section EvalExit.

Context (nodes : list labNode.t) (size : Z) (ctx : Ctx).

Lemma push_length res i osTop os prev st :
  push res i osTop os prev = Continue st -> length (f_os st) = length os.
Proof.
  unfold push. destruct (in_range os (wrap16 (osTop + 1))); [|discriminate].
  intros [= <-]. simpl. unfold store. apply length_insert.
Qed.

Lemma eval_iter_length jumps st st' :
  eval_iter jumps nodes ctx st = Continue st' ->
  length (f_os st') = length (f_os st).
Proof.
  unfold eval_iter. destruct (index nodes (f_i st)) as [curt|]; [|discriminate].
  destruct (dispatch nodes ctx curt (f_i st) (f_osTop st) (f_os st))
    as [res i osTop| |o]; [| |discriminate].
  - unfold after_step.
    destruct res as [| | |b| | |]; try apply push_length.
    destruct (sc_loop jumps nodes b i curt osTop); try discriminate.
    apply push_length.
  - intros [= <-]. reflexivity.
Qed.

Lemma eval_run_length steps jumps st st' :
  eval_run steps jumps nodes size ctx st = Continue st' ->
  length (f_os st') = length (f_os st) /\ size <= f_i st'.
Proof.
  revert st. induction steps as [|steps IH]; intros st; simpl;
    destruct (Z.ltb_spec (f_i st) size) as [Hlt|Hge];
    try discriminate; try (intros [= <-]; split; [reflexivity|lia]).
  destruct (eval_iter jumps nodes ctx st) as [st1|o] eqn:Hit; [|discriminate].
  intros Hrun. apply IH in Hrun as [Hlen Hsz].
  apply eval_iter_length in Hit. split; [congruence|assumption].
Qed.

End EvalExit.

Lemma make_os_length m size os :
  make_os m size = Some os ->
  (m <= 16 \/ 1 <= size) ->
  (0 < length os)%nat.
Proof.
  unfold make_os.
  destruct (Z.leb_spec m 8); [intros [= <-]; simpl; lia|].
  destruct (Z.leb_spec m 16); [intros [= <-]; simpl; lia|].
  destruct (Z.ltb_spec size 0); [discriminate|].
  intros [= <-] [Hm|Hs]; [lia|]. rewrite length_replicate. lia.
Qed.

(** C2, as the code has it.  When the loop runs off the end of the
    program at some frame, whatever its stack top, [Eval] reads position 0
    of the operand stack and makes no other check.  The stack has that
    position as soon as [maxStackSize <= 16] or the length of the program,
    narrowed to int16, is at least 1: [Eval] then returns the value there
    with a nil error.  Otherwise ([maxStackSize > 16] and a narrowed length
    of 0: the empty program, or one whose length is a multiple of 65536)
    the stack is empty and the read panics with an index out of range. *)
Theorem eval_returns_bottom_of_stack (steps jumps : nat) (e : Expr)
    (ctx : Ctx) (os : list Value) (st : frame) :
  make_os (maxStackSize e) (eval_size e) = Some os ->
  eval_run steps jumps (labNodes e) (eval_size e) ctx (eval_init os)
    = Continue st ->
  eval_size e <= f_i st
  /\ (maxStackSize e <= 16 \/ 1 <= eval_size e ->
      exists v, f_os st !! 0%nat = Some v
                /\ Expr_Eval steps jumps e ctx = Returns v None)
  /\ (16 < maxStackSize e -> eval_size e < 1 ->
      eval_size e = 0 /\ f_os st = []
      /\ Expr_Eval steps jumps e ctx = Panics IndexOutOfRange).
Proof.
  intros Hos Hrun.
  destruct (eval_run_length _ _ _ _ _ _ _ Hrun) as [Hlen Hsz].
  simpl in Hlen.
  assert (Hev : Expr_Eval steps jumps e ctx = eval_exit (f_os st)).
  { unfold Expr_Eval. rewrite Hos. unfold eval_loop. now rewrite Hrun. }
  split; [assumption|split].
  - intros Hm. pose proof (make_os_length _ _ _ Hos Hm) as Hpos.
    destruct (f_os st) as [|v vs] eqn:Hst; [simpl in Hlen; lia|].
    exists v. split; [reflexivity|]. rewrite Hev. reflexivity.
  - intros Hm Hs. unfold make_os in Hos.
    destruct (Z.leb_spec (maxStackSize e) 8); [lia|].
    destruct (Z.leb_spec (maxStackSize e) 16); [lia|].
    destruct (Z.ltb_spec (eval_size e) 0); [discriminate|].
    assert (Hz : eval_size e = 0) by lia.
    injection Hos as <-. rewrite Hz in Hlen. simpl in Hlen.
    destruct (f_os st) as [|v vs] eqn:Hst; [|simpl in Hlen; lia].
    split; [assumption|split; [reflexivity|]]. rewrite Hev. reflexivity.
Qed.

(** ** The cancellation handle *)

(** The same context with another [context.Context]. *)
Definition with_context (ctx : Ctx) (c : context_Context) : Ctx :=
  {| Get := Get ctx; Ctx_ := c |}.

(** The operators of a program do the same under both contexts. *)
Definition ops_agree (nodes : list labNode.t) (ctx1 ctx2 : Ctx) : Prop :=
  forall n op, n ∈ nodes -> labNode.operator n = Some op ->
    forall ps, op ctx1 ps = op ctx2 ps.

Section SameSelector.

Context (nodes : list labNode.t) (size : Z) (ctx1 ctx2 : Ctx).
Hypothesis Hget : forall k s, Get ctx1 k s = Get ctx2 k s.
Hypothesis Hops : ops_agree nodes ctx1 ctx2.

Lemma read_leaf_same child : read_leaf ctx1 child = read_leaf ctx2 child.
Proof.
  unfold read_leaf.
  destruct (Z.land (labNode.flag child) nodeTypeMask =? selector);
    [|reflexivity].
  destruct (labNode.value child); try reflexivity. now rewrite Hget.
Qed.

Lemma call_op_same curt ps :
  curt ∈ nodes ->
  call_op (labNode.operator curt) ctx1 ps
  = call_op (labNode.operator curt) ctx2 ps.
Proof.
  intros Hin. unfold call_op.
  destruct (labNode.operator curt) as [op|] eqn:Hop; [|reflexivity].
  now rewrite (Hops curt op Hin Hop ps).
Qed.

Lemma dispatch_same curt i osTop os :
  curt ∈ nodes ->
  dispatch nodes ctx1 curt i osTop os = dispatch nodes ctx2 curt i osTop os.
Proof.
  intros Hin. unfold dispatch.
  destruct (Z.land (labNode.flag curt) nodeTypeMask =? fastOperator).
  { destruct (index nodes (wrap16 (i + 1))) as [c1|]; [|reflexivity].
    rewrite (read_leaf_same c1).
    destruct (read_leaf ctx2 c1) as [r1 [e1|]|p1]; try reflexivity.
    destruct (index nodes (wrap16 (wrap16 (i + 1) + 1))) as [c2|];
      [|reflexivity].
    rewrite (read_leaf_same c2).
    destruct (read_leaf ctx2 c2) as [r2 [e2|]|p2]; try reflexivity.
    now rewrite (call_op_same curt) by assumption. }
  destruct (Z.land (labNode.flag curt) nodeTypeMask =? selector).
  { destruct (labNode.value curt); try reflexivity. now rewrite Hget. }
  destruct (Z.land (labNode.flag curt) nodeTypeMask =? constant);
    [reflexivity|].
  destruct (Z.land (labNode.flag curt) nodeTypeMask =? operator);
    [|reflexivity].
  match goal with
  | |- match ?x with _ => _ end = _ => destruct x as [p|ps]
  end; [reflexivity|].
  now rewrite (call_op_same curt) by assumption.
Qed.

Lemma eval_iter_same jumps st :
  eval_iter jumps nodes ctx1 st = eval_iter jumps nodes ctx2 st.
Proof.
  unfold eval_iter.
  destruct (index nodes (f_i st)) as [curt|] eqn:Hc; [|reflexivity].
  rewrite dispatch_same; [reflexivity|].
  apply index_Some in Hc as [_ Hc]. eapply list_elem_of_lookup_2, Hc.
Qed.

Lemma eval_run_same steps jumps st :
  eval_run steps jumps nodes size ctx1 st
  = eval_run steps jumps nodes size ctx2 st.
Proof.
  revert st. induction steps as [|steps IH]; intros st; simpl; [reflexivity|].
  rewrite eval_iter_same.
  destruct (f_i st <? size); [|reflexivity].
  destruct (eval_iter jumps nodes ctx2 st); [apply IH|reflexivity].
Qed.

End SameSelector.

(** C3, as the code has it.  [Eval] never reads the cancellation handle:
    replacing the [context.Context] of a context, for instance by a
    cancelled one, leaves the outcome unchanged whenever the operators of
    the program do not themselves react to it.  Cancellation is surfaced
    only by a selector lookup or an operator that reports it. *)
Theorem eval_ignores_cancellation (steps jumps : nat) (e : Expr) (ctx : Ctx)
    (c : context_Context) :
  ops_agree (labNodes e) (with_context ctx c) ctx ->
  Expr_Eval steps jumps e (with_context ctx c) = Expr_Eval steps jumps e ctx.
Proof.
  intros Hops. unfold Expr_Eval, eval_loop.
  destruct (make_os (maxStackSize e) (eval_size e)) as [os|]; [|reflexivity].
  rewrite (eval_run_same (labNodes e) (eval_size e) (with_context ctx c) ctx);
    [reflexivity| |assumption].
  reflexivity.
Qed.

(** ** Termination under the layout invariant *)

(** The layout invariant of the specification: a short-circuit target is
    [-1] or a strictly later index. *)
Definition sc_forward (nodes : list labNode.t) : Prop :=
  forall (k : nat) n, nodes !! k = Some n ->
    labNode.scPos n = -1 \/ Z.of_nat k < labNode.scPos n.

(** The Go type of the field [scPos] is [int16]. *)
Definition sc_typed (nodes : list labNode.t) : Prop :=
  forall n, n ∈ nodes -> is_int16 (labNode.scPos n).

Section Termination.

Context (nodes : list labNode.t) (ctx : Ctx).
Hypothesis Hfwd : sc_forward nodes.
Hypothesis Hty : sc_typed nodes.

Let len := Z.of_nat (length nodes).

Lemma sc_loop_bound jumps b (k : nat) curt i osTop :
  nodes !! k = Some curt ->
  (length nodes - k <= jumps)%nat ->
  match sc_loop jumps nodes b i curt osTop with
  | SCOutOfFuel => False
  | SCLand j _ => j = i \/ (Z.of_nat k < j < len /\ is_int16 j)
  | _ => True
  end.
Proof.
  revert k curt i osTop.
  induction jumps as [|jumps IH]; intros k curt i osTop Hk Hj.
  - apply lookup_lt_Some in Hk. lia.
  - simpl. destruct (sc_match b curt); [|now left].
    destruct (Z.eqb_spec (labNode.scPos curt) (-1)) as [|Hne]; [exact I|].
    destruct (index nodes (labNode.scPos curt)) as [tgt|] eqn:Ht; [|exact I].
    apply index_Some in Ht as [Hr Ht].
    destruct (Hfwd k curt Hk) as [|Hlt]; [contradiction|].
    assert (Hin : curt ∈ nodes) by (eapply list_elem_of_lookup_2, Hk).
    pose proof (Hty curt Hin) as Hint.
    specialize (IH (Z.to_nat (labNode.scPos curt)) tgt (labNode.scPos curt)
                   (labNode.osTop tgt) Ht ltac:(lia)).
    destruct (sc_loop jumps nodes b (labNode.scPos curt) tgt
                (labNode.osTop tgt)) as [|j t| |]; try exact IH.
    right. fold len in Hr. unfold is_int16 in *.
    destruct IH as [->|[Hj' Hi']]; lia.
Qed.

Lemma dispatch_finished curt i osTop os o :
  dispatch nodes ctx curt i osTop os = Finished o -> o <> OutOfFuel.
Proof.
  unfold dispatch.
  repeat (match goal with
          | |- context [match ?x with _ => _ end] => destruct x
          end; try discriminate);
  intros [= <-]; discriminate.
Qed.

Lemma wrap16_succ_index i c :
  is_int16 i -> index nodes (wrap16 (i + 1)) = Some c ->
  wrap16 (i + 1) = i + 1 /\ i + 1 < len.
Proof.
  intros Hi Hc. apply index_Some in Hc as [Hr _]. fold len in Hr.
  destruct (Z.eq_dec i 32767) as [->|Hne].
  - exfalso. revert Hr. vm_compute. intros [H _]. now apply H.
  - rewrite wrap16_id in Hr |- * by (unfold is_int16 in *; lia). lia.
Qed.

Lemma dispatch_produced curt i osTop os res i2 osTop2 :
  is_int16 i -> 0 <= i < len ->
  dispatch nodes ctx curt i osTop os = Produced res i2 osTop2 ->
  i <= i2 < len /\ is_int16 i2.
Proof.
  intros Hi Hr. unfold dispatch.
  destruct (Z.land (labNode.flag curt) nodeTypeMask =? fastOperator).
  { destruct (index nodes (wrap16 (i + 1))) as [c1|] eqn:H1; [|discriminate].
    destruct (wrap16_succ_index i c1 Hi H1) as [E1 L1].
    destruct (read_leaf ctx c1) as [r1 [e1|]|p1]; try discriminate.
    rewrite E1.
    destruct (index nodes (wrap16 (i + 1 + 1))) as [c2|] eqn:H2;
      [|discriminate].
    assert (Hi1 : is_int16 (i + 1)) by (rewrite <- E1; apply wrap16_range).
    destruct (wrap16_succ_index (i + 1) c2 Hi1 H2) as [E2 L2].
    destruct (read_leaf ctx c2) as [r2 [e2|]|p2]; try discriminate.
    destruct (call_op (labNode.operator curt) ctx [r1; r2]) as [r [e|]|p];
      try discriminate.
    intros [= _ <- _]. rewrite E2. split; [lia|].
    rewrite <- E2. apply wrap16_range. }
  destruct (Z.land (labNode.flag curt) nodeTypeMask =? selector).
  { destruct (labNode.value curt); try discriminate.
    destruct (Get ctx (labNode.selKey curt) s) as [r [e|]|p];
      try discriminate.
    intros [= _ <- _]. split; [lia|assumption]. }
  destruct (Z.land (labNode.flag curt) nodeTypeMask =? constant).
  { intros [= _ <- _]. split; [lia|assumption]. }
  destruct (Z.land (labNode.flag curt) nodeTypeMask =? operator);
    [|discriminate].
  match goal with
  | |- match ?x with _ => _ end = _ -> _ => destruct x as [p|ps]
  end; [discriminate|].
  destruct (call_op (labNode.operator curt) ctx ps) as [r [e|]|p];
    try discriminate.
  intros [= _ <- _]. split; [lia|assumption].
Qed.

(** The number of dispatches still possible from index [i]. *)
Definition budget (size i : Z) : nat :=
  if i <? 0 then 1%nat
  else if i <? size
       then (Z.to_nat (size - i) + (if (32767 <? len)%Z then 1 else 0))%nat
       else 0%nat.

Lemma budget_next size i j :
  is_int16 i -> 0 <= i < size -> i <= j < len -> is_int16 j ->
  (budget size (wrap16 (j + 1)) < budget size i)%nat.
Proof.
  intros Hi Hr Hj Hj16. unfold budget at 2.
  destruct (Z.ltb_spec i 0); [lia|]. destruct (Z.ltb_spec i size); [|lia].
  destruct (Z.eq_dec j 32767) as [->|Hne].
  - replace (wrap16 (32767 + 1)) with (-32768) by reflexivity.
    unfold budget. simpl. destruct (Z.ltb_spec 32767 len); lia.
  - rewrite wrap16_id by (unfold is_int16 in *; lia).
    unfold budget. destruct (Z.ltb_spec (j + 1) 0); [lia|].
    destruct (Z.ltb_spec (j + 1) size); lia.
Qed.

Lemma eval_iter_progress jumps size st :
  (length nodes <= jumps)%nat ->
  is_int16 (f_i st) -> f_i st < size ->
  match eval_iter jumps nodes ctx st with
  | Stop o => o <> OutOfFuel
  | Continue st' =>
      is_int16 (f_i st') /\ (budget size (f_i st') < budget size (f_i st))%nat
  end.
Proof.
  intros Hj Hi Hlt. unfold eval_iter.
  destruct (index nodes (f_i st)) as [curt|] eqn:Hc; [|discriminate].
  apply index_Some in Hc as [Hr Hc]. fold len in Hr.
  destruct (dispatch nodes ctx curt (f_i st) (f_osTop st) (f_os st))
    as [res i2 osTop2| |o] eqn:Hd.
  - apply dispatch_produced in Hd as [Hi2 Hi216]; [|assumption..].
    assert (Hpush : forall j t,
      j = i2 \/ (Z.of_nat (Z.to_nat (f_i st)) < j < len /\ is_int16 j) ->
      match push res j t (f_os st) (f_prev st) with
      | Stop o => o <> OutOfFuel
      | Continue st' =>
          is_int16 (f_i st')
          /\ (budget size (f_i st') < budget size (f_i st))%nat
      end).
    { intros j t Hjt. unfold push.
      destruct (in_range (f_os st) (wrap16 (t + 1))); [|discriminate].
      simpl. split; [apply wrap16_range|].
      apply budget_next; try assumption; try lia;
        destruct Hjt as [->|[? ?]]; first [assumption|lia]. }
    unfold after_step.
    destruct res as [| | |b| | |]; try (apply Hpush; now left).
    pose proof (sc_loop_bound jumps b (Z.to_nat (f_i st)) curt i2 osTop2 Hc
                  ltac:(lia)) as Hsc.
    destruct (sc_loop jumps nodes b i2 curt osTop2) as [|j t| |];
      try discriminate; [|contradiction].
    apply Hpush. exact Hsc.
  - simpl. split; [apply wrap16_range|].
    apply budget_next; try assumption; lia.
  - eapply dispatch_finished, Hd.
Qed.

Lemma eval_run_terminates steps jumps size st :
  (length nodes <= jumps)%nat ->
  is_int16 (f_i st) ->
  (budget size (f_i st) <= steps)%nat ->
  eval_run steps jumps nodes size ctx st <> Stop OutOfFuel.
Proof.
  intros Hj. revert st.
  induction steps as [|steps IH]; intros st Hi Hb; simpl;
    destruct (Z.ltb_spec (f_i st) size) as [Hlt|Hge]; try discriminate.
  - exfalso. revert Hb. unfold budget.
    destruct (Z.ltb_spec (f_i st) 0); [lia|].
    destruct (Z.ltb_spec (f_i st) size); lia.
  - pose proof (eval_iter_progress jumps size st Hj Hi Hlt) as Hp.
    destruct (eval_iter jumps nodes ctx st) as [st'|o].
    + destruct Hp as [Hi' Hb']. apply IH; [assumption|lia].
    + congruence.
Qed.

Lemma budget_start :
  (budget (wrap16 len) 0 <= length nodes)%nat.
Proof.
  unfold budget. simpl.
  destruct (Z.ltb_spec 0 (wrap16 len)) as [Hpos|]; [|lia].
  rewrite Z.sub_0_r. unfold wrap16 in *.
  assert (Hlen : 0 <= len) by (unfold len; lia).
  destruct (Z.ltb_spec 32767 len) as [Hbig|Hsmall].
  - pose proof (Z.mod_pos_bound (len + 32768) 65536 ltac:(lia)). lia.
  - rewrite Z.mod_small in * by lia. lia.
Qed.

End Termination.

(** C7.  With every short-circuit target [-1] or strictly later, [Eval]
    dispatches at most [len(program)] nodes before it stops, under every
    context (in particular those whose lookups and operators all succeed):
    a budget of [len(program)] dispatches, and as many short-circuit
    jumps per dispatch, is never used up. *)
Theorem eval_terminates (e : Expr) (ctx : Ctx) :
  sc_forward (labNodes e) ->
  sc_typed (labNodes e) ->
  Expr_Eval (length (labNodes e)) (length (labNodes e)) e ctx <> OutOfFuel.
Proof.
  intros Hfwd Hty. unfold Expr_Eval, eval_loop.
  destruct (make_os (maxStackSize e) (eval_size e)) as [os|];
    [|discriminate].
  pose proof (eval_run_terminates (labNodes e) ctx Hfwd Hty
                (length (labNodes e)) (length (labNodes e)) (eval_size e)
                (eval_init os) ltac:(lia)) as Hrun.
  destruct (eval_run _ _ _ _ _ _) as [st|o] eqn:Hr.
  - unfold eval_exit. destruct (index (f_os st) 0); discriminate.
  - intros ->. apply Hrun; [| |reflexivity].
    + unfold is_int16. simpl. lia.
    + apply budget_start.
Qed.

(** * Properties of the parser *)

Lemma errWithPos_place {T} (p : parser) (e : error) (i : Z) (place : gostring) :
  parser_pos (source p) i = inr place ->
  @errWithPos T p e i = Err (ErrOccursAt e place).
Proof. intros Hp. unfold errWithPos. now rewrite Hp. Qed.

Section ParserFacts.

Context `{Externals}.

(** ** The [if] form *)

(** C4.  A compound form whose head is [if] is built by the keyword
    branch.  With exactly three children it succeeds with a node of kind
    [cond] whose operator negates a boolean first parameter and reports
    an error for any other first parameter, and whose children are the
    three given ones followed by the [fi] node, whose operator returns
    [true] whatever it is given; with any other number of children the
    result is the parameter-count error at the position of the head. *)
Theorem if_form_builds_conditional (p : parser) (car : token)
    (children : list astNode.t) (place : gostring) :
  val car = keywordIf ->
  parser_pos (source p) (pos car) = inr place ->
  (length children = 3%nat ->
     buildNode p car children
     = Ok (astNode.mk
             (node.mk cond 0 0 0 0 (VKeyword keywordIf) (Some if_operator))
             (children ++ [fi_node]) 0 0 0))
  /\ (length children <> 3%nat ->
        buildNode p car children
        = Err (ErrOccursAt (ErrParamsCount keywordIf 3 (slen children)) place))
  /\ (forall ctx b rest,
        if_operator ctx (VBool b :: rest) = Ret (VBool (negb b)) None)
  /\ (forall ctx v rest, (forall b, v <> VBool b) ->
        if_operator ctx (v :: rest) = Ret VNil (Some (ErrCondNonBool v)))
  /\ node.getNodeType (astNode.node fi_node) = cond
  /\ node.operator (astNode.node fi_node) = Some fi_operator
  /\ (forall ctx params, fi_operator ctx params = Ret (VBool true) None).
Proof.
  intros Hcar Hplace.
  assert (Hkw : isKeyword car = true).
  { unfold isKeyword. rewrite Hcar. reflexivity. }
  assert (Hb : buildNode p car children = buildKeywordNode p car children).
  { unfold buildNode. now rewrite Hkw. }
  rewrite Hb. unfold buildKeywordNode.
  rewrite (bool_decide_eq_true_2 _ Hcar). simpl negb. cbv iota.
  repeat split.
  - intros Hlen. unfold slen. rewrite Hlen. reflexivity.
  - intros Hlen. unfold slen.
    destruct (Z.eqb_spec (Z.of_nat (length children)) 3) as [E|_]; [lia|].
    simpl. unfold paramsCountErr, errWithToken.
    rewrite (errWithPos_place _ _ _ _ Hplace). now rewrite Hcar.
  - intros ctx v rest Hv. destruct v; try reflexivity.
    now contradiction (Hv b).
Qed.

(** ** Bare identifiers *)

Lemma first_node_skip fn fns p :
  fn p = Ok (None, p) -> first_node (fn :: fns) p = first_node fns p.
Proof. intros Hfn. simpl. now rewrite Hfn. Qed.

Lemma parseList_not_paren p t :
  peek p = Some t -> typ t <> lParen -> parseList p = Ok (None, p).
Proof.
  unfold peek, parseList. intros -> Ht.
  now rewrite (bool_decide_eq_false_2 _ Ht).
Qed.

Lemma parseInt_other p t :
  peek p = Some t -> typ t <> integer -> parseInt p = Ok (None, p).
Proof.
  unfold parseInt. intros -> Ht. now rewrite (bool_decide_eq_false_2 _ Ht).
Qed.

Lemma parseStr_other p t :
  peek p = Some t -> typ t <> str -> parseStr p = Ok (None, p).
Proof.
  unfold parseStr. intros -> Ht. now rewrite (bool_decide_eq_false_2 _ Ht).
Qed.

Lemma parseConst_other p t :
  peek p = Some t -> typ t <> ident -> parseConst p = Ok (None, p).
Proof.
  unfold parseConst. intros -> Ht. now rewrite (bool_decide_eq_false_2 _ Ht).
Qed.

Lemma parseSelector_other p t :
  peek p = Some t -> typ t <> ident -> parseSelector p = Ok (None, p).
Proof.
  unfold parseSelector. intros -> Ht.
  now rewrite (bool_decide_eq_false_2 _ Ht).
Qed.

(** C5.  At an identifier token, [parseExpression] resolves the name in
    this order: a built-in constant gives a constant node with its value;
    a constant of the configuration gives a constant node with its value;
    a selector of the configuration gives a selector node with its key and
    the name as its value; when the option that allows unknown selectors
    is set to true in the compile options, a selector node with the
    undefined key and the name as its value; and otherwise the
    unknown-token error at the position of the token.  Each node has no
    children and no operator, and the parser moves one token on. *)
Theorem ident_resolution_order (fuel : nat) (p : parser) (t : token)
    (place : gostring) :
  peek p = Some t ->
  typ t = ident ->
  parser_pos (source p) (pos t) = inr place ->
  parseExpression (S fuel) p
  = match builtinConstants !! val t with
    | Some v =>
        Ok (astNode.mk (node.mk constant 0 0 0 0 v None) [] 0 0 0, walk p)
    | None =>
      match ConstantMap (conf p) !! val t with
      | Some v =>
          Ok (astNode.mk (node.mk constant 0 0 0 0 v None) [] 0 0 0, walk p)
      | None =>
        match SelectorMap (conf p) !! val t with
        | Some key =>
            Ok (astNode.mk (node.mk selector 0 0 0 key (VStr (val t)) None)
                  [] 0 0 0, walk p)
        | None =>
          match CompileOptions (conf p) !! AllowUnknownSelectors with
          | Some true =>
              Ok (astNode.mk
                    (node.mk selector 0 0 0 UndefinedSelKey (VStr (val t))
                       None) [] 0 0 0, walk p)
          | _ => Err (ErrOccursAt (ErrNew "unknown token error") place)
          end
        end
      end
    end.
Proof.
  intros Hpeek Hty Hplace.
  assert (Hint : parseInt p = Ok (None, p))
    by (apply (parseInt_other p t Hpeek); now rewrite Hty).
  assert (Hstr : parseStr p = Ok (None, p))
    by (apply (parseStr_other p t Hpeek); now rewrite Hty).
  assert (Hlist : parseList p = Ok (None, p))
    by (apply (parseList_not_paren p t Hpeek); now rewrite Hty).
  assert (Hsingle : forall r,
            first_node [parseConst; parseSelector; parseList] p = r ->
            parseSingleNode p = r).
  { intros r <-. unfold parseSingleNode.
    now rewrite (first_node_skip _ _ _ Hint), (first_node_skip _ _ _ Hstr). }
  destruct (builtinConstants !! val t) as [v|] eqn:Hb.
  { cbn [parseExpression]. rewrite (Hsingle (Ok (Some (valNode v), walk p)));
      [reflexivity|].
    cbn [first_node]. unfold parseConst.
    now rewrite Hpeek, (bool_decide_eq_true_2 _ Hty), Hb. }
  destruct (ConstantMap (conf p) !! val t) as [v|] eqn:Hc.
  { cbn [parseExpression]. rewrite (Hsingle (Ok (Some (valNode v), walk p)));
      [reflexivity|].
    cbn [first_node]. unfold parseConst.
    now rewrite Hpeek, (bool_decide_eq_true_2 _ Hty), Hb, Hc. }
  assert (Hconst : parseConst p = Ok (None, p)).
  { unfold parseConst.
    now rewrite Hpeek, (bool_decide_eq_true_2 _ Hty), Hb, Hc. }
  destruct (SelectorMap (conf p) !! val t) as [key|] eqn:Hs.
  { cbn [parseExpression].
    rewrite (Hsingle (Ok (Some (leaf_node selector (VStr (val t)) key),
                          walk p))); [reflexivity|].
    rewrite (first_node_skip _ _ _ Hconst). cbn [first_node].
    unfold parseSelector.
    now rewrite Hpeek, (bool_decide_eq_true_2 _ Hty), Hs. }
  assert (Hallow : allowUnknownSelectors p
                   = match CompileOptions (conf p) !! AllowUnknownSelectors with
                     | Some true => true
                     | _ => false
                     end).
  { unfold allowUnknownSelectors.
    now destruct (CompileOptions (conf p) !! AllowUnknownSelectors)
      as [[|]|]. }
  assert (Hunknown : forall r : result (astNode.t * parser),
            allowUnknownSelectors p = false ->
            r = Err (ErrOccursAt (ErrNew "unknown token error") place) ->
            parseExpression (S fuel) p = r).
  { intros r Ha ->.
    assert (Hsel : parseSelector p = Ok (None, p)).
    { unfold parseSelector.
      now rewrite Hpeek, (bool_decide_eq_true_2 _ Hty), Hs, Ha. }
    cbn [parseExpression]. rewrite (Hsingle (Ok (None, p))).
    2:{ rewrite (first_node_skip _ _ _ Hconst), (first_node_skip _ _ _ Hsel).
        cbn [first_node]. rewrite Hlist. reflexivity. }
    rewrite Hpeek, (bool_decide_eq_true_2 _ Hty).
    unfold unknownTokenError, errWithToken.
    apply errWithPos_place, Hplace. }
  destruct (CompileOptions (conf p) !! AllowUnknownSelectors) as [[|]|];
    [|now apply Hunknown|now apply Hunknown].
  cbn [parseExpression].
  rewrite (Hsingle (Ok (Some (leaf_node selector (VStr (val t))
                                UndefinedSelKey), walk p)));
    [reflexivity|].
  rewrite (first_node_skip _ _ _ Hconst). cbn [first_node].
  unfold parseSelector.
  now rewrite Hpeek, (bool_decide_eq_true_2 _ Hty), Hs, Hallow.
Qed.

(** ** The empty list literal *)

(** C9.  At an opening parenthesis directly followed by a closing one,
    [parseList], and with it [parseExpression], succeeds with a node of
    kind constant, without children or operator, whose value is the empty
    list of strings (not a list of integers), and moves past both
    tokens. *)
Theorem empty_list_is_string_list (fuel : nat) (p : parser) (t0 t1 : token) :
  index (tokens p) (idx p) = Some t0 ->
  typ t0 = lParen ->
  index (tokens p) (idx p + 1) = Some t1 ->
  typ t1 = rParen ->
  parseList p
  = Ok (Some (astNode.mk (node.mk constant 0 0 0 0 (VStrs []) None) [] 0 0 0),
        with_idx p (idx p + 2))
  /\ parseExpression (S fuel) p
     = Ok (astNode.mk (node.mk constant 0 0 0 0 (VStrs []) None) [] 0 0 0,
           with_idx p (idx p + 2)).
Proof.
  intros H0 Hl H1 Hr.
  assert (Hp : peek p = Some t0) by exact H0.
  assert (Hlist : parseList p
    = Ok (Some (leaf_node constant (VStrs []) 0), with_idx p (idx p + 2))).
  { unfold parseList. rewrite H0, H1.
    rewrite (bool_decide_eq_true_2 _ Hl), Hr. simpl.
    apply index_Some in H1 as [Hrange H1].
    erewrite drop_S by exact H1. simpl.
    rewrite (bool_decide_eq_true_2 _ Hr).
    do 3 f_equal. lia. }
  split; [exact Hlist|].
  simpl. unfold parseSingleNode.
  rewrite (first_node_skip _ _ _ (parseInt_other p t0 Hp ltac:(now rewrite Hl))).
  rewrite (first_node_skip _ _ _ (parseStr_other p t0 Hp ltac:(now rewrite Hl))).
  rewrite (first_node_skip _ _ _
             (parseConst_other p t0 Hp ltac:(now rewrite Hl))).
  rewrite (first_node_skip _ _ _
             (parseSelector_other p t0 Hp ltac:(now rewrite Hl))).
  simpl. now rewrite Hlist.
Qed.

(** ** Empty token streams *)

Lemma checkParentheses_empty p :
  tokens p = [] -> checkParentheses p = Panicked IndexOutOfRange.
Proof. unfold checkParentheses. now intros ->. Qed.

Lemma parseAstTree_empty fuel p :
  List.filter not_comment (tokens p) = [] ->
  parseAstTree fuel p = Panicked IndexOutOfRange.
Proof.
  intros Hf. unfold parseAstTree. rewrite Hf.
  now rewrite checkParentheses_empty.
Qed.

End ParserFacts.

(** * Properties of the lexer *)

Section LexerFacts.

Context `{Externals}.

(** Among the lexers [ls], tried in order at position [i], the first that
    moves the position yields token [t] and position [j]. *)
Inductive first_match (A : list rune) (i : Z) : list lexer -> token -> Z -> Prop :=
| first_match_here l ls t j :
    l A i = Some (t, j) -> j <> i -> first_match A i (l :: ls) t j
| first_match_later l ls t0 t j :
    l A i = Some (t0, i) -> first_match A i ls t j ->
    first_match A i (l :: ls) t j.

(** None of the lexers [ls] moves the position. *)
Inductive no_match (A : list rune) (i : Z) : list lexer -> Prop :=
| no_match_nil : no_match A i []
| no_match_cons l ls t0 :
    l A i = Some (t0, i) -> no_match A i ls -> no_match A i (l :: ls).

Lemma run_lexers_first A i ls t j :
  first_match A i ls t j -> run_lexers ls A i = Found t j.
Proof.
  induction 1 as [l ls t j Hl Hne|l ls t0 t j Hl _ IH]; simpl; rewrite Hl.
  - destruct (Z.eqb_spec i j); [congruence|reflexivity].
  - now rewrite Z.eqb_refl.
Qed.

Lemma run_lexers_none A i ls :
  no_match A i ls -> run_lexers ls A i = NotFound.
Proof.
  induction 1 as [|l ls t0 Hl _ IH]; simpl; [reflexivity|].
  rewrite Hl. now rewrite Z.eqb_refl.
Qed.

Lemma first_match_deterministic A i ls t j t' j' :
  first_match A i ls t j -> first_match A i ls t' j' -> t = t' /\ j = j'.
Proof.
  induction 1 as [l ls t j Hl Hne|l ls t0 t j Hl _ IH];
    inversion 1 as [? ? ? ? Hl' Hne'|? ? ? ? ? Hl' Hrest]; subst.
  - rewrite Hl in Hl'. now injection Hl' as <- <-.
  - rewrite Hl in Hl'. injection Hl' as _ ->. contradiction.
  - rewrite Hl in Hl'. injection Hl' as _ <-. contradiction.
  - now apply IH.
Qed.

Lemma first_match_excludes_none A i ls t j :
  first_match A i ls t j -> no_match A i ls -> False.
Proof.
  induction 1 as [l ls t j Hl Hne|l ls t0 t j Hl _ IH];
    inversion 1 as [|? ? ? Hl' Hrest]; subst.
  - rewrite Hl in Hl'. injection Hl' as _ ->. contradiction.
  - now apply IH.
Qed.

(** Every lexer returns, and never moves backwards. *)
Definition advances (A : list rune) (i : Z) (l : lexer) : Prop :=
  exists t j, l A i = Some (t, j) /\ i <= j.

Lemma index_in_range {A} (l : list A) (i : Z) :
  0 <= i < slen l -> exists x, index l i = Some x.
Proof.
  intros Hi. unfold index. destruct (Z.leb_spec 0 i); [|lia].
  apply lookup_lt_is_Some_2. unfold slen in Hi. lia.
Qed.

Lemma nextToken_in_range A i :
  0 <= i < slen A ->
  nextToken A i = Some (scan_token (drop (Z.to_nat i) A),
                        i + slen (scan_token (drop (Z.to_nat i) A))).
Proof.
  intros Hi. unfold nextToken.
  destruct (Z.leb_spec 0 i); [|lia]. destruct (Z.leb_spec i (slen A)); [|lia].
  reflexivity.
Qed.

Lemma find_rune_ge q rest j0 j :
  find_rune q rest j0 = Some j -> j0 <= j.
Proof.
  revert j0. induction rest as [|r rest IH]; intros j0; simpl; [discriminate|].
  destruct (r =? q); [intros [= <-]; lia|].
  intros Hf. apply IH in Hf. lia.
Qed.

Lemma lexParen_advances A i : 0 <= i < slen A -> advances A i lexParen.
Proof.
  intros Hi. destruct (index_in_range A i Hi) as [r Hr].
  unfold advances, lexParen. rewrite Hr.
  destruct (negb _); eexists _, _; (split; [reflexivity|lia]).
Qed.

Lemma lexInteger_advances A i : 0 <= i < slen A -> advances A i lexInteger.
Proof.
  intros Hi. unfold advances, lexInteger.
  rewrite (nextToken_in_range A i Hi).
  destruct (strconv_ParseInt _); eexists _, _;
    (split; [reflexivity|unfold slen; lia]).
Qed.

Lemma lexStr_advances A i : 0 <= i < slen A -> advances A i lexStr.
Proof.
  intros Hi. destruct (index_in_range A i Hi) as [r Hr].
  unfold advances, lexStr. rewrite Hr.
  destruct (negb _); [eexists _, _; split; [reflexivity|lia]|].
  destruct (find_rune 34 _ (i + 1)) as [j|] eqn:Hf;
    eexists _, _; (split; [reflexivity|]); [|lia].
  apply find_rune_ge in Hf. lia.
Qed.

Lemma lexIdent_advances A i : 0 <= i < slen A -> advances A i lexIdent.
Proof.
  intros Hi. unfold advances, lexIdent.
  rewrite (nextToken_in_range A i Hi).
  destruct (ident_runes _ _ 0); [destruct (negb _)|]; eexists _, _;
    (split; [reflexivity|unfold slen; lia]).
Qed.

Lemma lexComment_advances A i : 0 <= i < slen A -> advances A i lexComment.
Proof.
  intros Hi. destruct (index_in_range A i Hi) as [r Hr].
  unfold advances, lexComment. rewrite Hr.
  destruct (negb _); eexists _, _; (split; [reflexivity|unfold slen; lia]).
Qed.

Lemma lexers_advance A i :
  0 <= i < slen A -> Forall (advances A i) lexers.
Proof.
  intros Hi. unfold lexers.
  repeat constructor; auto using lexParen_advances, lexInteger_advances,
    lexStr_advances, lexIdent_advances, lexComment_advances.
Qed.

(** Either some lexer is the first to move, or none does. *)
Lemma first_or_none A i ls :
  Forall (advances A i) ls ->
  (exists t j, first_match A i ls t j /\ i < j) \/ no_match A i ls.
Proof.
  induction 1 as [|l ls (t & j & Hl & Hle) _ IH]; [right; constructor|].
  destruct (Z.eq_dec j i) as [->|Hne].
  - destruct IH as [(t' & j' & Hf & Hlt)|Hn].
    + left. exists t', j'. split; [|assumption].
      eapply first_match_later; eassumption.
    + right. econstructor; eassumption.
  - left. exists t, j. split; [|lia]. now constructor.
Qed.

Lemma lex_loop_step fuel p A i toks r :
  i < slen A -> index A i = Some r ->
  lex_loop (S fuel) p A i toks
  = if unicode_IsSpace r then lex_loop fuel p A (i + 1) toks
    else match run_lexers lexers A i with
         | Found t j => lex_loop fuel p A j (toks ++ [with_pos t i])
         | NotFound => errWithPos p (ErrNew "can not parse token") i
         | LexPanic => Panicked IndexOutOfRange
         end.
Proof.
  intros Hi Hr. cbn [lex_loop].
  destruct (Z.ltb_spec i (slen A)); [|lia]. now rewrite Hr.
Qed.

Lemma lex_loop_done fuel p A i toks :
  slen A <= i -> lex_loop fuel p A i toks = Ok toks.
Proof.
  intros Hi. destruct fuel; cbn [lex_loop];
    destruct (Z.ltb_spec i (slen A)); try lia; reflexivity.
Qed.

(** The outer loop never runs out of fuel and never panics: it ends with
    the tokens or with the error at some position of the input. *)
Lemma lex_loop_total fuel p A i toks :
  0 <= i -> (Z.to_nat (slen A - i) <= fuel)%nat ->
  (exists out, lex_loop fuel p A i toks = Ok out)
  \/ (exists j, 0 <= j < slen A
        /\ lex_loop fuel p A i toks
           = @errWithPos (list token) p (ErrNew "can not parse token") j).
Proof.
  revert i toks. induction fuel as [|fuel IH]; intros i toks Hi Hf;
    destruct (Z.ltb_spec i (slen A)) as [Hlt|Hge];
    try (left; eexists; now apply lex_loop_done); [lia|].
  destruct (index_in_range A i ltac:(lia)) as [r Hr].
  rewrite (lex_loop_step fuel p A i toks r Hlt Hr).
  destruct (unicode_IsSpace r); [apply IH; lia|].
  destruct (first_or_none A i lexers (lexers_advance A i ltac:(lia)))
    as [(t & j & Hfm & Hj)|Hn].
  - rewrite (run_lexers_first _ _ _ _ _ Hfm). apply IH; lia.
  - rewrite (run_lexers_none _ _ _ Hn). right. exists i. split; [lia|reflexivity].
Qed.


End LexerFacts.

(** X1.  [lex] never panics and always ends: on every source it returns
    either the parser with its tokens, or the error that no lexer could
    read a token, wrapped with a position. *)
Lemma lex_total `{Externals} (p : parser) :
  (exists p', lex p = Ok p')
  \/ (exists place,
        lex p = Err (ErrOccursAt (ErrNew "can not parse token") place)).
Proof.
  unfold lex.
  destruct (lex_loop_total (length (source p)) p (source p) 0 [] ltac:(lia)
              ltac:(unfold slen; lia)) as [[out ->]|(j & Hj & ->)].
  - left. eauto.
  - right. unfold errWithPos, parser_pos.
    destruct (Z.leb_spec 0 j); [|lia].
    destruct (Z.leb_spec j (slen (source p))); [|lia]. simpl.
    destruct (index_in_range (source p) j Hj) as [c ->]. eauto.
Qed.

(** ** Empty token streams, through [parse] *)

Section ParseFacts.

Context `{Externals} `{ConfigExternals}.

Lemma parseConfig_tokens p q : parseConfig p = Ok q -> tokens q = tokens p.
Proof.
  unfold parseConfig.
  destruct (config_tokens p (tokens p) (CopyCompileConfig (conf p)));
    try discriminate.
  now intros [= <-].
Qed.

(** C8, as the code has it.  When no token is left once the comments are
    dropped, [parseAstTree] does not return an error: [checkParentheses]
    indexes the empty token slice and the Go runtime panics with an index
    out of range.  [parse] reaches that panic for every source that lexes
    to such tokens and whose comments pass [parseConfig], which runs
    first; when [parseConfig] rejects a comment, [parse] returns its error
    and there is no panic. *)
Theorem empty_stream_panics (fuel : nat) (q : parser) :
  List.filter not_comment (tokens q) = [] ->
  parseAstTree fuel q = Panicked IndexOutOfRange
  /\ (forall p p1, lex p = Ok p1 -> parseConfig p1 = Ok q ->
        parse fuel p = Panicked IndexOutOfRange)
  /\ (forall p p1 e, lex p = Ok p1 -> tokens p1 = tokens q ->
        parseConfig p1 = Err e -> parse fuel p = Err e).
Proof.
  intros Hf. split; [now apply parseAstTree_empty|split].
  - intros p p1 Hlex Hconf. unfold parse. rewrite Hlex, Hconf.
    now rewrite parseAstTree_empty.
  - intros p p1 e Hlex _ Hconf. unfold parse. now rewrite Hlex, Hconf.
Qed.

Lemma lex_loop_blank fuel p A i toks :
  Forall (fun r => unicode_IsSpace r = true) A ->
  0 <= i -> (Z.to_nat (slen A - i) <= fuel)%nat ->
  lex_loop fuel p A i toks = Ok toks.
Proof.
  intros Hsp. revert i.
  induction fuel as [|fuel IH]; intros i Hi Hf;
    destruct (Z.ltb_spec i (slen A)) as [Hlt|Hge];
    try (now apply lex_loop_done); [lia|].
  destruct (index_in_range A i ltac:(lia)) as [r Hr].
  rewrite (lex_loop_step fuel p A i toks r Hlt Hr).
  apply index_Some in Hr as [_ Hr].
  rewrite Forall_lookup in Hsp. rewrite (Hsp _ _ Hr).
  apply IH; lia.
Qed.

(** A source of white space only (the empty one included) makes [parse]
    panic. *)
Lemma parse_blank_panics (fuel : nat) (p : parser) :
  Forall (fun r => unicode_IsSpace r = true) (source p) ->
  parse fuel p = Panicked IndexOutOfRange.
Proof.
  intros Hsp. unfold parse, lex.
  rewrite (lex_loop_blank (length (source p)) p (source p) 0 [] Hsp ltac:(lia)
             ltac:(unfold slen; lia)).
  change (parseConfig (with_tokens p []))
    with (Ok {| source := source p; conf := CopyCompileConfig (conf p);
                tokens := []; idx := idx p |}).
  cbv beta iota. now rewrite parseAstTree_empty.
Qed.

End ParseFacts.

(** ** The package-level Eval *)

(** C10.  With more than one configuration the package-level [Eval]
    returns the error "error: too many compile configurations", whatever
    [Compile] would do; with exactly one it compiles under that one; with
    none it compiles under a fresh configuration built from the variable
    map.  In the last two cases a compile error is returned as it is and
    the compiled program is evaluated otherwise. *)
Theorem package_eval_configurations (CompileOption : Type)
    (RegisterSelKeys : gmap gostring Value -> CompileOption)
    (NewCompileConfig : list CompileOption -> CompileConfig)
    (Compile : CompileConfig -> gostring -> Expr + error)
    (NewCtxWithMap : CompileConfig -> gmap gostring Value -> Ctx)
    (steps jumps : nat) (expr : gostring) (vals : gmap gostring Value)
    (confs : list CompileConfig) :
  let run conf :=
    match Compile conf expr with
    | inr err => Returns VNil (Some err)
    | inl tree => Expr_Eval steps jumps tree (NewCtxWithMap conf vals)
    end in
  let eval :=
    Eval CompileOption RegisterSelKeys NewCompileConfig Compile NewCtxWithMap
      steps jumps expr vals confs in
  ((1 < length confs)%nat ->
     eval = Returns VNil
              (Some (ErrNew "error: too many compile configurations")))
  /\ (forall conf, confs = [conf] -> eval = run conf)
  /\ (confs = [] -> eval = run (NewCompileConfig [RegisterSelKeys vals])).
Proof.
  intros run eval. subst run eval. unfold Eval, slen. repeat split.
  - intros Hlen. destruct (Z.gtb_spec (Z.of_nat (length confs)) 1);
      [reflexivity|lia].
  - intros conf ->. reflexivity.
  - intros ->. reflexivity.
Qed.

(** * The properties on sample programs and sources *)

(** The chain of [(and false true)]: one jump to the [and] node, then the
    target [-1]. *)
Lemma eval_follows_short_circuit_witness :
  after_step 2 (labNodes and_program) and_first (VBool false) 0 (-1)
    (replicate 8 VNil) 0
  = after_step 1 (labNodes and_program) and_last (VBool false) 2 (-1)
      (replicate 8 VNil) 0
  /\ exists n, forall steps jumps, (n <= jumps)%nat ->
       eval_loop (S steps) jumps (labNodes and_program) 3 sample_ctx
         (eval_init (replicate 8 VNil))
       = Returns (VBool false) None.
Proof.
  destruct (eval_follows_short_circuit (labNodes and_program) 3 sample_ctx
              (eval_init (replicate 8 VNil)) and_first false 0 (-1))
    as (_ & Hjump & Hchain); try reflexivity.
  split.
  - apply (Hjump and_last); [discriminate|reflexivity].
  - apply (Hchain EndReturn).
    eapply sc_follow_jump; [reflexivity|discriminate|reflexivity|].
    apply sc_follow_exit; reflexivity.
Defined.

(** Two constants leave two values on the stack: the loop ends with
    [osTop = 1], and [Eval] returns the bottom one with a nil error. *)
Lemma eval_no_stack_assertion :
  eval_run 2 0 (labNodes two_constants) (eval_size two_constants) sample_ctx
    (eval_init (replicate 8 VNil))
  = Continue {| f_i := 2; f_osTop := 1;
                f_os := VInt 1 :: VInt 2 :: replicate 6 VNil; f_prev := 0 |}
  /\ 1 <> 0
  /\ Expr_Eval 2 0 two_constants sample_ctx = Returns (VInt 1) None.
Proof. split; [reflexivity|split; [discriminate|reflexivity]]. Qed.

Lemma eval_returns_bottom_of_stack_witness :
  eval_size two_constants <= 2
  /\ exists v, (VInt 1 :: VInt 2 :: replicate 6 VNil) !! 0%nat = Some v
               /\ Expr_Eval 2 0 two_constants sample_ctx = Returns v None.
Proof.
  destruct (eval_returns_bottom_of_stack 2 0 two_constants sample_ctx
              (replicate 8 VNil)
              {| f_i := 2; f_osTop := 1;
                 f_os := VInt 1 :: VInt 2 :: replicate 6 VNil; f_prev := 0 |})
    as (Hsize & Hbottom & _); [reflexivity|reflexivity|].
  split; [exact Hsize|]. apply Hbottom. left. simpl. lia.
Defined.

(** A program of 65536 nodes with a large declared stack: the narrowed
    length is 0, the stack is empty and the read of position 0 panics. *)
Example eval_wrapped_size_panics :
  eval_size {| maxStackSize := 17;
               labNodes := replicate (Z.to_nat 65536) (labNode.mk constant 0 (-1) 0 0
                                              (VInt 1) None) |} = 0
  /\ Expr_Eval 0 0
       {| maxStackSize := 17;
          labNodes := replicate (Z.to_nat 65536) (labNode.mk constant 0 (-1) 0 0
                                         (VInt 1) None) |} sample_ctx
     = Panics IndexOutOfRange.
Proof. split; vm_compute; reflexivity. Qed.

(** Under a cancelled context the selector is still looked up and the
    operator still called, and the value comes back with a nil error. *)
Lemma eval_runs_when_cancelled :
  ctx_err (Ctx_ (with_context sample_ctx cancelled))
  = Some (ErrNew "context canceled")
  /\ Expr_Eval 3 1 minor_program (with_context sample_ctx cancelled)
     = Returns (VBool false) None.
Proof. split; reflexivity. Qed.

Lemma eval_ignores_cancellation_witness :
  Expr_Eval 3 1 minor_program (with_context sample_ctx cancelled)
  = Expr_Eval 3 1 minor_program sample_ctx.
Proof.
  apply (eval_ignores_cancellation 3 1 minor_program sample_ctx cancelled).
  intros n op Hin Hop ps. simpl in Hin.
  repeat (apply elem_of_cons in Hin as [->|Hin]); simpl in Hop;
    try discriminate.
  - injection Hop as <-. reflexivity.
  - apply elem_of_nil in Hin. contradiction.
Defined.

Lemma eval_terminates_witness :
  Expr_Eval 3 3 and_program sample_ctx <> OutOfFuel.
Proof.
  apply (eval_terminates and_program sample_ctx).
  - intros k n. simpl.
    destruct k as [|[|[|k]]]; simpl; intros [= <-]; simpl; lia.
  - intros n Hin. simpl in Hin.
    repeat (apply elem_of_cons in Hin as [->|Hin]);
      try (unfold is_int16; simpl; lia).
    apply elem_of_nil in Hin. contradiction.
Defined.

(** [(if age 1 2)]: the head [if] at position 1, three children. *)
Lemma if_form_builds_conditional_witness :
  let p := @newParser sample_conf (gs "(if age 1 2)") in
  let children :=
    [leaf_node selector (VStr (gs "age")) 1; leaf_node constant (VInt 1) 0;
     leaf_node constant (VInt 2) 0] in
  @buildNode sample_externals p (ident_token "if" 1) children
  = Ok (astNode.mk
          (node.mk cond 0 0 0 0 (VKeyword keywordIf) (Some if_operator))
          (children ++ [fi_node]) 0 0 0)
  /\ @buildNode sample_externals p (ident_token "if" 1) []
     = Err (ErrOccursAt (ErrParamsCount keywordIf 3 0) (gs " ([i]f age 1 2)")).
Proof.
  intros p children. split.
  - apply (@if_form_builds_conditional sample_externals p (ident_token "if" 1)
             children (gs " ([i]f age 1 2)")); reflexivity.
  - apply (@if_form_builds_conditional sample_externals p (ident_token "if" 1)
             [] (gs " ([i]f age 1 2)")); [reflexivity|reflexivity|].
    simpl. lia.
Defined.

(** [limit] is both a constant and a selector of the configuration: the
    constant wins. *)
Lemma ident_resolution_order_witness :
  let p := {| source := gs "limit"; conf := sample_conf;
              tokens := [ident_token "limit" 0]; idx := 0 |} in
  @parseExpression sample_externals 1 p
  = Ok (astNode.mk (node.mk constant 0 0 0 0 (VInt 18) None) [] 0 0 0,
        {| source := gs "limit"; conf := sample_conf;
           tokens := [ident_token "limit" 0]; idx := 1 |}).
Proof.
  intros p.
  rewrite (@ident_resolution_order sample_externals 0 p (ident_token "limit" 0)
             (gs " [l]imit")); reflexivity.
Defined.


(** A source that holds a comment only. *)
Lemma empty_stream_panics_witness :
  let p := newParser sample_conf (gs "; note") in
  @parse sample_externals sample_config_externals 4 p
  = Panicked IndexOutOfRange.
Proof.
  intros p.
  pose (p1 := with_tokens p [{| typ := comment; val := gs "; note"; pos := 0 |}]).
  destruct (@empty_stream_panics sample_externals sample_config_externals 4 p1)
    as (_ & Hparse & _); [reflexivity|].
  apply (Hparse p p1); reflexivity.
Defined.

(** A source that holds one comment, a malformed compile directive: no
    token is left once the comment is dropped, and [parse] returns the
    error of [parseConfig] at the comment instead of panicking. *)
Lemma comment_only_source_errors :
  let p := newParser sample_conf (gs ";;;; bogus") in
  (exists p1, @lex sample_externals p = Ok p1
              /\ List.filter not_comment (tokens p1) = [])
  /\ @parse sample_externals sample_config_externals 4 p
     = Err (ErrOccursAt (ErrInvalidCompileFormat (gs " bogus"))
              (gs " [;];;; bogus")).
Proof.
  intros p. split; [|reflexivity].
  exists (with_tokens p
            [{| typ := comment; val := gs ";;;; bogus"; pos := 0 |}]).
  split; reflexivity.
Qed.

(** The tokens of ["()"]. *)
Lemma empty_list_is_string_list_witness :
  let p := {| source := gs "()"; conf := sample_conf;
              tokens := [paren_token true 0; paren_token false 1];
              idx := 0 |} in
  @parseExpression sample_externals 1 p
  = Ok (astNode.mk (node.mk constant 0 0 0 0 (VStrs []) None) [] 0 0 0,
        {| source := gs "()"; conf := sample_conf;
           tokens := [paren_token true 0; paren_token false 1];
           idx := 2 |}).
Proof.
  intros p.
  apply (@empty_list_is_string_list sample_externals 0 p (paren_token true 0)
           (paren_token false 1)); reflexivity.
Defined.

Lemma package_eval_configurations_witness :
  Eval unit (fun _ => tt) (fun _ => sample_conf)
    (fun _ _ => inl minor_program) (fun _ _ => sample_ctx)
    3 1 (gs "(< age 18)") ∅ [sample_conf; sample_conf]
  = Returns VNil (Some (ErrNew "error: too many compile configurations")).
Proof.
  apply (package_eval_configurations unit (fun _ => tt) (fun _ => sample_conf)
           (fun _ _ => inl minor_program) (fun _ _ => sample_ctx)
           3 1 (gs "(< age 18)") ∅ [sample_conf; sample_conf]).
  simpl. lia.
Defined.

(** ** End-to-end runs *)

Example parse_empty_list_source :
  @parse sample_externals sample_config_externals 4
    (newParser sample_conf (gs "()"))
  = Ok (astNode.mk (node.mk constant 0 0 0 0 (VStrs []) None) [] 0 0 0,
        sample_conf).
Proof. reflexivity. Qed.

Example parse_empty_source :
  @parse sample_externals sample_config_externals 4
    (newParser sample_conf (gs ""))
  = Panicked IndexOutOfRange.
Proof. reflexivity. Qed.

Example parse_blank_source :
  @parse sample_externals sample_config_externals 4
    (newParser sample_conf (gs "   "))
  = Panicked IndexOutOfRange.
Proof. reflexivity. Qed.

Example eval_minor : Expr_Eval 3 1 minor_program sample_ctx
                     = Returns (VBool false) None.
Proof. reflexivity. Qed.

Example eval_and_short_circuit :
  Expr_Eval 1 2 and_program sample_ctx = Returns (VBool false) None.
Proof. reflexivity. Qed.

(** * Further properties of the lexer *)

Section LexerShapes.

Context `{Externals}.

(** What the lexers make of position [i]: the kind of the token, its text
    and the position after it. *)
Definition token_shape (A : list rune) (i : Z) (t : token) (j : Z) : Prop :=
  match typ t with
  | lParen =>
      exists r, index A i = Some r /\ val t = [r] /\ (r = 40 \/ r = 91)
                /\ j = i + 1
  | rParen =>
      exists r, index A i = Some r /\ val t = [r] /\ (r = 41 \/ r = 93)
                /\ j = i + 1
  | integer =>
      val t = scan_token (drop (Z.to_nat i) A)
      /\ is_Some (strconv_ParseInt (val t)) /\ j = i + slen (val t)
  | str =>
      index A i = Some 34
      /\ find_rune 34 (drop (Z.to_nat (i + 1)) A) (i + 1) = Some (j - 1)
      /\ val t = slice A (i + 1) (j - 1)
  | ident =>
      val t = scan_token (drop (Z.to_nat i) A) /\ val t <> []
      /\ ident_runes (val t) (val t) 0 = true /\ j = i + slen (val t)
  | comment =>
      index A i = Some 59 /\ val t = scan_line (drop (Z.to_nat i) A)
      /\ j = i + slen (val t) + 1
  | noType => False
  end.

Lemma lexParen_shape A i t j :
  lexParen A i = Some (t, j) -> j <> i -> token_shape A i t j.
Proof.
  unfold lexParen. destruct (index A i) as [r|] eqn:Hr; [|discriminate].
  change (strings_IndexRune (gs "()[]") r)
    with (if 40 =? r then 0 else if 41 =? r then 1 else
          if 91 =? r then 2 else if 93 =? r then 3 else -1).
  destruct (Z.eqb_spec 40 r) as [E|_];
    [intros [= <- <-] _; unfold token_shape; cbn; eauto 10|].
  destruct (Z.eqb_spec 41 r) as [E|_];
    [intros [= <- <-] _; unfold token_shape; cbn; eauto 10|].
  destruct (Z.eqb_spec 91 r) as [E|_];
    [intros [= <- <-] _; unfold token_shape; cbn; eauto 10|].
  destruct (Z.eqb_spec 93 r) as [E|_];
    [intros [= <- <-] _; unfold token_shape; cbn; eauto 10|].
  cbn. intros [= <- <-] Hne. now contradiction Hne.
Qed.

Lemma lexInteger_shape A i t j :
  0 <= i < slen A ->
  lexInteger A i = Some (t, j) -> j <> i -> token_shape A i t j.
Proof.
  intros Hi. unfold lexInteger. rewrite (nextToken_in_range A i Hi).
  destruct (strconv_ParseInt _) as [v|] eqn:Hv.
  - intros [= <- <-] _. unfold token_shape. cbn. rewrite Hv. eauto.
  - intros [= <- <-] Hne. now contradiction Hne.
Qed.

Lemma lexStr_shape A i t j :
  lexStr A i = Some (t, j) -> j <> i -> token_shape A i t j.
Proof.
  unfold lexStr. destruct (index A i) as [r|] eqn:Hr; [|discriminate].
  destruct (Z.eqb_spec r 34) as [->|_]; cbn.
  - destruct (find_rune 34 _ (i + 1)) as [k|] eqn:Hk.
    + intros [= <- <-] _. unfold token_shape. cbn.
      replace (k + 1 - 1) with k by lia. auto.
    + intros [= <- <-] Hne. now contradiction Hne.
  - intros [= <- <-] Hne. now contradiction Hne.
Qed.

Lemma lexIdent_shape A i t j :
  0 <= i < slen A ->
  lexIdent A i = Some (t, j) -> j <> i -> token_shape A i t j.
Proof.
  intros Hi. unfold lexIdent. rewrite (nextToken_in_range A i Hi).
  set (s := scan_token (drop (Z.to_nat i) A)).
  destruct (ident_runes s s 0) eqn:Hs.
  - destruct (Z.eqb_spec i (i + slen s)) as [He|He]; cbn.
    + intros [= <- <-] Hne. now contradiction Hne.
    + intros [= <- <-] _. unfold token_shape. cbn.
      repeat split; try assumption.
      intros Hnil. apply He. rewrite Hnil. unfold slen. simpl. lia.
  - intros [= <- <-] Hne. now contradiction Hne.
Qed.

Lemma lexComment_shape A i t j :
  lexComment A i = Some (t, j) -> j <> i -> token_shape A i t j.
Proof.
  unfold lexComment. destruct (index A i) as [r|] eqn:Hr; [|discriminate].
  destruct (Z.eqb_spec r 59) as [->|_]; cbn.
  - intros [= <- <-] _. unfold token_shape. cbn. auto.
  - intros [= <- <-] Hne. now contradiction Hne.
Qed.

Lemma run_lexers_cons l ls A i t j :
  run_lexers (l :: ls) A i = Found t j ->
  (l A i = Some (t, j) /\ j <> i) \/ run_lexers ls A i = Found t j.
Proof.
  cbn [run_lexers]. destruct (l A i) as [[t0 j0]|]; [|discriminate].
  destruct (Z.eqb_spec i j0) as [<-|Hne]; cbn [negb]; [now right|].
  intros [= <- <-]. left. split; [reflexivity|congruence].
Qed.

Lemma run_lexers_shape A i t j :
  0 <= i < slen A ->
  run_lexers lexers A i = Found t j -> token_shape A i t j /\ i < j.
Proof.
  intros Hi Hrun.
  assert (Hlt : i < j).
  { destruct (first_or_none A i lexers (lexers_advance A i Hi))
      as [(t' & j' & Hfm & Hj)|Hn].
    - rewrite (run_lexers_first _ _ _ _ _ Hfm) in Hrun.
      now injection Hrun as _ <-.
    - rewrite (run_lexers_none _ _ _ Hn) in Hrun. discriminate. }
  split; [|exact Hlt]. unfold lexers in Hrun.
  apply run_lexers_cons in Hrun as [[Hl Hne]|Hrun];
    [now apply lexParen_shape|].
  apply run_lexers_cons in Hrun as [[Hl Hne]|Hrun];
    [now apply lexInteger_shape|].
  apply run_lexers_cons in Hrun as [[Hl Hne]|Hrun];
    [now apply lexStr_shape|].
  apply run_lexers_cons in Hrun as [[Hl Hne]|Hrun];
    [now apply lexIdent_shape|].
  apply run_lexers_cons in Hrun as [[Hl Hne]|Hrun];
    [now apply lexComment_shape|].
  discriminate.
Qed.

(** A property of tokens that holds of every token the lexers make holds
    of every token that [lex] returns. *)
Lemma lex_loop_Forall (P : token -> Prop) fuel p A i toks out :
  (forall i t j, 0 <= i < slen A -> run_lexers lexers A i = Found t j ->
     P (with_pos t i)) ->
  Forall P toks -> 0 <= i ->
  lex_loop fuel p A i toks = Ok out -> Forall P out.
Proof.
  intros HP. revert i toks.
  induction fuel as [|fuel IH]; intros i toks Htoks Hi;
    destruct (Z.ltb_spec i (slen A)) as [Hlt|Hge];
    try (rewrite lex_loop_done by assumption; now intros [= <-]).
  - cbn [lex_loop]. destruct (Z.ltb_spec i (slen A)); [discriminate|lia].
  - destruct (index_in_range A i ltac:(lia)) as [r Hr].
    rewrite (lex_loop_step fuel p A i toks r Hlt Hr).
    destruct (unicode_IsSpace r); [apply IH; [assumption|lia]|].
    destruct (run_lexers lexers A i) as [t j| |] eqn:Hrun.
    + destruct (run_lexers_shape A i t j ltac:(lia) Hrun) as [_ Hj].
      apply IH; [|lia].
      apply Forall_app. split; [assumption|].
      constructor; [|constructor]. apply (HP i t j); [lia|assumption].
    + unfold errWithPos. destruct (parser_pos _ _); discriminate.
    + discriminate.
Qed.

Lemma lex_tokens_shape (p p' : parser) :
  lex p = Ok p' ->
  source p' = source p /\ conf p' = conf p /\ idx p' = idx p
  /\ Forall (fun t => 0 <= pos t < slen (source p)
                      /\ exists j, token_shape (source p) (pos t) t j)
       (tokens p').
Proof.
  unfold lex.
  destruct (lex_loop _ p (source p) 0 []) as [out| | |] eqn:Hl;
    try discriminate.
  intros [= <-]. cbn. repeat split.
  eapply lex_loop_Forall; [|constructor| |exact Hl]; [|lia].
  intros i t j Hi Hrun. cbn. split; [assumption|].
  destruct (run_lexers_shape _ _ _ _ Hi Hrun) as [Hs _]. exists j. exact Hs.
Qed.

End LexerShapes.

(** ** strconv.ParseInt stays within int64 *)



Lemma parser_pos_in_range (A : gostring) (i : Z) :
  0 <= i < slen A -> exists place, parser_pos A i = inr place.
Proof.
  intros Hi. unfold parser_pos.
  destruct (Z.leb_spec 0 i); [|lia]. destruct (Z.leb_spec i (slen A)); [|lia].
  cbn [negb andb]. destruct (index_in_range A i Hi) as [c ->]. eauto.
Qed.

Section LexerResults.

Context `{Externals}.

Lemma lex_loop_sorted fuel p A i toks out :
  0 <= i ->
  Forall (fun t => pos t < i) toks ->
  StronglySorted (fun a b => pos a < pos b) toks ->
  lex_loop fuel p A i toks = Ok out ->
  StronglySorted (fun a b => pos a < pos b) out.
Proof.
  revert i toks.
  induction fuel as [|fuel IH]; intros i toks Hi Hlt Hs;
    destruct (Z.ltb_spec i (slen A)) as [Hin|Hge];
    try (rewrite lex_loop_done by assumption; now intros [= <-]).
  - cbn [lex_loop]. destruct (Z.ltb_spec i (slen A)); [discriminate|lia].
  - destruct (index_in_range A i ltac:(lia)) as [r Hr].
    rewrite (lex_loop_step fuel p A i toks r Hin Hr).
    destruct (unicode_IsSpace r).
    { apply IH; [lia| |assumption].
      eapply Forall_impl; [exact Hlt|]. cbn. intros; lia. }
    destruct (run_lexers lexers A i) as [t j| |] eqn:Hrun.
    + destruct (run_lexers_shape A i t j ltac:(lia) Hrun) as [_ Hj].
      apply IH; [lia| |].
      * apply Forall_app. split.
        -- eapply Forall_impl; [exact Hlt|]. cbn. intros; lia.
        -- constructor; [cbn; lia|constructor].
      * apply StronglySorted_app_2; [|assumption|repeat constructor].
        intros a b Ha Hb. apply list_elem_of_singleton in Hb as ->. cbn.
        rewrite Forall_forall in Hlt. now apply Hlt.
    + unfold errWithPos. destruct (parser_pos _ _); discriminate.
    + discriminate.
Qed.

(** X2.  The tokens that [lex] returns are in source order: their
    positions are strictly increasing, each lies inside the source, and the
    position text of each can be rendered, so that an error reported at a
    token of [lex] cannot panic in [pos]. *)
Theorem lex_positions (p p' : parser) :
  lex p = Ok p' ->
  StronglySorted (fun a b => pos a < pos b) (tokens p')
  /\ Forall (fun t => 0 <= pos t < slen (source p)
                      /\ exists place,
                           parser_pos (source p') (pos t) = inr place)
       (tokens p').
Proof.
  intros Hlex. destruct (lex_tokens_shape p p' Hlex) as (Hsrc & _ & _ & Hsh).
  split.
  - revert Hlex. unfold lex.
    destruct (lex_loop _ p (source p) 0 []) as [out| | |] eqn:Hl;
      try discriminate.
    intros [= <-]. cbn.
    eapply lex_loop_sorted; [| | |exact Hl]; [lia|constructor|constructor].
  - eapply Forall_impl; [exact Hsh|]. cbn. intros t [Hpos _].
    split; [assumption|]. rewrite Hsrc. now apply parser_pos_in_range.
Qed.


(** The runes of a well-formed name: letters and underscores, and
    numbers anywhere but in front. *)
Fixpoint name_runes (rest : list rune) (idx : Z) : bool :=
  match rest with
  | [] => true
  | r :: rest =>
    ((unicode_IsNumber r && negb (idx =? 0)) || unicode_IsLetter r
     || (r =? 95))
    && name_runes rest (idx + 1)
  end.

Lemma ident_runes_name s rest idx :
  ident_runes s rest idx = true ->
  name_runes rest idx = true \/ is_Some (builtinOperators !! s).
Proof.
  revert idx. induction rest as [|r rest IH]; intros idx; simpl; [now left|].
  destruct (unicode_IsNumber r && negb (idx =? 0)); simpl;
    [apply IH|].
  destruct (unicode_IsLetter r); simpl; [apply IH|].
  destruct (r =? 95); simpl; [apply IH|].
  destruct (builtinOperators !! s); [right; eauto|discriminate].
Qed.

Lemma scan_token_no_stop rest :
  Forall (fun r => token_stop r = false) (scan_token rest).
Proof.
  induction rest as [|r rest IH]; simpl; [constructor|].
  destruct (token_stop r) eqn:Hr; constructor; assumption.
Qed.

(** X4.  An identifier token of [lex] is not empty, holds no white space,
    round parenthesis or semicolon, and is either a name (letters and
    underscores, numbers anywhere but in front) or the name of a built-in
    operator. *)
Theorem lex_ident_tokens (p p' : parser) (t : token) :
  lex p = Ok p' ->
  t ∈ tokens p' ->
  typ t = ident ->
  val t <> []
  /\ Forall (fun r => token_stop r = false) (val t)
  /\ (name_runes (val t) 0 = true \/ is_Some (builtinOperators !! val t)).
Proof.
  intros Hlex Hin Hty.
  destruct (lex_tokens_shape p p' Hlex) as (_ & _ & _ & Hsh).
  rewrite Forall_forall in Hsh. destruct (Hsh t Hin) as [_ [j Hj]].
  unfold token_shape in Hj. rewrite Hty in Hj.
  destruct Hj as (Hval & Hne & Hruns & _).
  split; [assumption|]. split.
  - rewrite Hval. apply scan_token_no_stop.
  - now apply ident_runes_name.
Qed.

Lemma find_rune_first q rest j0 j :
  find_rune q rest j0 = Some j ->
  q ∉ take (Z.to_nat (j - j0)) rest.
Proof.
  revert j0. induction rest as [|r rest IH]; intros j0; simpl; [discriminate|].
  destruct (Z.eqb_spec r q) as [->|Hne].
  - intros [= <-]. rewrite Z.sub_diag. simpl. apply not_elem_of_nil.
  - intros Hf. pose proof (find_rune_ge _ _ _ _ Hf) as Hge.
    replace (Z.to_nat (j - j0)) with (S (Z.to_nat (j - (j0 + 1)))) by lia.
    simpl. apply not_elem_of_cons. split; [congruence|]. now apply IH.
Qed.

Lemma scan_line_no_newline rest : 10 ∉ scan_line rest.
Proof.
  induction rest as [|r rest IH]; simpl; [apply not_elem_of_nil|].
  destruct (Z.eqb_spec r 10) as [->|Hne]; [apply not_elem_of_nil|].
  apply not_elem_of_cons. split; [congruence|assumption].
Qed.

(** X5.  No token of [lex] has the empty type.  An opening token is a
    round or a square opening bracket, a closing token a round or a square
    closing bracket; a string token holds no double quote; a comment token
    starts with the semicolon and holds no newline. *)
Theorem lex_token_kinds (p p' : parser) (t : token) :
  lex p = Ok p' ->
  t ∈ tokens p' ->
  typ t <> noType
  /\ (typ t = lParen -> val t = gs "(" \/ val t = gs "[")
  /\ (typ t = rParen -> val t = gs ")" \/ val t = gs "]")
  /\ (typ t = str -> 34 ∉ val t)
  /\ (typ t = comment -> (10 ∉ val t) /\ exists rest, val t = 59 :: rest).
Proof.
  intros Hlex Hin.
  destruct (lex_tokens_shape p p' Hlex) as (_ & _ & _ & Hsh).
  rewrite Forall_forall in Hsh. destruct (Hsh t Hin) as [_ [j Hj]].
  unfold token_shape in Hj.
  destruct (typ t) eqn:Hty; try contradiction;
    refine (conj _ (conj _ (conj _ (conj _ _)))); try discriminate;
    intros _.
  - destruct Hj as (_ & Hf & ->). unfold slice.
    apply find_rune_first in Hf.
    exact Hf.
  - destruct Hj as (r & _ & -> & [->| ->] & _); [now left|now right].
  - destruct Hj as (r & _ & -> & [->| ->] & _); [now left|now right].
  - destruct Hj as (Hi & -> & _). split; [apply scan_line_no_newline|].
    apply index_Some in Hi as [_ Hi].
    rewrite (drop_S _ _ _ Hi). simpl. eauto.
Qed.

End LexerResults.

(** * Further properties of the parser *)

(** ** Parenthesis depth *)

Definition paren_delta (t : token) : Z :=
  match typ t with
  | lParen => 1
  | rParen => -1
  | _ => 0
  end.

(** Opening minus closing parentheses. *)
Fixpoint depth (ts : list token) : Z :=
  match ts with
  | [] => 0
  | t :: ts => paren_delta t + depth ts
  end.

Lemma depth_app a b : depth (a ++ b) = depth a + depth b.
Proof. induction a as [|t a IH]; simpl; lia. Qed.

Lemma errWithPos_not_ok {T} (p : parser) (e : error) (i : Z) (x : T) :
  errWithPos p e i <> Ok x.
Proof. unfold errWithPos. destruct (parser_pos _ _); discriminate. Qed.

Lemma paren_scan_None rest i final cnt :
  paren_scan rest i final cnt = None <->
  forall k, (k < length rest)%nat ->
    0 <= cnt + depth (take (S k) rest)
    /\ (cnt + depth (take (S k) rest) = 0 -> i + Z.of_nat k = final).
Proof.
  revert i cnt. induction rest as [|t rest IH]; intros i cnt.
  - simpl. split; [intros _ k Hk; lia|reflexivity].
  - cbn [paren_scan].
    replace (match typ t with
             | lParen => cnt + 1
             | rParen => cnt - 1
             | _ => cnt
             end) with (cnt + paren_delta t)
      by (unfold paren_delta; destruct (typ t); lia).
    destruct ((cnt + paren_delta t <? 0)
              || ((cnt + paren_delta t =? 0) && negb (i =? final))) eqn:Hc.
    + split; [discriminate|]. intros Hall. exfalso.
      destruct (Hall 0%nat ltac:(simpl; lia)) as [H0 H1].
      cbn [take depth] in H0, H1. rewrite Z.add_0_r in H0, H1.
      apply orb_true_iff in Hc as [Hc|Hc]; [lia|].
      apply andb_true_iff in Hc as [Hz Hi].
      apply Z.eqb_eq in Hz. specialize (H1 Hz).
      apply negb_true_iff, Z.eqb_neq in Hi. lia.
    + apply orb_false_iff in Hc as [Hneg Hz].
      apply Z.ltb_ge in Hneg. rewrite IH. split.
      * intros Hall [|k] Hk; cbn [take depth].
        -- rewrite Z.add_0_r. split; [lia|]. intros Hd.
           rewrite Hd, Z.eqb_refl in Hz. simpl in Hz.
           apply negb_false_iff, Z.eqb_eq in Hz. lia.
        -- destruct (Hall k ltac:(simpl in Hk; lia)) as [H0 H1].
           split; [lia|]. intros Hd. specialize (H1 ltac:(lia)). lia.
      * intros Hall k Hk.
        destruct (Hall (S k) ltac:(simpl; lia)) as [H0 H1].
        cbn [take depth] in H0, H1. split; [lia|].
        intros Hd. specialize (H1 ltac:(lia)). lia.
Qed.

(** X7.  [checkParentheses] accepts a token stream exactly when its first
    token opens, its last token closes, and the depth after every token is
    not negative and reaches zero at the last token at most.  The depth at
    the last token itself is not required to be zero. *)
Theorem checkParentheses_accepts (p : parser) :
  checkParentheses p = Ok tt <->
  (exists first final,
      head (tokens p) = Some first /\ typ first = lParen
      /\ last (tokens p) = Some final /\ typ final = rParen)
  /\ forall k, (k < length (tokens p))%nat ->
       0 <= depth (take (S k) (tokens p))
       /\ (depth (take (S k) (tokens p)) = 0 -> S k = length (tokens p)).
Proof.
  unfold checkParentheses, parenUnmatchedErr.
  assert (Hlast : index (tokens p) (slen (tokens p) - 1) = last (tokens p)).
  { rewrite last_lookup. unfold index, slen.
    destruct (tokens p) as [|t ts]; [reflexivity|].
    destruct (Z.leb_spec 0 (Z.of_nat (length (t :: ts)) - 1));
      [|simpl in *; lia].
    f_equal. simpl. lia. }
  assert (Hhead : index (tokens p) 0 = head (tokens p))
    by (now rewrite head_lookup).
  rewrite Hlast, Hhead.
  destruct (head (tokens p)) as [first|] eqn:Hf.
  2:{ split; [discriminate|]. intros [(f & l & Hx & _) _]. discriminate. }
  destruct (decide (typ first = lParen)) as [Hfl|Hfl].
  2:{ rewrite (bool_decide_eq_false_2 _ Hfl). cbn [negb].
      split; [intros Hx; now apply errWithPos_not_ok in Hx|].
      intros [(f & l & [= <-] & Hx & _) _]. contradiction. }
  rewrite (bool_decide_eq_true_2 _ Hfl). cbn [negb].
  destruct (last (tokens p)) as [final|] eqn:Hl.
  2:{ split; [discriminate|]. intros [(f & l & _ & _ & Hx & _) _].
      discriminate. }
  destruct (decide (typ final = rParen)) as [Hfr|Hfr].
  2:{ rewrite (bool_decide_eq_false_2 _ Hfr). cbn [negb].
      split; [intros Hx; now apply errWithPos_not_ok in Hx|].
      intros [(f & l & _ & _ & [= <-] & Hx) _]. contradiction. }
  rewrite (bool_decide_eq_true_2 _ Hfr). cbn [negb].
  destruct (paren_scan (tokens p) 0 (slen (tokens p) - 1) 0) as [t|] eqn:Hs.
  - split; [intros Hx; now apply errWithPos_not_ok in Hx|].
    intros [_ Hall]. exfalso.
    assert (Hn : paren_scan (tokens p) 0 (slen (tokens p) - 1) 0 = None).
    { apply paren_scan_None. intros k Hk. destruct (Hall k Hk) as [H0 H1].
      split; [lia|]. intros Hd. specialize (H1 ltac:(lia)).
      unfold slen. lia. }
    congruence.
  - split; [|reflexivity]. intros _. split; [eauto 10|].
    pose proof (proj1 (paren_scan_None _ _ _ _) Hs) as Hs'. intros k Hk.
    destruct (Hs' k Hk) as [H0 H1]. split; [lia|].
    intros Hd. specialize (H1 ltac:(lia)). unfold slen in H1. lia.
Qed.

(** ** What the parser consumes *)

Definition same_input (p p' : parser) : Prop :=
  source p' = source p /\ conf p' = conf p /\ tokens p' = tokens p.

(** The last token is a closing parenthesis. *)
Definition closed (T : list token) : Prop :=
  exists tl, last T = Some tl /\ typ tl = rParen.

(** Every integer token holds a decimal number of 64 bits. *)
Definition ints_ok (T : list token) : Prop :=
  Forall (fun t => typ t = integer -> is_Some (strconv_ParseInt (val t))) T.

(** An error that carries its position in the source. *)
Definition positional (e : error) : Prop :=
  exists cause place, e = ErrOccursAt cause place.

(** From [p] to [p'] the parser has moved forward over tokens that are
    balanced, on the same input. *)
Definition consumed (p p' : parser) : Prop :=
  same_input p p'
  /\ 0 <= idx p < idx p' /\ idx p' <= slen (tokens p)
  /\ (closed (tokens p) -> depth (slice (tokens p) (idx p) (idx p')) = 0).

Lemma errWithPos_positional {T} (p : parser) (e : error) (i : Z) (e' : error) :
  @errWithPos T p e i = Err e' -> positional e'.
Proof.
  unfold errWithPos. destruct (parser_pos _ _); [discriminate|].
  intros [= <-]. red. eauto.
Qed.

Lemma slice_app {A} (T : list A) (a b c : Z) :
  0 <= a <= b -> b <= c -> slice T a c = slice T a b ++ slice T b c.
Proof.
  intros Hab Hbc. unfold slice.
  replace (Z.to_nat (c - a)) with (Z.to_nat (b - a) + Z.to_nat (c - b))%nat
    by lia.
  rewrite <- take_take_drop. f_equal. rewrite drop_drop. do 2 f_equal. lia.
Qed.

Lemma slice_nil {A} (T : list A) (a : Z) : slice T a a = [].
Proof. unfold slice. now rewrite Z.sub_diag. Qed.

Lemma slice_one {A} (T : list A) (i : Z) (t : A) :
  index T i = Some t -> slice T i (i + 1) = [t].
Proof.
  intros Hi. apply index_Some in Hi as [_ Hi]. unfold slice.
  replace (Z.to_nat (i + 1 - i)) with 1%nat by lia.
  rewrite (drop_S _ _ _ Hi). reflexivity.
Qed.

Lemma slice_all {A} (T : list A) : slice T 0 (slen T) = T.
Proof.
  unfold slice, slen. simpl. rewrite Z.sub_0_r, Nat2Z.id. apply firstn_all.
Qed.

Lemma depth_slice_app T a b c :
  0 <= a <= b -> b <= c ->
  depth (slice T a c) = depth (slice T a b) + depth (slice T b c).
Proof. intros. rewrite (slice_app T a b c) by assumption. apply depth_app. Qed.

Lemma depth_slice_one T i t :
  index T i = Some t -> depth (slice T i (i + 1)) = paren_delta t.
Proof. intros Hi. rewrite (slice_one T i t Hi). simpl. lia. Qed.

Lemma index_slen {A} (T : list A) i t : index T i = Some t -> 0 <= i < slen T.
Proof. intros Hi. now apply index_Some in Hi as [Hi _]. Qed.

Lemma walk_consumed p t :
  peek p = Some t -> paren_delta t = 0 -> consumed p (walk p).
Proof.
  intros Hp Hd. pose proof (index_slen _ _ _ Hp) as Hi.
  repeat split; cbn; try lia.
  intros _. now rewrite (depth_slice_one _ _ _ Hp).
Qed.

Lemma parse_ints_ok strs :
  Forall (fun s => is_Some (strconv_ParseInt s)) strs ->
  exists l, parse_ints strs = inr l.
Proof.
  induction 1 as [|s strs [v Hv] _ [l IH]]; simpl; [eauto|].
  rewrite Hv, IH. eauto.
Qed.

Definition list_item (ty : tokenType) (t : token) : Prop :=
  typ t = ty /\ typ t <> rParen.

Lemma scan_list_spec ty rest j strs :
  match scan_list ty rest j strs with
  | ListClosed j' strs' =>
      exists items tl more,
        rest = items ++ tl :: more /\ typ tl = rParen
        /\ Forall (list_item ty) items
        /\ j' = j + slen items /\ strs' = strs ++ List.map val items
  | ListOpen strs' =>
      Forall (list_item ty) rest /\ strs' = strs ++ List.map val rest
  | ListBad t =>
      exists items more,
        rest = items ++ t :: more /\ Forall (list_item ty) items
        /\ typ t <> ty /\ typ t <> rParen
  end.
Proof.
  revert j strs. induction rest as [|t rest IH]; intros j strs; simpl.
  - split; [constructor|]. now rewrite app_nil_r.
  - destruct (decide (typ t = rParen)) as [Hr|Hr].
    { rewrite (bool_decide_eq_true_2 _ Hr). exists [], t, rest.
      split; [reflexivity|]. split; [assumption|].
      split; [constructor|]. split; [unfold slen; simpl; lia|].
      now rewrite app_nil_r. }
    rewrite (bool_decide_eq_false_2 _ Hr).
    destruct (decide (typ t = ty)) as [Hty|Hty].
    2:{ rewrite (bool_decide_eq_false_2 _ Hty). cbn [negb].
        exists [], rest. split; [reflexivity|].
        split; [constructor|]. split; assumption. }
    rewrite (bool_decide_eq_true_2 _ Hty). cbn [negb].
    specialize (IH (j + 1) (strs ++ [val t])).
    destruct (scan_list ty rest (j + 1) (strs ++ [val t]))
      as [j' strs'|strs'|bad].
    + destruct IH as (items & tl & more & -> & Htl & Hit & -> & ->).
      exists (t :: items), tl, more.
      split; [reflexivity|]. split; [assumption|].
      split; [constructor; [split|]; assumption|].
      split; [unfold slen; simpl; lia|].
      now rewrite <- app_assoc.
    + destruct IH as [Hit ->]. split.
      * constructor; [split|]; assumption.
      * now rewrite <- app_assoc.
    + destruct IH as (items & more & -> & Hit & Hb1 & Hb2).
      exists (t :: items), more.
      split; [reflexivity|].
      split; [constructor; [split|]; assumption|]. split; assumption.
Qed.

Lemma list_items_depth ty items :
  Forall (list_item ty) items ->
  ty = rParen \/ ty = integer \/ ty = str ->
  depth items = 0.
Proof.
  intros Hit Hty. induction Hit as [|t items [Ht Hr] _ IH]; simpl; [reflexivity|].
  rewrite IH. unfold paren_delta.
  destruct Hty as [->|[->| ->]]; rewrite Ht in *; try reflexivity.
  contradiction.
Qed.

Section ParserInvariant.

Context `{Externals}.

(** What a parsing method of [parseSingleNode] leaves behind. *)
Definition single_inv (p : parser) (r : parsed) : Prop :=
  match r with
  | Ok (Some _, p') => consumed p p'
  | Ok (None, p') => p' = p
  | Err e => ints_ok (tokens p) -> positional e
  | _ => True
  end.

Lemma parseInt_inv p : single_inv p (parseInt p).
Proof.
  unfold parseInt. destruct (peek p) as [t|] eqn:Hp; [|exact I].
  destruct (decide (typ t = integer)) as [Hty|Hty].
  - rewrite (bool_decide_eq_true_2 _ Hty). cbn [negb].
    destruct (strconv_ParseInt (val t)) as [v|] eqn:Hv; cbn.
    + apply (walk_consumed p t Hp). unfold paren_delta. now rewrite Hty.
    + intros Hok. exfalso. red in Hok. rewrite Forall_forall in Hok.
      apply index_Some in Hp as [_ Hp].
      destruct (Hok t (list_elem_of_lookup_2 _ _ _ Hp) Hty) as [v Hv'].
      congruence.
  - rewrite (bool_decide_eq_false_2 _ Hty). reflexivity.
Qed.

Lemma parseStr_inv p : single_inv p (parseStr p).
Proof.
  unfold parseStr. destruct (peek p) as [t|] eqn:Hp; [|exact I].
  destruct (decide (typ t = str)) as [Hty|Hty].
  - rewrite (bool_decide_eq_true_2 _ Hty). cbn.
    apply (walk_consumed p t Hp). unfold paren_delta. now rewrite Hty.
  - rewrite (bool_decide_eq_false_2 _ Hty). reflexivity.
Qed.

Lemma parseConst_inv p : single_inv p (parseConst p).
Proof.
  unfold parseConst. destruct (peek p) as [t|] eqn:Hp; [|exact I].
  destruct (decide (typ t = ident)) as [Hty|Hty].
  - rewrite (bool_decide_eq_true_2 _ Hty). cbn [negb].
    assert (Hw : consumed p (walk p)).
    { apply (walk_consumed p t Hp). unfold paren_delta. now rewrite Hty. }
    destruct (builtinConstants !! val t); [exact Hw|].
    destruct (ConstantMap (conf p) !! val t); [exact Hw|reflexivity].
  - rewrite (bool_decide_eq_false_2 _ Hty). reflexivity.
Qed.

Lemma parseSelector_inv p : single_inv p (parseSelector p).
Proof.
  unfold parseSelector. destruct (peek p) as [t|] eqn:Hp; [|exact I].
  destruct (decide (typ t = ident)) as [Hty|Hty].
  - rewrite (bool_decide_eq_true_2 _ Hty). cbn [negb].
    assert (Hw : consumed p (walk p)).
    { apply (walk_consumed p t Hp). unfold paren_delta. now rewrite Hty. }
    destruct (SelectorMap (conf p) !! val t); [exact Hw|].
    destruct (allowUnknownSelectors p); [exact Hw|reflexivity].
  - rewrite (bool_decide_eq_false_2 _ Hty). reflexivity.
Qed.

Lemma drop_split {A} (T : list A) (n : nat) items tl more :
  drop n T = items ++ tl :: more ->
  length T = (n + length items + 1 + length more)%nat
  /\ T !! (n + length items)%nat = Some tl
  /\ take (length items) (drop n T) = items
  /\ (forall x, x ∈ items -> x ∈ T).
Proof.
  intros Hd. split; [|split; [|split]].
  - pose proof (length_drop T n) as Hl. rewrite Hd in Hl.
    rewrite length_app in Hl. simpl in Hl. lia.
  - rewrite <- lookup_drop, Hd. apply list_lookup_middle. reflexivity.
  - rewrite Hd. apply take_app_length.
  - intros x Hx. apply (subseteq_drop n T). rewrite Hd.
    apply elem_of_app. now left.
Qed.

Lemma parseList_inv p : single_inv p (parseList p).
Proof.
  unfold parseList.
  destruct (index (tokens p) (idx p)) as [t0|] eqn:H0; [|exact I].
  destruct (decide (typ t0 = lParen)) as [Hl|Hl];
    [|rewrite (bool_decide_eq_false_2 _ Hl); reflexivity].
  rewrite (bool_decide_eq_true_2 _ Hl). cbn [negb].
  destruct (index (tokens p) (idx p + 1)) as [t1|] eqn:H1; [|exact I].
  pose proof (index_slen _ _ _ H0) as Hi0.
  pose proof (index_slen _ _ _ H1) as Hi1.
  assert (Hty : (negb (bool_decide (typ t1 = rParen))
                 && negb (bool_decide (typ t1 = integer))
                 && negb (bool_decide (typ t1 = str)) = true)
                \/ (typ t1 = rParen \/ typ t1 = integer \/ typ t1 = str)).
  { destruct (decide (typ t1 = rParen)); [tauto|].
    destruct (decide (typ t1 = integer)); [tauto|].
    destruct (decide (typ t1 = str)); [tauto|]. left.
    now rewrite !bool_decide_eq_false_2 by assumption. }
  destruct Hty as [->|Hty]; [reflexivity|].
  replace (negb (bool_decide (typ t1 = rParen))
           && negb (bool_decide (typ t1 = integer))
           && negb (bool_decide (typ t1 = str))) with false.
  2:{ destruct Hty as [E|[E|E]]; rewrite E; reflexivity. }
  pose proof (scan_list_spec (typ t1) (drop (Z.to_nat (idx p + 1)) (tokens p))
                (idx p + 1) []) as Hs.
  assert (Hstrs : forall items,
    (forall x, x ∈ items -> x ∈ tokens p) ->
    Forall (list_item (typ t1)) items ->
    typ t1 = integer -> ints_ok (tokens p) ->
    exists l, parse_ints ([] ++ List.map val items) = inr l).
  { intros items Hsub Hit Hint Hok. apply parse_ints_ok. simpl.
    apply Forall_fmap. rewrite Forall_forall. intros x Hx. cbn.
    red in Hok. rewrite Forall_forall in Hok, Hit.
    apply (Hok x (Hsub x Hx)). destruct (Hit x Hx) as [E _]. congruence. }
  destruct (scan_list (typ t1) (drop (Z.to_nat (idx p + 1)) (tokens p))
              (idx p + 1) []) as [j strs|strs|bad].
  - destruct Hs as (items & tl & more & Hd & Htl & Hit & -> & ->).
    destruct (drop_split _ _ _ _ _ Hd) as (Hlen & Hj & Htake & Hsub).
    assert (Hc : consumed p (with_idx p (idx p + 1 + slen items + 1))).
    { repeat split; cbn; unfold slen in *; try lia.
      intros _.
      rewrite (depth_slice_app _ (idx p) (idx p + 1)) by lia.
      rewrite (depth_slice_one _ _ _ H0).
      rewrite (depth_slice_app _ (idx p + 1)
                 (idx p + 1 + Z.of_nat (length items))) by lia.
      assert (Hj' : index (tokens p) (idx p + 1 + Z.of_nat (length items))
                    = Some tl).
      { unfold index. destruct (Z.leb_spec 0 (idx p + 1 + Z.of_nat (length items)));
          [|lia].
        rewrite <- Hj. f_equal. lia. }
      rewrite (depth_slice_one _ _ _ Hj').
      replace (slice (tokens p) (idx p + 1)
                 (idx p + 1 + Z.of_nat (length items))) with items.
      2:{ unfold slice. rewrite <- Htake at 1. f_equal. lia. }
      rewrite (list_items_depth _ _ Hit Hty).
      unfold paren_delta. rewrite Hl, Htl. reflexivity. }
    destruct (decide (typ t1 = integer)) as [Hint|Hint].
    + rewrite (bool_decide_eq_true_2 _ Hint).
      destruct (parse_ints ([] ++ List.map val items)) as [bad|ints] eqn:Hp;
        [|exact Hc].
      intros Hok. destruct (Hstrs items Hsub Hit Hint Hok) as [l Hl'].
      congruence.
    + rewrite (bool_decide_eq_false_2 _ Hint). exact Hc.
  - destruct Hs as [Hit ->].
    assert (Hc : consumed p (with_idx p (idx p + 1))).
    { repeat split; cbn; try lia.
      intros (tl & Hlast & Htl). exfalso.
      rewrite last_lookup in Hlast.
      assert (Hin : tl ∈ drop (Z.to_nat (idx p + 1)) (tokens p)).
      { apply list_elem_of_lookup.
        exists (pred (length (tokens p)) - Z.to_nat (idx p + 1))%nat.
        rewrite lookup_drop. rewrite <- Hlast. f_equal.
        unfold slen in *. lia. }
      rewrite Forall_forall in Hit. destruct (Hit tl Hin) as [_ Hne].
      contradiction. }
    destruct (decide (typ t1 = integer)) as [Hint|Hint].
    + rewrite (bool_decide_eq_true_2 _ Hint).
      destruct (parse_ints _) as [bad|ints] eqn:Hp; [|exact Hc].
      intros Hok.
      destruct (Hstrs _ (fun x Hx => subseteq_drop _ _ x Hx) Hit Hint Hok)
        as [l Hl']. congruence.
    + rewrite (bool_decide_eq_false_2 _ Hint). exact Hc.
  - unfold tokenTypeError, errWithToken.
    destruct (errWithPos p _ _) as [x|e| |] eqn:He; try exact I.
    + now apply errWithPos_not_ok in He.
    + intros _. eapply errWithPos_positional, He.
Qed.

Lemma first_node_inv fns p :
  Forall (fun fn => forall q, single_inv q (fn q)) fns ->
  single_inv p (first_node fns p).
Proof.
  induction 1 as [|fn fns Hfn _ IH]; simpl; [reflexivity|].
  pose proof (Hfn p) as Hp.
  destruct (fn p) as [[[a|] p']| | |]; try exact Hp.
  simpl in Hp. subst p'. exact IH.
Qed.

Lemma parseSingleNode_inv p : single_inv p (parseSingleNode p).
Proof.
  apply first_node_inv.
  repeat constructor; intros q;
    auto using parseInt_inv, parseStr_inv, parseConst_inv,
      parseSelector_inv, parseList_inv.
Qed.

Lemma buildNode_err p car children e :
  buildNode p car children = Err e -> positional e.
Proof.
  unfold buildNode, buildKeywordNode, paramsCountErr, unknownTokenError,
    errWithToken.
  repeat match goal with
  | |- context [if ?c then _ else _] => destruct c
  | |- context [match ?x with _ => _ end] =>
      lazymatch x with
      | errWithPos _ _ _ => fail
      | _ => destruct x
      end
  end; try discriminate; apply errWithPos_positional.
Qed.

(** What [parseExpression] leaves behind. *)
Definition expr_inv (p : parser) (r : result (astNode.t * parser)) : Prop :=
  match r with
  | Ok (_, p') => consumed p p'
  | Err e => ints_ok (tokens p) -> positional e
  | _ => True
  end.

(** What the loop over the children leaves behind: it stops in front of
    a closing parenthesis. *)
Definition children_inv (p : parser)
    (r : result (list astNode.t * parser)) : Prop :=
  match r with
  | Ok (_, p') =>
      same_input p p'
      /\ 0 <= idx p <= idx p' /\ idx p' < slen (tokens p)
      /\ (exists t, peek p' = Some t /\ typ t = rParen)
      /\ (closed (tokens p) ->
            depth (slice (tokens p) (idx p) (idx p')) = 0)
  | Err e => ints_ok (tokens p) -> positional e
  | _ => True
  end.

Ltac positional_error :=
  unfold tokenTypeError, unknownTokenError, errWithToken;
  match goal with
  | |- context [@errWithPos ?T ?q ?e ?i] =>
      let He := fresh "He" in
      destruct (@errWithPos T q e i) as [?|?| |] eqn:He;
      [ now apply errWithPos_not_ok in He
      | intros _; eapply errWithPos_positional, He
      | exact I
      | exact I ]
  end.

Lemma parse_inv fuel :
  (forall p, expr_inv p (parseExpression fuel p))
  /\ (forall p ch, children_inv p (parseChildren fuel p ch)).
Proof.
  induction fuel as [|fuel [IHe IHc]]; [split; intros; exact I|].
  split.
  - intros p. cbn [parseExpression].
    pose proof (parseSingleNode_inv p) as Hs.
    destruct (parseSingleNode p) as [[[ast|] p1]|e| |]; try exact Hs.
    simpl in Hs. subst p1.
    destruct (peek p) as [t|] eqn:Hp; [|exact I].
    destruct (decide (typ t = ident)) as [Hid|Hid].
    { rewrite (bool_decide_eq_true_2 _ Hid). positional_error. }
    rewrite (bool_decide_eq_false_2 _ Hid).
    unfold eat, next. rewrite Hp. cbn [existsb].
    destruct (decide (typ t = lParen)) as [Hl|Hl].
    2:{ rewrite (bool_decide_eq_false_2 _ Hl). cbn [orb].
        positional_error. }
    rewrite (bool_decide_eq_true_2 _ Hl). cbn [orb].
    destruct (peek (walk p)) as [car|] eqn:Hcar; [|exact I].
    destruct (decide (typ car = ident)) as [Hc|Hc].
    2:{ rewrite (bool_decide_eq_false_2 _ Hc). cbn [negb].
        positional_error. }
    rewrite (bool_decide_eq_true_2 _ Hc). cbn [negb].
    pose proof (IHc (walk (walk p)) []) as Hch.
    destruct (parseChildren fuel (walk (walk p)) []) as [[children p3]|e| |];
      [|exact Hch|exact I|exact I].
    destruct Hch as ((Hsrc & Hconf & Htok) & Hidx & Hlt & (tr & Hr & Htr)
                     & Hdepth).
    cbn in Hsrc, Hconf, Htok, Hidx, Hlt, Hdepth.
    destruct (buildNode (walk p3) car children) as [ast|e| |] eqn:Hb;
      [|intros _; eapply buildNode_err, Hb|exact I|exact I].
    pose proof (index_slen _ _ _ Hp) as Hi.
    unfold peek in Hr, Hcar. rewrite Htok in Hr. cbn in Hcar.
    repeat split; cbn; try assumption; try lia.
    intros Hcl.
    rewrite (depth_slice_app _ (idx p) (idx p + 1)) by lia.
    rewrite (depth_slice_one _ _ _ Hp).
    rewrite (depth_slice_app _ (idx p + 1) (idx p + 1 + 1)) by lia.
    rewrite (depth_slice_one _ _ _ Hcar).
    rewrite (depth_slice_app _ (idx p + 1 + 1) (idx p3)) by lia.
    rewrite (depth_slice_one _ _ _ Hr), (Hdepth Hcl).
    unfold paren_delta. rewrite Hl, Hc, Htr. reflexivity.
  - intros p ch. cbn [parseChildren].
    destruct (peek p) as [t|] eqn:Hp; [|exact I].
    pose proof (index_slen _ _ _ Hp) as Hi.
    destruct (decide (typ t = rParen)) as [Hr|Hr].
    { rewrite (bool_decide_eq_true_2 _ Hr).
      split; [repeat split|]. split; [lia|]. split; [lia|].
      split; [eauto|]. intros _. now rewrite slice_nil. }
    rewrite (bool_decide_eq_false_2 _ Hr).
    pose proof (IHe p) as He.
    destruct (parseExpression fuel p) as [[child p1]|e| |];
      [|exact He|exact I|exact I].
    destruct He as ((Hsrc & Hconf & Htok) & Hidx & Hle & Hdepth).
    pose proof (IHc p1 (ch ++ [child])) as Hch.
    destruct (parseChildren fuel p1 (ch ++ [child])) as [[chs p2]|e| |];
      [| |exact I|exact I].
    + destruct Hch as ((Hsrc2 & Hconf2 & Htok2) & Hidx2 & Hlt2 & Hpk & Hd2).
      rewrite Htok in Hlt2, Hd2.
      split; [repeat split; congruence|].
      split; [lia|]. split; [lia|]. split; [exact Hpk|].
      intros Hcl.
      rewrite (depth_slice_app _ (idx p) (idx p1)) by lia.
      rewrite (Hdepth Hcl), (Hd2 Hcl). reflexivity.
    + cbn in Hch |- *. now rewrite Htok in Hch.
Qed.

End ParserInvariant.

Lemma checkParentheses_closed (p : parser) (u : unit) :
  checkParentheses p = Ok u -> closed (tokens p).
Proof.
  unfold checkParentheses, parenUnmatchedErr.
  destruct (index (tokens p) 0) as [first|]; [|discriminate].
  destruct (negb (bool_decide (typ first = lParen)));
    [intros Hx; now apply errWithPos_not_ok in Hx|].
  destruct (index (tokens p) (slen (tokens p) - 1)) as [final|] eqn:Hf;
    [|discriminate].
  destruct (decide (typ final = rParen)) as [Hr|Hr].
  - intros _. exists final. split; [|assumption].
    rewrite last_lookup. apply index_Some in Hf as [Hi Hf].
    rewrite <- Hf. f_equal. unfold slen in *. lia.
  - rewrite (bool_decide_eq_false_2 _ Hr). cbn [negb].
    intros Hx. now apply errWithPos_not_ok in Hx.
Qed.

Lemma checkParentheses_err (p : parser) (e : error) :
  checkParentheses p = Err e -> positional e.
Proof.
  unfold checkParentheses, parenUnmatchedErr.
  repeat match goal with
  | |- context [if ?c then _ else _] => destruct c
  | |- context [match ?x with _ => _ end] =>
      lazymatch x with
      | errWithPos _ _ _ => fail
      | _ => destruct x
      end
  end; try discriminate; apply errWithPos_positional.
Qed.

Section ParseResults.

Context `{Externals}.

(** X8.  A successful [parseExpression] leaves source, configuration and
    tokens as they were and moves the token index forward by at least one,
    never past the end of the tokens. *)
Theorem parseExpression_consumes (fuel : nat) (p p' : parser)
    (ast : astNode.t) :
  parseExpression fuel p = Ok (ast, p') ->
  source p' = source p /\ conf p' = conf p /\ tokens p' = tokens p
  /\ 0 <= idx p < idx p' /\ idx p' <= slen (tokens p).
Proof.
  intros Hp. pose proof (proj1 (parse_inv fuel) p) as Hinv.
  rewrite Hp in Hinv. destruct Hinv as ((Hs & Hc & Ht) & Hi & Hl & _).
  tauto.
Qed.

Lemma parseAstTree_inv fuel p :
  match parseAstTree fuel p with
  | Ok (_, p') =>
      depth (slice (List.filter not_comment (tokens p)) (idx p)
               (slen (List.filter not_comment (tokens p)))) = 0
  | Err e => ints_ok (tokens p) -> positional e
  | _ => True
  end.
Proof.
  unfold parseAstTree.
  set (toks := List.filter not_comment (tokens p)).
  destruct (checkParentheses (with_tokens p toks)) as [u|e| |] eqn:Hc;
    [|intros _; eapply checkParentheses_err, Hc|exact I|exact I].
  apply checkParentheses_closed in Hc. cbn in Hc.
  pose proof (proj1 (parse_inv fuel) (with_tokens p toks)) as Hinv.
  destruct (parseExpression fuel (with_tokens p toks)) as [[root p1]|e| |];
    [| |exact I|exact I].
  - destruct Hinv as (_ & _ & _ & Hd). cbn in Hd.
    destruct (Z.eqb_spec (idx p1) (slen toks)) as [E|E]; cbn [negb].
    + rewrite <- E. now apply Hd.
    + unfold invalidExprErr.
      destruct (errWithPos p1 _ (idx p1)) as [x|e| |] eqn:He; try exact I.
      * now apply errWithPos_not_ok in He.
      * intros _. eapply errWithPos_positional, He.
  - cbn in Hinv. intros Hok. apply Hinv. unfold toks.
    red. red in Hok. rewrite Forall_forall in Hok |- *.
    intros t Ht. apply Hok. apply list_elem_of_In in Ht.
    apply filter_In in Ht as [Ht _]. now apply list_elem_of_In.
Qed.

End ParseResults.

Section ParseWhole.

Context `{Externals} `{ConfigExternals}.

Lemma config_fragments_err p t frags cc e :
  config_fragments p t frags cc = Err e -> positional e.
Proof.
  revert cc. induction frags as [|s frags IH]; intros cc; cbn [config_fragments];
    [discriminate|].
  unfold errWithToken.
  destruct (strings_Split s 58) as [|name [|flag [|x l]]];
    try apply errWithPos_positional.
  destruct (strconv_ParseBool _); [|apply errWithPos_positional].
  destruct (bool_decide _); [apply IH|].
  destruct (_ || _); [apply IH|apply errWithPos_positional].
Qed.

Lemma config_tokens_err p toks cc e :
  config_tokens p toks cc = Err e -> positional e.
Proof.
  revert cc. induction toks as [|t toks IH]; intros cc; cbn [config_tokens];
    [discriminate|].
  destruct (negb _); [discriminate|].
  destruct (strip_prefix _ _) as [cmt|]; [|apply IH].
  destruct (config_fragments p t _ cc) as [cc'|e'| |] eqn:Hf;
    [apply IH| |discriminate..].
  intros [= <-]. eapply config_fragments_err, Hf.
Qed.

Lemma parseConfig_frame p q :
  parseConfig p = Ok q ->
  source q = source p /\ tokens q = tokens p /\ idx q = idx p.
Proof.
  unfold parseConfig.
  destruct (config_tokens p (tokens p) (CopyCompileConfig (conf p)));
    try discriminate.
  intros [= <-]. repeat split.
Qed.

Lemma lex_ints_ok p p1 : lex p = Ok p1 -> ints_ok (tokens p1).
Proof.
  intros Hlex. destruct (lex_tokens_shape p p1 Hlex) as (_ & _ & _ & Hsh).
  red. eapply Forall_impl; [exact Hsh|]. cbn.
  intros t [_ [j Hj]] Hty. unfold token_shape in Hj. rewrite Hty in Hj.
  tauto.
Qed.

(** X9.  A source that [parse] accepts is balanced: the tokens of [lex],
    comments apart, open as many parentheses as they close.  A stream that
    [checkParentheses] lets through with parentheses left open therefore
    ends in an error or a panic. *)
Theorem parse_balanced (fuel : nat) (p : parser) (ast : astNode.t)
    (cc : CompileConfig) :
  idx p = 0 ->
  parse fuel p = Ok (ast, cc) ->
  exists p1, lex p = Ok p1
             /\ depth (List.filter not_comment (tokens p1)) = 0.
Proof.
  intros Hidx. unfold parse.
  destruct (lex p) as [p1| | |] eqn:Hlex; try discriminate.
  destruct (parseConfig p1) as [p2| | |] eqn:Hconf; try discriminate.
  pose proof (parseAstTree_inv fuel p2) as Hinv.
  destruct (parseAstTree fuel p2) as [[root p3]| | |]; try discriminate.
  intros _. exists p1. split; [reflexivity|].
  destruct (parseConfig_frame _ _ Hconf) as (_ & Htok & Hi).
  destruct (lex_tokens_shape p p1 Hlex) as (_ & _ & Hi1 & _).
  rewrite Htok, Hi, Hi1, Hidx in Hinv. now rewrite slice_all in Hinv.
Qed.

(** X10.  Every error that [parse] returns, from [lex], [parseConfig] or
    [parseAstTree], is an error wrapped with its position; the bare error
    of [strconv.ParseInt] cannot come out, since integer tokens of [lex]
    always convert. *)
Theorem parse_errors_positional (fuel : nat) (p : parser) (e : error) :
  parse fuel p = Err e ->
  exists cause place, e = ErrOccursAt cause place.
Proof.
  unfold parse.
  destruct (lex p) as [p1|e1| |] eqn:Hlex; try discriminate.
  2:{ intros [= <-]. revert Hlex. unfold lex.
      destruct (lex_loop_total (length (source p)) p (source p) 0 []
                  ltac:(lia) ltac:(unfold slen; lia))
        as [[out ->]|(j & _ & ->)]; [discriminate|].
      destruct (errWithPos p _ j) as [x|e| |] eqn:He; try discriminate.
      intros [= <-]. eapply errWithPos_positional, He. }
  destruct (parseConfig p1) as [p2|e2| |] eqn:Hconf; try discriminate.
  2:{ intros [= <-]. revert Hconf. unfold parseConfig.
      destruct (config_tokens p1 _ _) as [c|e| |] eqn:Hc; try discriminate.
      intros [= <-]. eapply config_tokens_err, Hc. }
  pose proof (parseAstTree_inv fuel p2) as Hinv.
  destruct (parseAstTree fuel p2) as [[root p3]|e3| |]; try discriminate.
  intros [= <-]. apply Hinv.
  destruct (parseConfig_frame _ _ Hconf) as (_ & -> & _).
  eapply lex_ints_ok, Hlex.
Qed.

End ParseWhole.

(** ** List literals *)

Section ListLiterals.

Context `{Externals}.

Lemma scan_list_items ty items rest j strs :
  Forall (list_item ty) items ->
  scan_list ty (items ++ rest) j strs
  = scan_list ty rest (j + slen items) (strs ++ List.map val items).
Proof.
  intros Hit. revert j strs.
  induction Hit as [|t items [Ht Hr] _ IH]; intros j strs.
  - cbn. now rewrite Z.add_0_r, app_nil_r.
  - cbn [app scan_list].
    rewrite (bool_decide_eq_false_2 _ Hr), (bool_decide_eq_true_2 _ Ht).
    cbn [negb]. rewrite IH. cbn [List.map]. rewrite <- app_assoc.
    f_equal. unfold slen. cbn [length]. lia.
Qed.

Lemma tokens_at (p : parser) pre t rest :
  tokens p = pre ++ t :: rest -> idx p = slen pre ->
  index (tokens p) (idx p) = Some t
  /\ index (tokens p) (idx p + 1) = head rest
  /\ drop (Z.to_nat (idx p + 1)) (tokens p) = rest.
Proof.
  intros Ht Hi. rewrite Ht, Hi. unfold index, slen.
  destruct (Z.leb_spec 0 (Z.of_nat (length pre))); [|lia].
  destruct (Z.leb_spec 0 (Z.of_nat (length pre) + 1)); [|lia].
  replace (Z.to_nat (Z.of_nat (length pre) + 1)) with (S (length pre)) by lia.
  rewrite Nat2Z.id. split; [|split].
  - apply list_lookup_middle. reflexivity.
  - rewrite head_lookup, lookup_app_r by lia.
    now replace (S (length pre) - length pre)%nat with 1%nat by lia.
  - rewrite cons_middle, app_assoc.
    replace (S (length pre)) with (length (pre ++ [t]))
      by (rewrite length_app; simpl; lia).
    apply drop_app_length.
Qed.


(** X13.  A list literal whose first element is an integer or a string
    and which goes on with a token of another type, before any closing
    parenthesis, is rejected: the result is the token-type error that
    wants the type of the first element, at the position of that token. *)
Theorem parseList_mixed (p : parser) (pre items post : list token)
    (open first bad : token) :
  tokens p = pre ++ open :: first :: items ++ bad :: post ->
  idx p = slen pre ->
  typ open = lParen ->
  typ first = integer \/ typ first = str ->
  Forall (fun t => typ t = typ first) items ->
  typ bad <> typ first -> typ bad <> rParen ->
  parseList p
  = errWithPos p (ErrTokenType (typ first) (typ bad)) (pos bad).
Proof.
  intros Ht Hi Ho Hf Hit Hb Hbr.
  destruct (tokens_at p pre open (first :: items ++ bad :: post) Ht Hi)
    as (H0 & H1 & Hd).
  unfold parseList. rewrite H0, H1.
  rewrite (bool_decide_eq_true_2 _ Ho). cbn [negb head].
  replace (negb (bool_decide (typ first = rParen))
           && negb (bool_decide (typ first = integer))
           && negb (bool_decide (typ first = str))) with false
    by (destruct Hf as [E|E]; rewrite E; reflexivity).
  rewrite Hd.
  change (first :: items ++ bad :: post)
    with ((first :: items) ++ bad :: post).
  rewrite scan_list_items.
  2:{ constructor.
      - split; [reflexivity|]. destruct Hf as [E|E]; rewrite E; discriminate.
      - eapply Forall_impl; [exact Hit|]. cbn. intros x Hx.
        split; [assumption|]. rewrite Hx.
        destruct Hf as [E|E]; rewrite E; discriminate. }
  cbn [scan_list].
  rewrite (bool_decide_eq_false_2 _ Hbr), (bool_decide_eq_false_2 _ Hb).
  reflexivity.
Qed.

(** ** Heads of compound forms *)

(** X14.  The head of a compound form: the reserved words other than
    [if] are rejected as not supported, whatever the operator registries
    hold; a head that is no keyword is looked up among the built-in
    operators first and those of the configuration next, and is an unknown
    token otherwise. *)
Theorem head_resolution (p : parser) (car : token)
    (children : list astNode.t) :
  (val car ∈ [keywordLet; keywordAny; keywordAll; keywordMap; keywordFilter;
              keywordReduce; keywordCollect] ->
     buildNode p car children
     = errWithPos p (ErrNotSupported (val car)) (pos car))
  /\ (val car ∉ keywords ->
      buildNode p car children
      = match builtinOperators !! val car with
        | Some op =>
            Ok (astNode.mk
                  (node.mk operator 0 0 0 0 (VStr (val car)) (Some op))
                  children 0 0 0)
        | None =>
          match OperatorMap (conf p) !! val car with
          | Some op =>
              Ok (astNode.mk
                    (node.mk operator 0 0 0 0 (VStr (val car)) (Some op))
                    children 0 0 0)
          | None => errWithPos p (ErrNew "unknown token error") (pos car)
          end
        end).
Proof.
  split.
  - intros Hin. unfold buildNode, buildKeywordNode, errWithToken.
    assert (Hk : isKeyword car = true /\ val car <> keywordIf).
    { unfold isKeyword.
      repeat (apply elem_of_cons in Hin as [->|Hin];
              [split; [reflexivity|discriminate]|]).
      now apply elem_of_nil in Hin. }
    destruct Hk as [-> Hne].
    now rewrite (bool_decide_eq_false_2 _ Hne).
  - intros Hnot. unfold buildNode.
    assert (Hk : isKeyword car = false).
    { unfold isKeyword. apply not_true_is_false. intros Hex.
      apply existsb_exists in Hex as (kw & Hin & Hkw).
      apply bool_decide_eq_true_1 in Hkw. apply Hnot. rewrite Hkw.
      now apply list_elem_of_In. }
    rewrite Hk.
    destruct (builtinOperators !! val car); [reflexivity|].
    destruct (OperatorMap (conf p) !! val car); reflexivity.
Qed.

End ListLiterals.

(** ** Error positions *)

(** [pos] over a rune slice of capacity [cap]: Go checks the bounds of a
    slice expression against the capacity of the slice, and an index
    expression against its length.  [parser_pos] is the case of a slice
    filled to capacity. *)
Definition parser_pos_cap (cap : Z) (A : gostring) (i : Z)
  : panic + gostring :=
  if negb ((0 <=? i) && (i <=? cap)) then inl SliceBounds
  else
    let l := i - 30 in
    let left := if l <? 0 then slice A 0 i else gs "..." ++ slice A l i in
    let r := i + 30 in
    let right :=
      if r >? slen A - 1 then
        (if i >=? slen A - 1 then [] else slice A (i + 1) (slen A))
      else slice A (i + 1) r ++ gs "..." in
    match index A i with
    | None => inl IndexOutOfRange
    | Some c => inr (gs " " ++ left ++ gs "[" ++ [c] ++ gs "]" ++ right)
    end.

(** X6.  [pos] renders, for a position inside the source, a blank, the
    thirty runes before the position at most (after three dots when there
    are more), the rune at the position in square brackets, and the
    twenty-nine runes after it at most (before three dots when there are
    more); the capacity of the rune slice plays no part in it.  For every
    other position it panics: in a slice expression when the position is
    negative or beyond the capacity, in the index expression when it is
    between the length and the capacity. *)
Theorem parser_pos_window (cap : Z) (A : gostring) (i : Z) :
  slen A <= cap ->
  (0 <= i < slen A ->
     exists c, index A i = Some c
       /\ parser_pos A i
          = inr (gs " "
                 ++ ((if i - 30 <? 0 then [] else gs "...")
                     ++ slice A (Z.max 0 (i - 30)) i)
                 ++ gs "[" ++ [c] ++ gs "]"
                 ++ (slice A (i + 1) (Z.min (slen A) (i + 30))
                     ++ (if i + 30 <? slen A then gs "..." else [])))
       /\ parser_pos_cap cap A i = parser_pos A i
       /\ (length (slice A (Z.max 0 (i - 30)) i) <= 30)%nat
       /\ (length (slice A (i + 1) (Z.min (slen A) (i + 30))) <= 29)%nat)
  /\ (i < 0 \/ cap < i -> parser_pos_cap cap A i = inl SliceBounds)
  /\ (slen A <= i <= cap -> parser_pos_cap cap A i = inl IndexOutOfRange)
  /\ (i < 0 \/ slen A <= i -> exists pn, parser_pos A i = inl pn).
Proof.
  intros Hcap.
  assert (Hnone : slen A <= i -> index A i = None).
  { intros Hi. unfold index. destruct (Z.leb_spec 0 i); [|reflexivity].
    apply lookup_ge_None_2. unfold slen in *. lia. }
  split; [|split; [|split]].
  - intros Hi. destruct (index_in_range A i Hi) as [c Hc]. exists c.
    split; [assumption|]. split; [|split; [|split]].
    + unfold parser_pos. rewrite Hc.
      destruct (Z.leb_spec 0 i); [|lia].
      destruct (Z.leb_spec i (slen A)); [|lia]. cbn [negb andb].
      do 2 f_equal. f_equal.
      * destruct (Z.ltb_spec (i - 30) 0).
        -- now rewrite Z.max_l by lia.
        -- now rewrite Z.max_r by lia.
      * do 3 f_equal.
        destruct (Z.gtb_spec (i + 30) (slen A - 1)).
        -- destruct (Z.ltb_spec (i + 30) (slen A)); [lia|].
           rewrite Z.min_l by lia. rewrite app_nil_r.
           destruct (Z.geb_spec i (slen A - 1)); [|reflexivity].
           unfold slice. replace (Z.to_nat (slen A - (i + 1))) with 0%nat by lia.
           reflexivity.
        -- destruct (Z.ltb_spec (i + 30) (slen A)); [|lia].
           now rewrite Z.min_r by lia.
    + unfold parser_pos_cap, parser_pos.
      destruct (Z.leb_spec 0 i); [|lia].
      destruct (Z.leb_spec i (slen A)); [|lia].
      destruct (Z.leb_spec i cap); [|lia]. reflexivity.
    + unfold slice. rewrite length_take. lia.
    + unfold slice. rewrite length_take. lia.
  - intros Hi. unfold parser_pos_cap.
    destruct (Z.leb_spec 0 i); [|reflexivity].
    destruct (Z.leb_spec i cap); [lia|reflexivity].
  - intros Hi. unfold parser_pos_cap.
    destruct (Z.leb_spec 0 i); [|unfold slen in *; lia].
    destruct (Z.leb_spec i cap); [|lia]. cbn [negb andb].
    now rewrite (Hnone (proj1 Hi)).
  - intros Hi. unfold parser_pos.
    destruct ((0 <=? i) && (i <=? slen A)) eqn:Hr; cbn [negb]; [|eauto].
    apply andb_true_iff in Hr as [H0 H1].
    apply Z.leb_le in H0. apply Z.leb_le in H1.
    rewrite Hnone by lia. eauto.
Qed.

(** ** Compile options in the header *)

Section ConfigResults.

Context `{Externals} `{ConfigExternals}.

(** The configuration [cc'] differs from [cc] at most in the options
    that the header can name. *)
Definition options_frame (cc cc' : CompileConfig) : Prop :=
  ConstantMap cc' = ConstantMap cc
  /\ SelectorMap cc' = SelectorMap cc
  /\ OperatorMap cc' = OperatorMap cc
  /\ forall opt, opt ∉ AllOptimizations -> opt <> Reordering ->
       opt <> FastEvaluation -> opt <> ConstantFolding ->
       CompileOptions cc' !! opt = CompileOptions cc !! opt.

Lemma options_frame_refl cc : options_frame cc cc.
Proof. repeat split. Qed.

Lemma options_frame_set cc cc' name enabled :
  options_frame cc cc' ->
  name ∈ AllOptimizations \/ name = Reordering \/ name = FastEvaluation
  \/ name = ConstantFolding ->
  options_frame cc (set_option cc' name enabled).
Proof.
  intros (Hc & Hs & Ho & Hopt) Hname. repeat split; try assumption.
  intros opt H1 H2 H3 H4. cbn. rewrite lookup_insert_ne; [now apply Hopt|].
  intros ->. destruct Hname as [?|[?|[?|?]]]; contradiction.
Qed.

Lemma options_frame_fold cc cc' opts enabled :
  options_frame cc cc' ->
  (forall o, o ∈ opts -> o ∈ AllOptimizations) ->
  options_frame cc
    (fold_left (fun c opt => set_option c opt enabled) opts cc').
Proof.
  revert cc'. induction opts as [|o opts IH]; intros cc' Hf Hsub; [exact Hf|].
  cbn [fold_left]. apply IH.
  - apply options_frame_set; [assumption|]. left. apply Hsub. now left.
  - intros o' Ho'. apply Hsub. now right.
Qed.

Lemma config_fragments_frame p t frags cc0 cc cc' :
  options_frame cc0 cc ->
  config_fragments p t frags cc = Ok cc' -> options_frame cc0 cc'.
Proof.
  revert cc. induction frags as [|s frags IH]; intros cc Hf;
    cbn [config_fragments]; [now intros [= <-]|].
  unfold errWithToken.
  destruct (strings_Split s 58) as [|name [|flag [|x l]]];
    try (intros Hx; now apply errWithPos_not_ok in Hx).
  destruct (strconv_ParseBool _) as [enabled|];
    [|intros Hx; now apply errWithPos_not_ok in Hx].
  destruct (bool_decide _) eqn:Hopt.
  { apply IH. now apply options_frame_fold. }
  destruct (_ || _) eqn:Hrec;
    [|intros Hx; now apply errWithPos_not_ok in Hx].
  apply IH. apply options_frame_set; [assumption|]. right.
  apply orb_true_iff in Hrec as [Hrec|Hrec];
    [apply orb_true_iff in Hrec as [Hrec|Hrec]|];
    apply bool_decide_eq_true_1 in Hrec; tauto.
Qed.

Lemma config_tokens_frame p toks cc0 cc cc' :
  options_frame cc0 cc ->
  config_tokens p toks cc = Ok cc' -> options_frame cc0 cc'.
Proof.
  revert cc. induction toks as [|t toks IH]; intros cc Hf;
    cbn [config_tokens]; [now intros [= <-]|].
  destruct (negb _); [now intros [= <-]|].
  destruct (strip_prefix _ _) as [cmt|]; [|now apply IH].
  destruct (config_fragments p t _ cc) as [cc1| | |] eqn:Hfr;
    try discriminate.
  apply IH. eapply config_fragments_frame; eassumption.
Qed.

(** X15.  [parseConfig] leaves source, tokens and index alone, and the
    configuration it sets is the copy of the old one except for compile
    options: the three maps are those of the copy, and so is every option
    that is neither in [AllOptimizations] nor one of reordering, fast
    evaluation and constant folding. *)
Theorem parseConfig_changes_options_only (p q : parser) :
  parseConfig p = Ok q ->
  source q = source p /\ tokens q = tokens p /\ idx q = idx p
  /\ ConstantMap (conf q) = ConstantMap (CopyCompileConfig (conf p))
  /\ SelectorMap (conf q) = SelectorMap (CopyCompileConfig (conf p))
  /\ OperatorMap (conf q) = OperatorMap (CopyCompileConfig (conf p))
  /\ forall opt, opt ∉ AllOptimizations -> opt <> Reordering ->
       opt <> FastEvaluation -> opt <> ConstantFolding ->
       CompileOptions (conf q) !! opt
       = CompileOptions (CopyCompileConfig (conf p)) !! opt.
Proof.
  unfold parseConfig.
  destruct (config_tokens p (tokens p) (CopyCompileConfig (conf p)))
    as [cc| | |] eqn:Hc; try discriminate.
  intros [= <-]. cbn.
  destruct (config_tokens_frame _ _ _ _ _ (options_frame_refl _) Hc)
    as (H1 & H2 & H3 & H4).
  repeat split; assumption.
Qed.

Lemma config_tokens_source p p' toks cc :
  source p' = source p ->
  config_tokens p' toks cc = config_tokens p toks cc.
Proof.
  intros Hs.
  assert (Hfr : forall t frags c,
            config_fragments p' t frags c = config_fragments p t frags c).
  { intros t frags. induction frags as [|s frags IH]; intros c;
      cbn [config_fragments]; [reflexivity|].
    unfold errWithToken, errWithPos. rewrite Hs.
    destruct (strings_Split s 58) as [|name [|flag [|x l]]]; try reflexivity.
    destruct (strconv_ParseBool _); [|reflexivity].
    destruct (bool_decide _); [apply IH|].
    destruct (_ || _); [apply IH|reflexivity]. }
  revert cc. induction toks as [|t toks IH]; intros cc; cbn [config_tokens];
    [reflexivity|].
  destruct (negb _); [reflexivity|].
  destruct (strip_prefix _ _); [|apply IH].
  rewrite Hfr. destruct (config_fragments p t _ cc); try reflexivity.
  apply IH.
Qed.

Lemma config_tokens_stop p cs t rest cc :
  typ t <> comment ->
  config_tokens p (cs ++ t :: rest) cc = config_tokens p (cs ++ [t]) cc.
Proof.
  intros Ht. revert cc. induction cs as [|c cs IH]; intros cc.
  - cbn. now rewrite (bool_decide_eq_false_2 _ Ht).
  - cbn [app config_tokens].
    destruct (negb _); [reflexivity|].
    destruct (strip_prefix _ _); [|apply IH].
    destruct (config_fragments p c _ cc); try reflexivity. apply IH.
Qed.

(** X16.  [parseConfig] reads the comments in front of the first token
    that is not a comment, and nothing after it: replacing the tokens that
    follow that token changes neither the configuration nor the error. *)
Theorem parseConfig_reads_leading_comments (p : parser)
    (cs rest rest' : list token) (t : token) :
  tokens p = cs ++ t :: rest ->
  typ t <> comment ->
  parseConfig (with_tokens p (cs ++ t :: rest'))
  = match parseConfig p with
    | Ok q => Ok (with_tokens q (cs ++ t :: rest'))
    | r => r
    end.
Proof.
  intros Htok Ht. unfold parseConfig. cbn [tokens conf with_tokens source idx].
  rewrite (config_tokens_source p (with_tokens p (cs ++ t :: rest')))
    by reflexivity.
  rewrite Htok, (config_tokens_stop p cs t rest' _ Ht),
    (config_tokens_stop p cs t rest _ Ht).
  destruct (config_tokens p (cs ++ [t]) (CopyCompileConfig (conf p)));
    reflexivity.
Qed.

End ConfigResults.

(** ** The fuel of the parser *)

Lemma errWithPos_fuel {T} (p : parser) (e : error) (i : Z) :
  @errWithPos T p e i <> NoFuel.
Proof. unfold errWithPos. destruct (parser_pos _ _); discriminate. Qed.

Section ParserFuel.

Context `{Externals}.

Lemma parseSingleNode_fuel p : parseSingleNode p <> NoFuel.
Proof.
  assert (Hfirst : forall fns q,
    Forall (fun fn => forall q, fn q <> NoFuel) fns ->
    first_node fns q <> NoFuel).
  { intros fns q Hall. revert q.
    induction Hall as [|fn fns Hfn _ IH]; intros q; simpl; [discriminate|].
    pose proof (Hfn q) as Hq.
    destruct (fn q) as [[[a|] q']| | |]; try discriminate; [apply IH|].
    contradiction. }
  apply Hfirst. repeat constructor; intros q.
  - unfold parseInt. destruct (peek q); [|discriminate].
    destruct (negb _); [discriminate|].
    destruct (strconv_ParseInt _); discriminate.
  - unfold parseStr. destruct (peek q); [|discriminate].
    destruct (negb _); discriminate.
  - unfold parseConst. destruct (peek q); [|discriminate].
    destruct (negb _); [discriminate|].
    destruct (builtinConstants !! _); [discriminate|].
    destruct (ConstantMap _ !! _); discriminate.
  - unfold parseSelector. destruct (peek q); [|discriminate].
    destruct (negb _); [discriminate|].
    destruct (SelectorMap _ !! _); [discriminate|].
    destruct (allowUnknownSelectors q); discriminate.
  - unfold parseList. destruct (index _ _); [|discriminate].
    destruct (negb _); [discriminate|].
    destruct (index _ _); [|discriminate].
    destruct (_ && _); [discriminate|].
    destruct (scan_list _ _ _ _);
      try (destruct (bool_decide _); [destruct (parse_ints _)|];
           discriminate).
    unfold tokenTypeError, errWithToken. apply errWithPos_fuel.
Qed.

Lemma buildNode_fuel p car children : buildNode p car children <> NoFuel.
Proof.
  unfold buildNode, buildKeywordNode, paramsCountErr, unknownTokenError,
    errWithToken.
  repeat match goal with
  | |- context [if ?c then _ else _] => destruct c
  | |- context [match ?x with _ => _ end] =>
      lazymatch x with
      | errWithPos _ _ _ => fail
      | _ => destruct x
      end
  end; try discriminate; apply errWithPos_fuel.
Qed.

(** The tokens that are left. *)
Definition remaining (p : parser) : Z := Z.max 0 (slen (tokens p) - idx p).

Lemma parse_fuel fuel :
  (forall p, 2 * remaining p + 2 <= Z.of_nat fuel ->
     parseExpression fuel p <> NoFuel)
  /\ (forall p ch, 2 * remaining p + 3 <= Z.of_nat fuel ->
        parseChildren fuel p ch <> NoFuel).
Proof.
  induction fuel as [|fuel [IHe IHc]].
  { split; intros; unfold remaining in *; lia. }
  split.
  - intros p Hf. cbn [parseExpression].
    pose proof (parseSingleNode_inv p) as Hs.
    pose proof (parseSingleNode_fuel p) as Hn.
    destruct (parseSingleNode p) as [[[ast|] p1]|e| |]; try discriminate;
      [|contradiction].
    simpl in Hs. subst p1.
    destruct (peek p) as [t|] eqn:Hp; [|discriminate].
    destruct (bool_decide (typ t = ident));
      [unfold unknownTokenError, errWithToken; apply errWithPos_fuel|].
    unfold eat, next. rewrite Hp. cbn [existsb].
    destruct (bool_decide (typ t = lParen) || false).
    2:{ unfold tokenTypeError, errWithToken.
        destruct (errWithPos (walk p) (ErrTokenType lParen (typ t)) (pos t))
          as [x| | |] eqn:He; try discriminate.
        - now apply errWithPos_not_ok in He.
        - now apply errWithPos_fuel in He. }
    destruct (peek (walk p)) as [car|] eqn:Hcar; [|discriminate].
    destruct (negb (bool_decide (typ car = ident)));
      [unfold tokenTypeError, errWithToken; apply errWithPos_fuel|].
    pose proof (index_slen _ _ _ Hcar) as Hi. cbn in Hi.
    assert (Hc : parseChildren fuel (walk (walk p)) [] <> NoFuel).
    { apply IHc. unfold remaining in *. cbn. lia. }
    destruct (parseChildren fuel (walk (walk p)) []) as [[children p3]| | |];
      try discriminate; [|contradiction].
    pose proof (buildNode_fuel (walk p3) car children) as Hb.
    destruct (buildNode (walk p3) car children); try discriminate.
    contradiction.
  - intros p ch Hf. cbn [parseChildren].
    destruct (peek p) as [t|] eqn:Hp; [|discriminate].
    pose proof (index_slen _ _ _ Hp) as Hi.
    destruct (bool_decide (typ t = rParen)); [discriminate|].
    assert (He : parseExpression fuel p <> NoFuel).
    { apply IHe. unfold remaining in *. lia. }
    pose proof (proj1 (parse_inv fuel) p) as Hinv.
    destruct (parseExpression fuel p) as [[child p1]| | |];
      try discriminate; [|contradiction].
    destruct Hinv as ((_ & _ & Htok) & Hidx & Hle & _).
    apply IHc. unfold remaining in *. rewrite Htok. lia.
Qed.

Lemma checkParentheses_fuel p : checkParentheses p <> NoFuel.
Proof.
  unfold checkParentheses, parenUnmatchedErr.
  repeat match goal with
  | |- context [if ?c then _ else _] => destruct c
  | |- context [match ?x with _ => _ end] =>
      lazymatch x with
      | errWithPos _ _ _ => fail
      | _ => destruct x
      end
  end; try discriminate; apply errWithPos_fuel.
Qed.

Lemma parseAstTree_fuel fuel p :
  0 <= idx p ->
  2 * slen (tokens p) + 2 <= Z.of_nat fuel ->
  parseAstTree fuel p <> NoFuel.
Proof.
  intros Hi Hf. unfold parseAstTree.
  set (toks := List.filter not_comment (tokens p)).
  pose proof (checkParentheses_fuel (with_tokens p toks)) as Hc.
  destruct (checkParentheses (with_tokens p toks)); try discriminate;
    [|contradiction].
  assert (Hlen : slen toks <= slen (tokens p)).
  { unfold slen, toks. pose proof (filter_length_le not_comment (tokens p)).
    lia. }
  assert (He : parseExpression fuel (with_tokens p toks) <> NoFuel).
  { apply (proj1 (parse_fuel fuel)). unfold remaining. cbn [tokens idx with_tokens].
    unfold slen in *. lia. }
  destruct (parseExpression fuel (with_tokens p toks)) as [[root p1]| | |];
    try discriminate; [|contradiction].
  destruct (negb _); [apply errWithPos_fuel|discriminate].
Qed.

Lemma lex_loop_count fuel p A i toks out :
  0 <= i ->
  lex_loop fuel p A i toks = Ok out ->
  slen out <= slen toks + Z.max 0 (slen A - i).
Proof.
  revert i toks.
  induction fuel as [|fuel IH]; intros i toks Hi;
    destruct (Z.ltb_spec i (slen A)) as [Hlt|Hge];
    try (rewrite lex_loop_done by assumption; intros [= <-]; lia).
  - cbn [lex_loop]. destruct (Z.ltb_spec i (slen A)); [discriminate|lia].
  - destruct (index_in_range A i ltac:(lia)) as [r Hr].
    rewrite (lex_loop_step fuel p A i toks r Hlt Hr).
    destruct (unicode_IsSpace r).
    { intros Hl. apply IH in Hl; lia. }
    destruct (run_lexers lexers A i) as [t j| |] eqn:Hrun.
    + destruct (run_lexers_shape A i t j ltac:(lia) Hrun) as [_ Hj].
      intros Hl. apply IH in Hl; [|lia].
      unfold slen in *. rewrite length_app in Hl. simpl in Hl. lia.
    + intros Hx. now apply errWithPos_not_ok in Hx.
    + discriminate.
Qed.

End ParserFuel.

Section ParseFuel.

Context `{Externals} `{ConfigExternals}.

Lemma parseConfig_fuel p : parseConfig p <> NoFuel.
Proof.
  assert (Hfr : forall t frags cc, config_fragments p t frags cc <> NoFuel).
  { intros t frags. induction frags as [|s frags IH]; intros cc;
      cbn [config_fragments]; [discriminate|].
    unfold errWithToken.
    destruct (strings_Split s 58) as [|name [|flag [|x l]]];
      try apply errWithPos_fuel.
    destruct (strconv_ParseBool _); [|apply errWithPos_fuel].
    destruct (bool_decide _); [apply IH|].
    destruct (_ || _); [apply IH|apply errWithPos_fuel]. }
  assert (Htk : forall toks cc, config_tokens p toks cc <> NoFuel).
  { intros toks. induction toks as [|t toks IH]; intros cc;
      cbn [config_tokens]; [discriminate|].
    destruct (negb _); [discriminate|].
    destruct (strip_prefix _ _) as [cmt|]; [|apply IH].
    pose proof (Hfr t (strings_Split cmt 44) cc) as Hx.
    destruct (config_fragments p t _ cc); try discriminate; [apply IH|].
    contradiction. }
  unfold parseConfig. pose proof (Htk (tokens p) (CopyCompileConfig (conf p))).
  destruct (config_tokens p _ _); try discriminate. contradiction.
Qed.

(** X11.  The recursion of the parser ends: from index 0, a fuel of
    twice the length of the source plus two is never used up by [parse],
    whatever the source. *)
Theorem parse_terminates (fuel : nat) (p : parser) :
  idx p = 0 ->
  (2 * length (source p) + 2 <= fuel)%nat ->
  parse fuel p <> NoFuel.
Proof.
  intros Hi Hf. unfold parse.
  destruct (lex p) as [p1| | |] eqn:Hlex; try discriminate.
  2:{ revert Hlex. unfold lex.
      destruct (lex_loop_total (length (source p)) p (source p) 0 []
                  ltac:(lia) ltac:(unfold slen; lia))
        as [[out ->]|(j & _ & ->)]; [discriminate|].
      pose proof (@errWithPos_fuel (list token) p
                    (ErrNew "can not parse token") j) as He.
      destruct (errWithPos p _ j); try discriminate. contradiction. }
  pose proof (parseConfig_fuel p1) as Hc.
  destruct (parseConfig p1) as [p2| | |] eqn:Hconf; try discriminate;
    [|contradiction].
  destruct (parseConfig_frame _ _ Hconf) as (_ & Htok & Hidx).
  assert (Hcount : slen (tokens p1) <= slen (source p)).
  { revert Hlex. unfold lex.
    destruct (lex_loop _ p (source p) 0 []) as [out| | |] eqn:Hl;
      try discriminate.
    intros [= <-]. cbn. apply lex_loop_count in Hl; [|lia].
    unfold slen in *. simpl in Hl. lia. }
  assert (Hi1 : idx p1 = idx p).
  { revert Hlex. unfold lex.
    destruct (lex_loop _ p (source p) 0 []); try discriminate.
    now intros [= <-]. }
  pose proof (parseAstTree_fuel fuel p2 ltac:(lia)
                ltac:(rewrite Htok; unfold slen in *; lia)) as Ha.
  destruct (parseAstTree fuel p2) as [[ast q]| | |]; try discriminate.
  contradiction.
Qed.

End ParseFuel.

(** * Further properties of the evaluator *)

Section EvalErrors.

Context (nodes : list labNode.t) (size : Z) (ctx : Ctx).

(** An error that the selector reported for a name of the program, or
    that an operator of the program returned. *)
Definition reported (err : error) : Prop :=
  (exists n name r, n ∈ nodes /\ labNode.value n = VStr name
                    /\ Get ctx (labNode.selKey n) name = Ret r (Some err))
  \/ (exists n op ps r, n ∈ nodes /\ labNode.operator n = Some op
                        /\ op ctx ps = Ret r (Some err)).

Lemma index_elem_of {A} (l : list A) (i : Z) (x : A) :
  index l i = Some x -> x ∈ l.
Proof.
  intros Hi. apply index_Some in Hi as [_ Hi].
  eapply list_elem_of_lookup_2, Hi.
Qed.

Lemma read_leaf_reported child res err :
  child ∈ nodes -> read_leaf ctx child = Ret res (Some err) -> reported err.
Proof.
  intros Hin. unfold read_leaf.
  destruct (Z.land (labNode.flag child) nodeTypeMask =? selector);
    [|discriminate].
  destruct (labNode.value child) eqn:Hv; try discriminate.
  intros Hg. left. eauto 10.
Qed.

Lemma call_op_reported curt ps res err :
  curt ∈ nodes ->
  call_op (labNode.operator curt) ctx ps = Ret res (Some err) ->
  reported err.
Proof.
  intros Hin. unfold call_op.
  destruct (labNode.operator curt) as [op|] eqn:Hop; [|discriminate].
  intros Hc. right. eauto 10.
Qed.

Lemma dispatch_reported curt i osTop os v err :
  curt ∈ nodes ->
  dispatch nodes ctx curt i osTop os = Finished (Returns v (Some err)) ->
  reported err.
Proof.
  intros Hin. unfold dispatch.
  destruct (Z.land (labNode.flag curt) nodeTypeMask =? fastOperator).
  { destruct (index nodes (wrap16 (i + 1))) as [c1|] eqn:H1; [|discriminate].
    destruct (read_leaf ctx c1) as [r1 [e1|]|p1] eqn:R1; try discriminate.
    { intros [= _ <-]. eapply read_leaf_reported, R1.
      eapply index_elem_of, H1. }
    destruct (index nodes (wrap16 (wrap16 (i + 1) + 1))) as [c2|] eqn:H2;
      [|discriminate].
    destruct (read_leaf ctx c2) as [r2 [e2|]|p2] eqn:R2; try discriminate.
    { intros [= _ <-]. eapply read_leaf_reported, R2.
      eapply index_elem_of, H2. }
    destruct (call_op (labNode.operator curt) ctx [r1; r2])
      as [r [e|]|p] eqn:Hc; try discriminate.
    intros [= _ <-]. eapply call_op_reported, Hc. assumption. }
  destruct (Z.land (labNode.flag curt) nodeTypeMask =? selector).
  { destruct (labNode.value curt) eqn:Hv; try discriminate.
    destruct (Get ctx (labNode.selKey curt) s) as [r [e|]|p] eqn:Hg;
      try discriminate.
    intros [= _ <-]. left. eauto 10. }
  destruct (Z.land (labNode.flag curt) nodeTypeMask =? constant);
    [discriminate|].
  destruct (Z.land (labNode.flag curt) nodeTypeMask =? operator);
    [|discriminate].
  match goal with
  | |- match ?x with _ => _ end = _ -> _ => destruct x as [p|ps]
  end; [discriminate|].
  destruct (call_op (labNode.operator curt) ctx ps) as [r [e|]|p] eqn:Hc;
    try discriminate.
  intros [= _ <-]. eapply call_op_reported, Hc. assumption.
Qed.

Lemma push_no_error res i osTop os prev v err :
  push res i osTop os prev <> Stop (Returns v (Some err)).
Proof. unfold push. destruct (in_range _ _); discriminate. Qed.

Lemma eval_iter_reported jumps st v err :
  eval_iter jumps nodes ctx st = Stop (Returns v (Some err)) -> reported err.
Proof.
  unfold eval_iter.
  destruct (index nodes (f_i st)) as [curt|] eqn:Hc; [|discriminate].
  destruct (dispatch nodes ctx curt (f_i st) (f_osTop st) (f_os st))
    as [res i osTop| |o] eqn:Hd; [| discriminate |].
  - unfold after_step. intros Ha. exfalso.
    destruct res as [| | |b| | |];
      try (now apply push_no_error in Ha).
    destruct (sc_loop jumps nodes b i curt osTop); try discriminate.
    now apply push_no_error in Ha.
  - intros [= ->]. eapply dispatch_reported, Hd. eapply index_elem_of, Hc.
Qed.

Lemma eval_run_reported steps jumps st v err :
  eval_run steps jumps nodes size ctx st = Stop (Returns v (Some err)) ->
  reported err.
Proof.
  revert st. induction steps as [|steps IH]; intros st; simpl;
    destruct (f_i st <? size); try discriminate.
  destruct (eval_iter jumps nodes ctx st) as [st'|o] eqn:Hi; [apply IH|].
  intros [= ->]. eapply eval_iter_reported, Hi.
Qed.

End EvalErrors.

(** X17.  [Eval] reports no error of its own: an error that it returns
    was returned by the selector for the name of a selector node of the
    program, or by an operator of the program. *)
Theorem eval_errors_are_reported (steps jumps : nat) (e : Expr) (ctx : Ctx)
    (v : Value) (err : error) :
  Expr_Eval steps jumps e ctx = Returns v (Some err) ->
  reported (labNodes e) ctx err.
Proof.
  unfold Expr_Eval, eval_loop.
  destruct (make_os _ _) as [os|]; [|discriminate].
  destruct (eval_run _ _ _ _ _ _) as [st|o] eqn:Hr.
  - unfold eval_exit. destruct (index (f_os st) 0); discriminate.
  - intros ->. eapply eval_run_reported, Hr.
Qed.

(** X18.  The length of the program is narrowed to int16: with 32768 to
    65535 nodes the size is negative, no node is dispatched, and [Eval]
    returns nil with a nil error when [maxStackSize <= 16] and panics in
    [make] otherwise. *)
Theorem eval_oversized_program (steps jumps : nat) (e : Expr) (ctx : Ctx) :
  32768 <= Z.of_nat (length (labNodes e)) <= 65535 ->
  eval_size e < 0
  /\ Expr_Eval steps jumps e ctx
     = if maxStackSize e <=? 16 then Returns VNil None
       else Panics MakeLenOutOfRange.
Proof.
  intros Hlen.
  assert (Hs : eval_size e = Z.of_nat (length (labNodes e)) - 65536).
  { unfold eval_size, wrap16.
    rewrite <- (Z.mod_unique_pos (Z.of_nat (length (labNodes e)) + 32768)
                  65536 1 (Z.of_nat (length (labNodes e)) - 32768)); lia. }
  split; [lia|].
  unfold Expr_Eval, make_os, eval_loop. rewrite Hs.
  destruct (Z.leb_spec (maxStackSize e) 8) as [H8|H8].
  { destruct (Z.leb_spec (maxStackSize e) 16); [|lia].
    destruct steps; simpl;
      (destruct (Z.ltb_spec 0 (Z.of_nat (length (labNodes e)) - 65536));
       [lia|reflexivity]). }
  destruct (Z.leb_spec (maxStackSize e) 16) as [H16|H16].
  { destruct steps; simpl;
      (destruct (Z.ltb_spec 0 (Z.of_nat (length (labNodes e)) - 65536));
       [lia|reflexivity]). }
  destruct (Z.ltb_spec (Z.of_nat (length (labNodes e)) - 65536) 0);
    [reflexivity|lia].
Qed.

Section ShortCircuitSkip.

Context (nodes : list labNode.t) (ctx : Ctx).
Hypothesis Hfwd : sc_forward nodes.

Lemma sc_loop_lands jumps b (k : nat) curt i osTop j t :
  nodes !! k = Some curt ->
  sc_match b curt = true ->
  sc_loop jumps nodes b i curt osTop = SCLand j t ->
  labNode.scPos curt <= j
  /\ exists tgt, index nodes j = Some tgt /\ t = labNode.osTop tgt
                 /\ sc_match b tgt = false.
Proof.
  revert k curt i osTop.
  induction jumps as [|jumps IH]; intros k curt i osTop Hk Hm; simpl;
    [discriminate|].
  rewrite Hm.
  destruct (Z.eqb_spec (labNode.scPos curt) (-1)) as [|Hne]; [discriminate|].
  destruct (index nodes (labNode.scPos curt)) as [tgt|] eqn:Ht;
    [|discriminate].
  destruct (sc_match b tgt) eqn:Hmt.
  - intros Hl. pose proof Ht as Ht'. apply index_Some in Ht' as [Hr Ht'].
    destruct (IH _ tgt _ _ Ht' Hmt Hl) as [Hle Hex].
    split; [|exact Hex].
    destruct (Hfwd _ _ Ht') as [Hx|Hx]; [|lia].
    exfalso. destruct jumps; simpl in Hl; [discriminate|].
    rewrite Hmt, Hx in Hl. discriminate.
  - destruct jumps; simpl; [discriminate|]. rewrite Hmt.
    intros [= <- <-]. split; [lia|]. eauto.
Qed.

(** X19.  With every short-circuit target [-1] or later, a node whose
    boolean result matches its flag makes the evaluator land on a node at
    or after its target, whose flag does not match; the stack top becomes
    that node's entry depth plus one, the result is on top, and evaluation
    goes on with the node after it.  The nodes in between are skipped. *)
Theorem eval_skips_to_target (jumps : nat) (st st' : frame)
    (curt : labNode.t) (b : bool) (i osTop : Z) :
  index nodes (f_i st) = Some curt ->
  dispatch nodes ctx curt (f_i st) (f_osTop st) (f_os st)
    = Produced (VBool b) i osTop ->
  sc_match b curt = true ->
  eval_iter jumps nodes ctx st = Continue st' ->
  exists j tgt,
    f_i st < labNode.scPos curt <= j
    /\ index nodes j = Some tgt /\ sc_match b tgt = false
    /\ f_i st' = wrap16 (j + 1)
    /\ f_osTop st' = wrap16 (labNode.osTop tgt + 1)
    /\ index (f_os st') (f_osTop st') = Some (VBool b).
Proof.
  intros Hc Hd Hm. unfold eval_iter. rewrite Hc, Hd. unfold after_step.
  destruct (sc_loop jumps nodes b i curt osTop) as [|j t| |] eqn:Hl;
    try discriminate.
  pose proof Hc as Hc'. apply index_Some in Hc' as [Hr Hc'].
  destruct (sc_loop_lands _ _ _ _ _ _ _ _ Hc' Hm Hl)
    as (Hle & tgt & Ht & -> & Hmt).
  unfold push.
  destruct (in_range (f_os st) (wrap16 (labNode.osTop tgt + 1))) eqn:Hin;
    [|discriminate].
  intros [= <-]. exists j, tgt. cbn.
  split.
  { split; [|assumption]. destruct (Hfwd _ _ Hc') as [Hx|Hx]; [|lia].
    exfalso. destruct jumps; simpl in Hl; [discriminate|].
    rewrite Hm, Hx in Hl. discriminate. }
  repeat split; try assumption.
  unfold in_range in Hin. apply andb_true_iff in Hin as [H0 H1].
  apply Z.leb_le in H0. apply Z.ltb_lt in H1.
  unfold index, store. destruct (Z.leb_spec 0 (wrap16 (labNode.osTop tgt + 1)));
    [|lia].
  apply list_lookup_insert_eq. lia.
Qed.

End ShortCircuitSkip.

(** ** Fast operators *)

(** A leaf as the evaluator classifies it: the kind, read under the type
    mask, is constant or selector; and neither short-circuit bit is set,
    so that the leaf never jumps. *)
Definition is_leaf (n : labNode.t) : Prop :=
  (Z.land (labNode.flag n) nodeTypeMask = constant
   \/ Z.land (labNode.flag n) nodeTypeMask = selector)
  /\ Z.land (labNode.flag n) scIfFalse <> scIfFalse
  /\ Z.land (labNode.flag n) scIfTrue <> scIfTrue.

(** The operator node of a binary form whose short-circuit target is the
    end of the program, and its fused counterpart. *)
Definition binary_node (kind f : Z) (op : Operator) (t k : Z) (v : Value)
  : labNode.t :=
  labNode.mk (kind + f) 2 (-1) t k v (Some op).

Definition sc_flags (f : Z) : Prop :=
  f = 0 \/ f = scIfFalse \/ f = scIfTrue \/ f = scIfFalse + scIfTrue.

(** What both forms compute from the two leaves and the operator. *)
Definition binary_result (ctx : Ctx) (op : Operator) (l1 l2 : labNode.t)
  : outcome :=
  match read_leaf ctx l1 with
  | Raise p => Panics p
  | Ret r (Some err) => Returns r (Some err)
  | Ret r1 None =>
    match read_leaf ctx l2 with
    | Raise p => Panics p
    | Ret r (Some err) => Returns r (Some err)
    | Ret r2 None =>
      match op ctx [r1; r2] with
      | Raise p => Panics p
      | Ret _ (Some err) => Returns VNil (Some err)
      | Ret res None => Returns res None
      end
    end
  end.

Lemma in_range_true {A} (l : list A) (i : Z) :
  0 <= i < Z.of_nat (length l) -> in_range l i = true.
Proof.
  intros Hi. unfold in_range. apply andb_true_iff.
  split; [apply Z.leb_le|apply Z.ltb_lt]; lia.
Qed.

Lemma leaf_no_match b l : is_leaf l -> sc_match b l = false.
Proof.
  intros (_ & Hf & Ht). unfold sc_match.
  apply Z.eqb_neq in Hf. apply Z.eqb_neq in Ht. rewrite Hf, Ht.
  now destruct b.
Qed.

Lemma leaf_dispatch nodes ctx l i osTop os :
  is_leaf l ->
  dispatch nodes ctx l i osTop os
  = match read_leaf ctx l with
    | Raise p => Finished (Panics p)
    | Ret res (Some err) => Finished (Returns res (Some err))
    | Ret res None => Produced res i osTop
    end.
Proof.
  intros ([Hk|Hk] & _); unfold dispatch, read_leaf; rewrite Hk.
  - reflexivity.
  - change (selector =? fastOperator) with false.
    change (selector =? selector) with true. cbn iota.
    destruct (labNode.value l); reflexivity.
Qed.

Lemma leaf_step jumps nodes ctx st l :
  index nodes (f_i st) = Some l -> is_leaf l ->
  eval_iter (S jumps) nodes ctx st
  = match read_leaf ctx l with
    | Raise p => Stop (Panics p)
    | Ret res (Some err) => Stop (Returns res (Some err))
    | Ret res None => push res (f_i st) (f_osTop st) (f_os st) (f_prev st)
    end.
Proof.
  intros Hi Hl. unfold eval_iter. rewrite Hi, (leaf_dispatch _ _ _ _ _ _ Hl).
  destruct (read_leaf ctx l) as [res [err|]|p]; try reflexivity.
  unfold after_step. destruct res; try reflexivity.
  cbn [sc_loop]. now rewrite (leaf_no_match _ _ Hl).
Qed.

Lemma push_bottom res x os prev :
  push res 2 (-1) (x :: os) prev
  = Continue {| f_i := 3; f_osTop := 0; f_os := res :: os; f_prev := prev |}.
Proof. reflexivity. Qed.

Lemma binary_finish nodes kind f op t k v res x os prev :
  match after_step 1 nodes (binary_node kind f op t k v) res 2 (-1)
          (x :: os) prev with
  | Stop o => o = Returns res None
  | Continue st =>
      f_i st = 3 /\ exists rest, f_os st = res :: rest
  end.
Proof.
  unfold after_step.
  destruct res; rewrite ?push_bottom; cbn [f_i f_os]; eauto.
  cbn [sc_loop labNode.scPos binary_node].
  destruct (sc_match b _); cbn; rewrite ?push_bottom; cbn [f_i f_os]; eauto.
Qed.

Lemma dispatch_binary_stack nodes ctx f op t k v r1 r2 rest :
  sc_flags f ->
  dispatch nodes ctx (binary_node operator f op t k v) 2 1 (r1 :: r2 :: rest)
  = match op ctx [r1; r2] with
    | Raise p => Finished (Panics p)
    | Ret _ (Some err) => Finished (Returns VNil (Some err))
    | Ret res None => Produced res 2 (-1)
    end.
Proof. intros [->|[->|[->| ->]]]; reflexivity. Qed.

Lemma dispatch_binary_fast ctx f op t k v l1 l2 osTop os :
  sc_flags f ->
  dispatch [binary_node fastOperator f op t k v; l1; l2] ctx
    (binary_node fastOperator f op t k v) 0 osTop os
  = match read_leaf ctx l1 with
    | Raise p => Finished (Panics p)
    | Ret r (Some err) => Finished (Returns r (Some err))
    | Ret r1 None =>
      match read_leaf ctx l2 with
      | Raise p => Finished (Panics p)
      | Ret r (Some err) => Finished (Returns r (Some err))
      | Ret r2 None =>
        match op ctx [r1; r2] with
        | Raise p => Finished (Panics p)
        | Ret res (Some err) => Finished (Returns res (Some err))
        | Ret res None => Produced res 2 osTop
        end
      end
    end.
Proof. intros [->|[->|[->| ->]]]; reflexivity. Qed.

Lemma eval_iter_at jumps nodes ctx st curt :
  index nodes (f_i st) = Some curt ->
  eval_iter jumps nodes ctx st
  = match dispatch nodes ctx curt (f_i st) (f_osTop st) (f_os st) with
    | Finished o => Stop o
    | Skipped =>
      Continue {| f_i := wrap16 (f_i st + 1); f_osTop := f_osTop st;
                  f_os := f_os st; f_prev := f_i st |}
    | Produced res i osTop =>
      after_step jumps nodes curt res i osTop (f_os st) (f_prev st)
    end.
Proof. intros Hi. unfold eval_iter. now rewrite Hi. Qed.

Lemma eval_loop_exit steps jumps nodes size ctx st res rest :
  size <= f_i st -> f_os st = res :: rest ->
  eval_loop steps jumps nodes size ctx st = Returns res None.
Proof.
  intros Hi Hos. unfold eval_loop.
  destruct steps; simpl; destruct (Z.ltb_spec (f_i st) size); try lia;
    now rewrite Hos.
Qed.

Lemma fast_form_result m f t k v op l1 l2 ctx :
  sc_flags f ->
  (forall ps res err, op ctx ps = Ret res (Some err) -> res = VNil) ->
  Expr_Eval 1 1
    {| maxStackSize := m;
       labNodes := [binary_node fastOperator f op t k v; l1; l2] |} ctx
  = binary_result ctx op l1 l2.
Proof.
  intros Hf Hop. unfold Expr_Eval, eval_size. cbn [maxStackSize labNodes length].
  change (wrap16 (Z.of_nat 3)) with 3.
  assert (Hos : exists x os, make_os m 3 = Some (x :: os)).
  { unfold make_os. destruct (m <=? 8); [cbn; eauto|].
    destruct (m <=? 16); cbn; eauto. }
  destruct Hos as (x & os & ->).
  rewrite (eval_loop_iter _ 3 ctx 0 1) by (cbn; lia).
  rewrite (eval_iter_at _ _ _ _ (binary_node fastOperator f op t k v))
    by reflexivity.
  cbn [eval_init f_i f_osTop f_os f_prev].
  rewrite (dispatch_binary_fast ctx f op t k v l1 l2 (-1) (x :: os) Hf).
  unfold binary_result.
  destruct (read_leaf ctx l1) as [r1 [e1|]|p1]; try reflexivity.
  destruct (read_leaf ctx l2) as [r2 [e2|]|p2]; try reflexivity.
  destruct (op ctx [r1; r2]) as [res [err|]|p] eqn:Hc; try reflexivity.
  { now rewrite (Hop _ _ _ Hc). }
  pose proof (binary_finish [binary_node fastOperator f op t k v; l1; l2]
                fastOperator f op t k v res x os 0) as Hfin.
  destruct (after_step 1 _ _ res 2 (-1) (x :: os) 0) as [st|o].
  - destruct Hfin as [Hi [rest Hr]].
    apply (eval_loop_exit _ _ _ _ _ _ res rest); [lia|assumption].
  - assumption.
Qed.

Lemma stack_form_result m f t k v op l1 l2 ctx :
  is_leaf l1 -> is_leaf l2 -> sc_flags f ->
  Expr_Eval 3 1
    {| maxStackSize := m;
       labNodes := [l1; l2; binary_node operator f op t k v] |} ctx
  = binary_result ctx op l1 l2.
Proof.
  intros H1 H2 Hf. unfold Expr_Eval, eval_size.
  cbn [maxStackSize labNodes length].
  change (wrap16 (Z.of_nat 3)) with 3.
  assert (Hos : exists x y z os, make_os m 3 = Some (x :: y :: z :: os)).
  { unfold make_os. destruct (m <=? 8); [cbn; eauto 10|].
    destruct (m <=? 16); cbn; eauto 10. }
  destruct Hos as (x & y & z & os & ->).
  set (nodes := [l1; l2; binary_node operator f op t k v]).
  unfold binary_result.
  rewrite (eval_loop_iter nodes 3 ctx 2 1) by (cbn; lia).
  rewrite (leaf_step 0 nodes ctx _ l1) by (assumption || reflexivity).
  destruct (read_leaf ctx l1) as [r1 [e1|]|p1]; try reflexivity.
  unfold push. cbn [eval_init f_i f_osTop f_os f_prev].
  change (wrap16 (-1 + 1)) with 0. change (wrap16 (0 + 1)) with 1.
  rewrite in_range_true by (simpl; lia).
  change (store (x :: y :: z :: os) 0 r1) with (r1 :: y :: z :: os).
  rewrite (eval_loop_iter nodes 3 ctx 1 1) by (cbn; lia).
  rewrite (leaf_step 0 nodes ctx _ l2) by (assumption || reflexivity).
  destruct (read_leaf ctx l2) as [r2 [e2|]|p2]; try reflexivity.
  unfold push. cbn [f_i f_osTop f_os f_prev].
  change (wrap16 (0 + 1)) with 1. change (wrap16 (1 + 1)) with 2.
  rewrite in_range_true by (simpl; lia).
  change (store (r1 :: y :: z :: os) 1 r2) with (r1 :: r2 :: z :: os).
  rewrite (eval_loop_iter nodes 3 ctx 0 1) by (cbn; lia).
  rewrite (eval_iter_at _ _ _ _ (binary_node operator f op t k v))
    by reflexivity.
  cbn [f_i f_osTop f_os f_prev].
  rewrite (dispatch_binary_stack nodes ctx f op t k v r1 r2 (z :: os) Hf).
  destruct (op ctx [r1; r2]) as [res [err|]|p]; try reflexivity.
  pose proof (binary_finish nodes operator f op t k v res r1 (r2 :: z :: os)
                0) as Hfin.
  destruct (after_step 1 _ _ res 2 (-1) (r1 :: r2 :: z :: os) 0) as [st|o].
  - destruct Hfin as [Hi [rest Hr]].
    apply (eval_loop_exit _ _ _ _ _ _ res rest); [lia|assumption].
  - assumption.
Qed.

(** X20.  For two leaves, nodes whose kind (the flag under the type
    mask) is constant or selector and whose flag carries neither
    short-circuit bit, and a binary operator whose short-circuit target
    is the end, the fused program (fast operator, then the leaves) and the
    stack program (the leaves, then the operator) have the same outcome,
    provided the operator returns nil along with an error. *)
Theorem fast_operator_agrees (m f t k : Z) (v : Value) (op : Operator)
    (l1 l2 : labNode.t) (ctx : Ctx) :
  is_leaf l1 -> is_leaf l2 -> sc_flags f ->
  (forall ps res err, op ctx ps = Ret res (Some err) -> res = VNil) ->
  Expr_Eval 1 1
    {| maxStackSize := m;
       labNodes := [binary_node fastOperator f op t k v; l1; l2] |} ctx
  = Expr_Eval 3 1
      {| maxStackSize := m;
         labNodes := [l1; l2; binary_node operator f op t k v] |} ctx.
Proof.
  intros H1 H2 Hf Hop.
  rewrite fast_form_result by assumption.
  now rewrite stack_form_result.
Qed.

(** * The further properties on sample programs and sources *)

Definition sample_source : gostring := gs "(< age 18)".

Definition integer_token (digits : string) (at_ : Z) : token :=
  {| typ := integer; val := gs digits; pos := at_ |}.

Definition string_token (text : string) (at_ : Z) : token :=
  {| typ := str; val := gs text; pos := at_ |}.

Definition sample_tokens : list token :=
  [paren_token true 0; ident_token "<" 1; ident_token "age" 3;
   integer_token "18" 7; paren_token false 9].

Definition sample_parser : parser := newParser sample_conf sample_source.

Definition sample_lexed : parser := with_tokens sample_parser sample_tokens.

Definition sample_ast : astNode.t :=
  astNode.mk (node.mk operator 0 0 0 0 (VStr (gs "<")) (Some sample_lt))
    [leaf_node selector (VStr (gs "age")) 1; leaf_node constant (VInt 18) 0]
    0 0 0.

Example lex_sample : @lex sample_externals sample_parser = Ok sample_lexed.
Proof. reflexivity. Qed.

Lemma lex_positions_witness :
  StronglySorted (fun a b => pos a < pos b) sample_tokens
  /\ Forall (fun t => 0 <= pos t < 10
                      /\ exists place,
                           parser_pos sample_source (pos t) = inr place)
       sample_tokens.
Proof.
  apply (@lex_positions sample_externals sample_parser sample_lexed).
  reflexivity.
Defined.


Lemma lex_ident_tokens_witness :
  gs "age" <> []
  /\ Forall (fun r => @token_stop sample_externals r = false) (gs "age")
  /\ (@name_runes sample_externals (gs "age") 0 = true
      \/ is_Some (@builtinOperators sample_externals !! gs "age")).
Proof.
  apply (@lex_ident_tokens sample_externals sample_parser sample_lexed
           (ident_token "age" 3)); [reflexivity| |reflexivity].
  unfold sample_lexed, sample_tokens. cbn. repeat constructor.
Defined.

Lemma lex_token_kinds_witness :
  val (paren_token true 0) = gs "(" \/ val (paren_token true 0) = gs "[".
Proof.
  assert (Hin : paren_token true 0 ∈ tokens sample_lexed)
    by (unfold sample_lexed, sample_tokens; cbn; repeat constructor).
  apply (proj1 (proj2 (@lex_token_kinds sample_externals sample_parser
                         sample_lexed (paren_token true 0) eq_refl Hin))).
  reflexivity.
Defined.

Lemma parser_pos_window_witness :
  exists c, index sample_source 1 = Some c
    /\ parser_pos sample_source 1
       = inr (gs " " ++ ([] ++ slice sample_source (Z.max 0 (1 - 30)) 1)
              ++ gs "[" ++ [c] ++ gs "]"
              ++ (slice sample_source (1 + 1) (Z.min (slen sample_source) (1 + 30))
                  ++ []))
    /\ parser_pos_cap 16 sample_source 1 = parser_pos sample_source 1
    /\ (length (slice sample_source (Z.max 0 (1 - 30)) 1) <= 30)%nat
    /\ (length (slice sample_source (1 + 1)
                  (Z.min (slen sample_source) (1 + 30))) <= 29)%nat.
Proof.
  apply (proj1 (parser_pos_window 16 sample_source 1
                  ltac:(unfold sample_source, slen; simpl; lia))).
  unfold sample_source, slen. simpl. lia.
Defined.

Lemma checkParentheses_accepts_witness :
  (exists first final,
      head sample_tokens = Some first /\ typ first = lParen
      /\ last sample_tokens = Some final /\ typ final = rParen)
  /\ forall k, (k < length sample_tokens)%nat ->
       0 <= depth (take (S k) sample_tokens)
       /\ (depth (take (S k) sample_tokens) = 0
           -> S k = length sample_tokens).
Proof.
  apply (proj1 (checkParentheses_accepts sample_lexed)). reflexivity.
Defined.

Lemma parseExpression_consumes_witness :
  let p' := with_idx sample_lexed 5 in
  source p' = source sample_lexed /\ conf p' = conf sample_lexed
  /\ tokens p' = tokens sample_lexed
  /\ 0 <= idx sample_lexed < idx p' /\ idx p' <= slen (tokens sample_lexed).
Proof.
  apply (@parseExpression_consumes sample_externals 4 sample_lexed
           (with_idx sample_lexed 5) sample_ast).
  reflexivity.
Defined.

Lemma parse_balanced_witness :
  exists p1, @lex sample_externals sample_parser = Ok p1
             /\ depth (List.filter not_comment (tokens p1)) = 0.
Proof.
  apply (@parse_balanced sample_externals sample_config_externals 4
           sample_parser sample_ast sample_conf); reflexivity.
Defined.

Lemma parse_errors_positional_witness :
  exists cause place,
    ErrOccursAt (ErrParamsCount keywordIf 3 4) (gs " ([i]f age 1 2 3)")
    = ErrOccursAt cause place.
Proof.
  apply (@parse_errors_positional sample_externals sample_config_externals 8
           (newParser sample_conf (gs "(if age 1 2 3)"))).
  reflexivity.
Defined.

Lemma parse_terminates_witness :
  @parse sample_externals sample_config_externals 22 sample_parser <> NoFuel.
Proof.
  apply (@parse_terminates sample_externals sample_config_externals 22
           sample_parser); [reflexivity|]. vm_compute. lia.
Defined.



(** The tokens of a list that starts with [1] and goes on with a string. *)
Definition mixed_parser : parser :=
  {| source := [40; 49; 32; 34; 97; 34; 41]; conf := sample_conf;
     tokens := [paren_token true 0; integer_token "1" 1; string_token "a" 3;
                paren_token false 6];
     idx := 0 |}.

Lemma parseList_mixed_witness :
  parseList mixed_parser
  = errWithPos mixed_parser (ErrTokenType integer str) 3.
Proof.
  apply (parseList_mixed mixed_parser [] [] [paren_token false 6]
           (paren_token true 0) (integer_token "1" 1) (string_token "a" 3));
    try reflexivity; try discriminate.
  - now left.
  - constructor.
Defined.

Lemma head_resolution_witness :
  @buildNode sample_externals sample_lexed (ident_token "let" 1) []
  = errWithPos sample_lexed (ErrNotSupported (gs "let")) 1.
Proof.
  apply (proj1 (@head_resolution sample_externals sample_lexed
                  (ident_token "let" 1) [])).
  cbn. repeat constructor.
Defined.

(** A header that switches every optimization on. *)
Definition header_token : token :=
  {| typ := comment; val := gs ";;;; optimize:true"; pos := 0 |}.

Definition header_parser : parser :=
  {| source := gs ";;;; optimize:true"; conf := sample_conf;
     tokens := [header_token; paren_token true 19]; idx := 0 |}.

Definition optimized_conf : CompileConfig :=
  set_option
    (set_option (set_option sample_conf (gs "reordering") true)
       (gs "fast_evaluation") true)
    (gs "constant_folding") true.

Lemma parseConfig_changes_options_only_witness :
  ConstantMap optimized_conf = ConstantMap sample_conf
  /\ SelectorMap optimized_conf = SelectorMap sample_conf.
Proof.
  destruct (@parseConfig_changes_options_only sample_externals
              sample_config_externals header_parser
              {| source := source header_parser; conf := optimized_conf;
                 tokens := tokens header_parser; idx := 0 |})
    as (_ & _ & _ & Hc & Hs & _); [reflexivity|].
  split; [exact Hc|exact Hs].
Defined.

Lemma parseConfig_reads_leading_comments_witness :
  @parseConfig sample_externals sample_config_externals
    (with_tokens header_parser
       ([header_token] ++ paren_token true 19 :: [header_token]))
  = match @parseConfig sample_externals sample_config_externals
            header_parser with
    | Ok q => Ok (with_tokens q
                    ([header_token] ++ paren_token true 19 :: [header_token]))
    | r => r
    end.
Proof.
  apply (@parseConfig_reads_leading_comments sample_externals
           sample_config_externals header_parser [header_token] []
           [header_token] (paren_token true 19)); [reflexivity|discriminate].
Defined.

(** A selector that the sample context does not know. *)
Definition unknown_program : Expr := {|
  maxStackSize := 1;
  labNodes := [labNode.mk selector 0 (-1) (-1) 2 (VStr (gs "limit")) None]
|}.

Lemma eval_errors_are_reported_witness :
  reported (labNodes unknown_program) sample_ctx (ErrNew "unknown selector").
Proof.
  apply (eval_errors_are_reported 1 1 unknown_program sample_ctx VNil).
  reflexivity.
Defined.

Definition oversized_program : Expr := {|
  maxStackSize := 2;
  labNodes := replicate (Z.to_nat 32768) and_first
|}.

Lemma eval_oversized_program_witness :
  eval_size oversized_program < 0
  /\ Expr_Eval 5 5 oversized_program sample_ctx = Returns VNil None.
Proof.
  apply (eval_oversized_program 5 5 oversized_program sample_ctx).
  unfold oversized_program. cbn [labNodes]. rewrite length_replicate. lia.
Defined.

(** The program of [(or (and false true) true)]: the first operand jumps
    over the second to the [and] node, which goes on to the [or]. *)
Definition or_and_program : Expr := {|
  maxStackSize := 2;
  labNodes :=
    [labNode.mk (constant + scIfFalse) 0 2 (-1) 0 (VBool false) None;
     labNode.mk constant 0 (-1) 0 0 (VBool true) None;
     labNode.mk (operator + scIfTrue) 2 4 (-1) 0 (VStr (gs "and"))
       (Some sample_and);
     labNode.mk constant 0 (-1) 0 0 (VBool true) None;
     labNode.mk operator 2 (-1) (-1) 0 (VStr (gs "or")) (Some sample_and)]
|}.

Lemma eval_skips_to_target_witness :
  exists j tgt,
    0 < 2 <= j
    /\ index (labNodes or_and_program) j = Some tgt
    /\ sc_match false tgt = false
    /\ 3 = wrap16 (j + 1)
    /\ 0 = wrap16 (labNode.osTop tgt + 1)
    /\ index (VBool false :: replicate 7 VNil) 0 = Some (VBool false).
Proof.
  apply (eval_skips_to_target (labNodes or_and_program) sample_ctx)
    with (jumps := 2%nat) (st := eval_init (replicate 8 VNil))
         (st' := {| f_i := 3; f_osTop := 0;
                    f_os := VBool false :: replicate 7 VNil; f_prev := 0 |})
         (curt := labNode.mk (constant + scIfFalse) 0 2 (-1) 0 (VBool false)
                    None)
         (b := false) (i := 0) (osTop := -1);
    try reflexivity.
  intros k n. simpl.
  destruct k as [|[|[|[|[|k]]]]]; simpl; intros [= <-]; simpl; lia.
Defined.

Lemma fast_operator_agrees_witness :
  Expr_Eval 1 1
    {| maxStackSize := 2;
       labNodes :=
         [binary_node fastOperator 0 sample_lt (-1) 0 (VStr (gs "<"));
          labNode.mk selector 0 (-1) (-1) 1 (VStr (gs "age")) None;
          labNode.mk constant 0 (-1) 0 0 (VInt 18) None] |} sample_ctx
  = Expr_Eval 3 1
      {| maxStackSize := 2;
         labNodes :=
           [labNode.mk selector 0 (-1) (-1) 1 (VStr (gs "age")) None;
            labNode.mk constant 0 (-1) 0 0 (VInt 18) None;
            binary_node operator 0 sample_lt (-1) 0 (VStr (gs "<"))] |}
      sample_ctx.
Proof.
  apply fast_operator_agrees.
  - split; [now right|split; discriminate].
  - split; [now left|split; discriminate].
  - now left.
  - intros ps res err Hs. unfold sample_lt in Hs.
    repeat match type of Hs with
           | context [match ?x with _ => _ end] => destruct x
           end; congruence.
Defined.

(** A leaf that carries a short-circuit bit is no leaf in that sense: the
    stack program returns at the flagged constant, the fused one reads
    both leaves first and returns the error of the selector. *)
Example flagged_leaf_differs :
  Expr_Eval 1 1
    {| maxStackSize := 2;
       labNodes :=
         [binary_node fastOperator 0 sample_and (-1) 0 (VStr (gs "and"));
          labNode.mk (constant + scIfFalse) 0 (-1) (-1) 0 (VBool false) None;
          labNode.mk selector 0 (-1) 0 2 (VStr (gs "limit")) None] |}
    sample_ctx
  = Returns VNil (Some (ErrNew "unknown selector"))
  /\ Expr_Eval 3 1
       {| maxStackSize := 2;
          labNodes :=
            [labNode.mk (constant + scIfFalse) 0 (-1) (-1) 0 (VBool false)
               None;
             labNode.mk selector 0 (-1) 0 2 (VStr (gs "limit")) None;
             binary_node operator 0 sample_and (-1) 0 (VStr (gs "and"))] |}
       sample_ctx
     = Returns (VBool false) None.
Proof. split; reflexivity. Qed.
